(** * Torsel: instance pool, worker loop and retry engine

    A shallow embedding of [src/torsel/torsel.py].  Python integers are [Z];
    the operating system, the browser driver, the Tor control channel and the
    caller's callbacks are an explicit world [W] with an interface [Env] of
    operations on it; every call that leaves the program is recorded in an
    event trace, so that "how many times" and "in which order" are statements
    about lists.  Console logging ([self.log]) is left out. *)

From Stdlib Require Import String ZArith List Bool Lia FinFun.
Import ListNotations.
Local Open Scope Z_scope.

(** ** Pool configuration: the attributes set by [Torsel.__init__] *)

Record Torsel := {
  total_instances : Z;
  max_threads : Z;
  tor_base_port : Z;
  tor_control_base_port : Z;
  tor_path : string;
  tor_data_dir : string;
  headless : bool;
  verbose : bool
}.

(** The keyword defaults of [__init__]. *)
Definition default_torsel : Torsel :=
  {| total_instances := 10; max_threads := 5;
     tor_base_port := 9050; tor_control_base_port := 9151;
     tor_path := "/usr/bin/tor"; tor_data_dir := "/tmp/tor_profiles";
     headless := true; verbose := true |}.

(** [self.tor_base_port + instance_num * 10]: lines 88 and 113. *)
Definition socks_port (self : Torsel) (instance_num : Z) : Z :=
  tor_base_port self + instance_num * 10.

(** [self.tor_control_base_port + instance_num * 10]: lines 89 and 128. *)
Definition control_port (self : Torsel) (instance_num : Z) : Z :=
  tor_control_base_port self + instance_num * 10.

(** ** Python helpers *)

(** [range(n)]: 0, 1, ..., n-1, empty when [n <= 0]. *)
Definition range (n : Z) : list Z := map Z.of_nat (seq 0 (Z.to_nat n)).

(** [range(start, stop, step)] for a positive [step]. *)
Definition range3 (start stop step : Z) : list Z :=
  map (fun k => start + step * Z.of_nat k)
      (seq 0 (Z.to_nat ((stop - start + step - 1) / step))).

(** Exceptions.  [except Exception] catches every class derived from
    [Exception]; [SystemExit], [KeyboardInterrupt] and the like derive from
    [BaseException] only and pass through it. *)
Inductive exn : Type :=
| ZeroDivisionError
| QueueEmpty                    (* queue.Empty, from get_nowait *)
| ValueError                    (* task_done called too many times *)
| OverflowError                 (* connect_ex: port must be 0-65535 *)
| OtherException (tag : string) (* any other subclass of Exception *)
| BaseOnly (tag : string).      (* BaseException outside Exception *)

Definition is_Exception (e : exn) : bool :=
  match e with BaseOnly _ => false | _ => true end.

Inductive res (A : Type) : Type :=
| Ok (a : A)
| Raise (e : exn).
Arguments Ok {A} a.
Arguments Raise {A} e.

(** [a % b]: the sign follows the divisor, as [Z.modulo] does; a zero
    divisor raises. *)
Definition py_mod (a b : Z) : res Z :=
  if b =? 0 then Raise ZeroDivisionError else Ok (a mod b).

(** The port numbers [connect_ex] accepts. *)
Definition valid_port (port : Z) : bool :=
  (0 <=? port) && (port <=? 65535).

(** ** Events *)

Inductive syscall : Type :=
| KillallTor                (* subprocess.call(['killall', 'tor']) *)
| Sleep (secs : Z)          (* time.sleep *)
| FuserKill (port : Z)      (* os.system("fuser -k <port>/tcp") *)
| Rmtree.                   (* shutil.rmtree(self.tor_data_dir) *)

Inductive event : Type :=
| ESys (c : syscall)
| EProbe (port : Z)                       (* connect_ex to the port *)
| EDirExists                              (* os.path.exists(tor_data_dir) *)
| ECreate (instance_num : Z)              (* entry of create_tor_instance *)
| ELaunchTor (instance_num socks control : Z) (* torrc written, tor spawned *)
| EExecute (action_num instance_num : Z)  (* entry of execute_function *)
| EChrome (hl : bool) (socks : Z)         (* webdriver.Chrome(...) *)
| EUserCall (action_num instance_num : Z) (* user_function(driver, ...) *)
| EQuit                                   (* driver.quit() *)
| ERotate (instance_num : Z)              (* entry of rotate_tor_ip *)
| ENewnym (control : Z)                   (* authenticate + NEWNYM *)
| EGet (action_num : Z)                   (* queue.get() *)
| EGetNowait (action_num : Z)             (* queue.get_nowait() *)
| ETaskDone                               (* queue.task_done() *)
| EStopCheck.                             (* check_stop_func() *)

(** Number of events of a trace that satisfy [p]. *)
Definition count (p : event -> bool) (tr : list event) : nat :=
  length (filter p tr).

Definition is_execute (e : event) : bool :=
  match e with EExecute _ _ => true | _ => false end.
Definition is_rotate (e : event) : bool :=
  match e with ERotate _ => true | _ => false end.
Definition is_usercall (e : event) : bool :=
  match e with EUserCall _ _ => true | _ => false end.
Definition is_quit (e : event) : bool :=
  match e with EQuit => true | _ => false end.
Definition is_chrome (e : event) : bool :=
  match e with EChrome _ _ => true | _ => false end.
Definition is_create (i : Z) (e : event) : bool :=
  match e with ECreate j => i =? j | _ => false end.
Definition is_get (a : Z) (e : event) : bool :=
  match e with EGet b => a =? b | _ => false end.
Definition is_get_nowait (a : Z) (e : event) : bool :=
  match e with EGetNowait b => a =? b | _ => false end.
Definition is_any_get_nowait (e : event) : bool :=
  match e with EGetNowait _ => true | _ => false end.
Definition is_task_done (e : event) : bool :=
  match e with ETaskDone => true | _ => false end.

(** The ports a trace probes, in order. *)
Definition probes (tr : list event) : list Z :=
  flat_map (fun e => match e with EProbe p => [p] | _ => [] end) tr.

(** The ports a trace frees, in order. *)
Definition kills (tr : list event) : list Z :=
  flat_map (fun e => match e with ESys (FuserKill p) => [p] | _ => [] end) tr.

(** ** The shared queue: [queue.Queue] *)

Record Queue := {
  items : list Z;          (* pending action numbers, head first *)
  unfinished_tasks : nat   (* puts not yet matched by a task_done *)
}.

Definition new_queue : Queue := {| items := []; unfinished_tasks := 0 |}.

Definition put (q : Queue) (x : Z) : Queue :=
  {| items := items q ++ [x]; unfinished_tasks := S (unfinished_tasks q) |}.

Definition empty (q : Queue) : bool :=
  match items q with [] => true | _ => false end.

(** [task_done]: raises ValueError when called more often than [put]. *)
Definition task_done (unfinished : nat) : res nat :=
  match unfinished with
  | O => Raise ValueError
  | S n => Ok n
  end.

(** ** The world and the program's view of it

    [W] is everything outside the program; [Driver] is a browser session
    handle.  [Env] lists the operations the program performs on the
    outside; those that the source lets raise return a [res]. *)

Record Env (W Driver : Type) := {
  (* sock.connect_ex(('127.0.0.1', port)) == 0 *)
  port_open : W -> Z -> bool;
  (* os.path.exists(self.tor_data_dir) *)
  data_dir_exists : W -> bool;
  (* os.system("fuser -k ..."), time.sleep: these do not raise *)
  os_call : syscall -> W -> W;
  (* subprocess.call(['killall', 'tor']): raises when killall is missing *)
  killall_tor : W -> W * res unit;
  (* shutil.rmtree(self.tor_data_dir) *)
  rmtree : W -> W * res unit;
  (* makedirs, write torrc, Popen(tor -f torrc); arguments: instance, socks
     port, control port *)
  tor_launch : Z -> Z -> Z -> W -> W * res unit;
  (* webdriver.Chrome with the headless flag and the proxy port *)
  webdriver_Chrome : bool -> Z -> W -> W * res Driver;
  (* driver.quit() *)
  driver_quit : Driver -> W -> W * res unit;
  (* Controller.from_port(port), authenticate(), signal(NEWNYM) *)
  tor_newnym : Z -> W -> W * res unit
}.
Arguments port_open {W Driver} _ _ _.
Arguments data_dir_exists {W Driver} _ _.
Arguments os_call {W Driver} _ _ _.
Arguments killall_tor {W Driver} _ _.
Arguments rmtree {W Driver} _ _.
Arguments tor_launch {W Driver} _ _ _ _ _.
Arguments webdriver_Chrome {W Driver} _ _ _ _.
Arguments driver_quit {W Driver} _ _ _.
Arguments tor_newnym {W Driver} _ _ _.

(** The caller's function: [user_function(driver, action_num, instance_num,
    log)]. *)
Definition UserFn (W Driver : Type) : Type :=
  Driver -> Z -> Z -> W -> W * res unit.

(** The optional stop check: [check_stop_func()]. *)
Definition StopFn (W : Type) : Type := W -> W * res bool.

(** A computation changes the world, emits events, and returns or raises. *)
Definition M (W A : Type) : Type := W -> W * list event * res A.

Section World.

Context {W Driver : Type}.

Definition ret {A} (a : A) : M W A := fun w => (w, [], Ok a).

Definition bind {A B} (m : M W A) (f : A -> M W B) : M W B :=
  fun w =>
    match m w with
    | (w1, t1, Ok a) =>
        match f a w1 with (w2, t2, r) => (w2, t1 ++ t2, r) end
    | (w1, t1, Raise e) => (w1, t1, Raise e)
    end.

Definition emit (e : event) : M W unit := fun w => (w, [e], Ok tt).

(** An outside call, recorded as [e]. *)
Definition call {A} (e : event) (f : W -> W * res A) : M W A :=
  fun w => match f w with (w1, r) => (w1, [e], r) end.

Notation "x <- m ;; k" := (bind m (fun x => k))
  (at level 61, m at next level, right associativity).
Notation "m ;; k" := (bind m (fun _ => k))
  (at level 61, right associativity).

Variable env : Env W Driver.
Variable self : Torsel.

(** A call to the operating system, recorded as [ESys c].  [killall] and
    [rmtree] may raise; [os.system] and [time.sleep] return. *)
Definition sys (c : syscall) : M W unit :=
  match c with
  | KillallTor => call (ESys c) (killall_tor env)
  | Rmtree => call (ESys c) (rmtree env)
  | Sleep _ | FuserKill _ => fun w => (os_call env c w, [ESys c], Ok tt)
  end.

(** [is_port_open], lines 138-150.  [connect_ex] raises [OverflowError]
    for a port that is not a port number, before any connection is tried;
    otherwise it answers. *)
Definition is_port_open (port : Z) : M W bool :=
  fun w =>
    if valid_port port
    then (w, [EProbe port], Ok (port_open env w port))
    else (w, [], Raise OverflowError).

(** [clean_up], lines 55-74: the loop body for one [port] of the range. *)
Definition clean_up_port (port : Z) : M W unit :=
  o1 <- is_port_open port ;;
  (if o1 : bool then sys (FuserKill port) else ret tt) ;;
  o2 <- is_port_open (port + 101) ;;
  (if o2 : bool then sys (FuserKill (port + 101)) else ret tt).

Fixpoint for_each {A} (l : list A) (body : A -> M W unit) : M W unit :=
  match l with
  | [] => ret tt
  | x :: l' => body x ;; for_each l' body
  end.

Definition clean_up : M W unit :=
  sys KillallTor ;;
  sys (Sleep 1) ;;
  for_each (range3 (tor_base_port self)
                   (tor_base_port self + total_instances self * 10) 10)
           clean_up_port ;;
  ex <- (fun w => (w, [EDirExists], Ok (data_dir_exists env w))) ;;
  (if ex : bool then sys Rmtree else ret tt) ;;
  sys (Sleep 3).

(** [create_tor_instance], lines 76-98. *)
Definition create_tor_instance (instance_num : Z) : M W unit :=
  emit (ECreate instance_num) ;;
  call (ELaunchTor instance_num (socks_port self instance_num)
                   (control_port self instance_num))
       (tor_launch env instance_num (socks_port self instance_num)
                   (control_port self instance_num)) ;;
  sys (Sleep 5).

(** [configure_selenium_with_tor], lines 100-119. *)
Definition configure_selenium_with_tor (instance_num : Z) : M W Driver :=
  call (EChrome (headless self) (socks_port self instance_num))
       (webdriver_Chrome env (headless self) (socks_port self instance_num)).

(** [rotate_tor_ip], lines 121-136. *)
Definition rotate_tor_ip (instance_num : Z) : M W unit :=
  emit (ERotate instance_num) ;;
  let control_port := tor_control_base_port self + instance_num * 10 in
  o <- is_port_open control_port ;;
  if o : bool then
    call (ENewnym control_port) (tor_newnym env control_port) ;;
    sys (Sleep 5)
  else ret tt.

(** [execute_function], lines 152-163. *)
Definition execute_function (action_num instance_num : Z)
    (user_function : UserFn W Driver) : M W unit :=
  emit (EExecute action_num instance_num) ;;
  driver <- configure_selenium_with_tor instance_num ;;
  call (EUserCall action_num instance_num)
       (user_function driver action_num instance_num) ;;
  call EQuit (driver_quit env driver).

(** The retry loop of [thread_manager], lines 182-188:
    [for attempt in range(5): try: ...; break / except Exception: ...],
    with [n] the number of attempts left. *)
Fixpoint retry_loop (n : nat) (action_num instance_num : Z)
    (user_function : UserFn W Driver) : M W unit :=
  match n with
  | O => ret tt
  | S n' =>
      fun w =>
        match execute_function action_num instance_num user_function w with
        | (w1, t1, Ok _) => (w1, t1, Ok tt)                       (* break *)
        | (w1, t1, Raise e) =>
            if is_Exception e then
              match (rotate_tor_ip instance_num ;;
                     retry_loop n' action_num instance_num user_function) w1
              with (w2, t2, r) => (w2, t1 ++ t2, r) end
            else (w1, t1, Raise e)
        end
  end.

(** ** The worker: [thread_manager], lines 165-195 *)

Section Worker.

Variable user_function : UserFn W Driver.
Variable check_stop_func : option (StopFn W).

(** Lines 176-188, for the [action_num] that [queue.get()] returned. *)
Definition action_body (action_num : Z) : M W unit :=
  instance_num <-
    (fun w => (w, [], py_mod action_num (total_instances self))) ;;
  (if action_num <? total_instances self
   then create_tor_instance instance_num ;; sys (Sleep 2)
   else ret tt) ;;
  retry_loop 5 action_num instance_num user_function.

(** Line 191: [check_stop_func and check_stop_func()]. *)
Definition stop_requested : M W bool :=
  match check_stop_func with
  | None => ret false
  | Some f => call EStopCheck f
  end.

(** Lines 175-191 as one piece: from the moment [queue.get()] has returned
    [action_num] to the outcome of the stop check.  Returns the new world,
    the events, the queue's count of unfinished tasks, and either the
    exception that escapes or the answer of the stop check. *)
Definition after_get (action_num : Z) (unfinished : nat) (w : W)
  : W * list event * nat * res bool :=
  match (emit (EGet action_num) ;; action_body action_num) w with
  | (w1, t1, Raise e) => (w1, t1, unfinished, Raise e)
  | (w1, t1, Ok _) =>
      match task_done unfinished with
      | Raise e => (w1, t1 ++ [ETaskDone], unfinished, Raise e)
      | Ok unfinished' =>
          match stop_requested w1 with
          | (w2, t2, r) => (w2, t1 ++ ETaskDone :: t2, unfinished', r)
          end
      end
  end.

(** How a call of [thread_manager] ends. *)
Inductive exit : Type :=
| Returned
| Raised (e : exn).

(** Lines 192-194, run by one thread on its own:
    [while not queue.empty(): queue.get_nowait(); queue.task_done()]. *)
Fixpoint drain (l : list Z) (unfinished : nat) : list event * Queue * exit :=
  match l with
  | [] => ([], {| items := []; unfinished_tasks := unfinished |}, Returned)
  | a :: rest =>
      match task_done unfinished with
      | Raise e =>
          ([EGetNowait a; ETaskDone],
           {| items := rest; unfinished_tasks := unfinished |}, Raised e)
      | Ok unfinished' =>
          match drain rest unfinished' with
          | (t, q, x) => (EGetNowait a :: ETaskDone :: t, q, x)
          end
      end
  end.

(** The whole loop, run by one thread on its own, by recursion on the
    pending items. *)
Fixpoint thread_loop (l : list Z) (unfinished : nat) (w : W)
  : W * list event * Queue * exit :=
  match l with
  | [] => (w, [], {| items := []; unfinished_tasks := unfinished |}, Returned)
  | a :: rest =>
      match after_get a unfinished w with
      | (w1, t1, unfinished', Raise e) =>
          (w1, t1, {| items := rest; unfinished_tasks := unfinished' |},
           Raised e)
      | (w1, t1, unfinished', Ok true) =>
          match drain rest unfinished' with
          | (t2, q, x) => (w1, t1 ++ t2, q, x)                    (* break *)
          end
      | (w1, t1, unfinished', Ok false) =>
          match thread_loop rest unfinished' w1 with
          | (w2, t2, q, x) => (w2, t1 ++ t2, q, x)
          end
      end
  end.

Definition thread_manager (queue : Queue) (w : W)
  : W * list event * Queue * exit :=
  thread_loop (items queue) (unfinished_tasks queue) w.

(** ** The pool: [run], lines 197-219, and its threads

    The threads share the queue and the world.  A thread is at one of the
    queue operations of [thread_manager]; one step of a thread runs it from
    there to its next queue operation, and the steps of the threads
    interleave in any order.  What lies between [queue.get()] and the next
    [queue.empty()] touches the queue only through [task_done] and is one
    step. *)

Inductive pc : Type :=
| AtCheck        (* line 174: about to evaluate [queue.empty()] *)
| AtGet          (* line 175: about to call the blocking [queue.get()] *)
| AtDrainCheck   (* line 192: about to evaluate [queue.empty()] *)
| AtDrainGet     (* line 193: about to call [queue.get_nowait()] *)
| Finished       (* thread_manager returned *)
| Crashed (e : exn). (* an exception left thread_manager *)

Definition terminated (c : pc) : bool :=
  match c with Finished | Crashed _ => true | _ => false end.

Record Pool := {
  world : W;
  trace : list event;
  queue : Queue;
  threads : list pc;
  joined : nat;     (* line 218: threads already joined by [run] *)
  run_raised : option exn (* the exception that left [run], if any *)
}.

Inductive actor : Type :=
| Main
| Worker (i : nat).

Fixpoint update {A} (i : nat) (x : A) (l : list A) : list A :=
  match l, i with
  | [], _ => []
  | _ :: l', O => x :: l'
  | y :: l', S i' => y :: update i' x l'
  end.

Definition set_pc (i : nat) (c : pc) (p : Pool) : Pool :=
  {| world := world p; trace := trace p; queue := queue p;
     threads := update i c (threads p); joined := joined p;
     run_raised := run_raised p |}.

Definition step_worker (i : nat) (p : Pool) : option Pool :=
  match nth_error (threads p) i with
  | Some AtCheck =>
      Some (set_pc i (if empty (queue p) then Finished else AtGet) p)
  | Some AtGet =>
      match items (queue p) with
      | [] => None                      (* queue.get() blocks *)
      | a :: rest =>
          match after_get a (unfinished_tasks (queue p)) (world p) with
          | (w1, t1, unfinished', r) =>
              Some {| world := w1; trace := trace p ++ t1;
                      queue := {| items := rest;
                                  unfinished_tasks := unfinished' |};
                      threads :=
                        update i
                          match r with
                          | Raise e => Crashed e
                          | Ok true => AtDrainCheck
                          | Ok false => AtCheck
                          end (threads p);
                      joined := joined p;
                      run_raised := run_raised p |}
          end
      end
  | Some AtDrainCheck =>
      Some (set_pc i (if empty (queue p) then Finished else AtDrainGet) p)
  | Some AtDrainGet =>
      match items (queue p) with
      | [] => Some (set_pc i (Crashed QueueEmpty) p)
      | a :: rest =>
          match task_done (unfinished_tasks (queue p)) with
          | Raise e =>
              Some {| world := world p;
                      trace := trace p ++ [EGetNowait a; ETaskDone];
                      queue := {| items := rest;
                                  unfinished_tasks :=
                                    unfinished_tasks (queue p) |};
                      threads := update i (Crashed e) (threads p);
                      joined := joined p;
                      run_raised := run_raised p |}
          | Ok unfinished' =>
              Some {| world := world p;
                      trace := trace p ++ [EGetNowait a; ETaskDone];
                      queue := {| items := rest;
                                  unfinished_tasks := unfinished' |};
                      threads := update i AtDrainCheck (threads p);
                      joined := joined p;
                      run_raised := run_raised p |}
          end
      end
  | Some Finished | Some (Crashed _) | None => None
  end.

(** [t.join()] for the next thread of the list: returns once that thread
    has ended, normally or not.  Nothing is joined when [run] was left by
    an exception. *)
Definition step_main (p : Pool) : option Pool :=
  match run_raised p with
  | Some _ => None
  | None =>
      match nth_error (threads p) (joined p) with
      | Some c =>
          if terminated c then
            Some {| world := world p; trace := trace p; queue := queue p;
                    threads := threads p; joined := S (joined p);
                    run_raised := None |}
          else None
      | None => None
      end
  end.

Definition step (a : actor) (p : Pool) : option Pool :=
  match a with
  | Main => step_main p
  | Worker i => step_worker i p
  end.

(** A schedule is the order in which the actors take their steps. *)
Fixpoint exec (sched : list actor) (p : Pool) : option Pool :=
  match sched with
  | [] => Some p
  | a :: sched' =>
      match step a p with
      | Some p' => exec sched' p'
      | None => None
      end
  end.

(** [run] has returned when every thread of the list has been joined; it
    does not return when an exception left it. *)
Definition returned (p : Pool) : bool :=
  match run_raised p with
  | Some _ => false
  | None => (joined p =? length (threads p))%nat
  end.

(** [run] up to the first [join]: the reset, the seeding of the queue and
    the start of the threads.  A thread that has been started and has not
    run yet is a thread at [AtCheck]. *)
Definition run (num_actions : Z) (w : W) : Pool :=
  match clean_up w with
  | (w1, t1, Ok _) =>
      {| world := w1; trace := t1;
         queue := fold_left put (range num_actions) new_queue;
         threads := map (fun _ => AtCheck)
                        (range (Z.min num_actions (max_threads self)));
         joined := 0;
         run_raised := None |}
  | (w1, t1, Raise e) =>
      (* line 206 raised: no queue is filled and no thread is started *)
      {| world := w1; trace := t1;
         queue := new_queue;
         threads := [];
         joined := 0;
         run_raised := Some e |}
  end.

(** The pool after thread [i] of [p] has run to its end on its own, leaving
    the world [w], having emitted [t], with the queue [q] and the exit [x]. *)
Definition pc_of_exit (x : exit) : pc :=
  match x with Returned => Finished | Raised e => Crashed e end.

Definition ended (p : Pool) (i : nat) (w : W)
    (d : list event * Queue * exit) : Pool :=
  match d with
  | (t, q, x) =>
      {| world := w; trace := trace p ++ t; queue := q;
         threads := update i (pc_of_exit x) (threads p);
         joined := joined p;
         run_raised := run_raised p |}
  end.

End Worker.

End World.

(** ** Small concrete worlds, to run the definitions on

    The world is the number of outside calls that changed it so far; ports
    in [open_ports] accept connections. *)

Definition sim_env (open_ports : list Z) (newnym : res unit) : Env nat unit :=
  {| port_open := fun _ port => existsb (Z.eqb port) open_ports;
     data_dir_exists := fun _ => false;
     os_call := fun _ w => S w;
     killall_tor := fun w => (S w, Ok tt);
     rmtree := fun w => (S w, Ok tt);
     tor_launch := fun _ _ _ w => (S w, Ok tt);
     webdriver_Chrome := fun _ _ w => (S w, Ok tt);
     driver_quit := fun _ w => (S w, Ok tt);
     tor_newnym := fun _ w => (S w, newnym) |}.

(** The same on a system where [killall] is not installed. *)
Definition sim_env_no_killall : Env nat unit :=
  {| port_open := fun _ _ => false;
     data_dir_exists := fun _ => false;
     os_call := fun _ w => S w;
     killall_tor := fun w => (w, Raise (OtherException "FileNotFoundError"));
     rmtree := fun w => (S w, Ok tt);
     tor_launch := fun _ _ _ w => (S w, Ok tt);
     webdriver_Chrome := fun _ _ w => (S w, Ok tt);
     driver_quit := fun _ w => (S w, Ok tt);
     tor_newnym := fun _ w => (S w, Ok tt) |}.

Definition always_raises : UserFn nat unit :=
  fun _ _ _ w => (S w, Raise (OtherException "WebDriverException")).

Definition always_succeeds : UserFn nat unit :=
  fun _ _ _ w => (S w, Ok tt).

Definition stop_now : StopFn nat := fun w => (w, Ok true).

Definition torsel_with (total threads base control : Z) : Torsel :=
  {| total_instances := total; max_threads := threads;
     tor_base_port := base; tor_control_base_port := control;
     tor_path := "/usr/bin/tor"; tor_data_dir := "/tmp/tor_profiles";
     headless := true; verbose := false |}.

(** ** Vocabulary of the properties *)

(** The events of draining the items [l]. *)
Definition drain_events (l : list Z) : list event :=
  flat_map (fun x => [EGetNowait x; ETaskDone]) l.

(** Events that one attempt on action [a] with instance [i] may emit. *)
Definition attempt_event (a i : Z) (e : event) : bool :=
  match e with
  | EExecute b j | EUserCall b j => (b =? a) && (j =? i)
  | ERotate j => j =? i
  | EChrome _ _ | EQuit | EProbe _ | ENewnym _ | ESys _ => true
  | _ => false
  end.

(** Events that the body of the loop may emit for action [a] after the
    dequeue and the creation of the instance. *)
Definition body_event (total a : Z) (e : event) : bool :=
  match e with
  | ECreate _ | EGet _ | EGetNowait _ | EDirExists => false
  | EExecute b j | EUserCall b j => (b =? a) && (j =? a mod total)
  | _ => true
  end.

(** Events of the environment reset. *)
Definition reset_event (e : event) : bool :=
  match e with
  | ESys _ | EProbe _ | EDirExists => true
  | _ => false
  end.

(** Events that processing action [a] on instance [i] may emit between the
    dequeue and the mark-done: they name no other action, no other instance
    and no port of another instance, and no process is killed. *)
Definition action_event (self : Torsel) (a i : Z) (e : event) : bool :=
  match e with
  | ECreate j | ERotate j => j =? i
  | ELaunchTor j s c =>
      (j =? i) && (s =? socks_port self i) && (c =? control_port self i)
  | ESys (Sleep _) => true
  | EExecute b j | EUserCall b j => (b =? a) && (j =? i)
  | EChrome h s => Bool.eqb h (headless self) && (s =? socks_port self i)
  | EQuit => true
  | EProbe p | ENewnym p => p =? control_port self i
  | _ => false
  end.

(** Events of one pass of the worker loop for action [a]. *)
Definition pass_event (self : Torsel) (a : Z) (e : event) : bool :=
  match e with
  | EGet b => b =? a
  | ETaskDone | EStopCheck => true
  | _ => action_event self a (a mod total_instances self) e
  end.

(** The actions a trace takes from the queue, in order. *)
Definition dequeued (tr : list event) : list Z :=
  flat_map (fun e => match e with
                     | EGet a | EGetNowait a => [a]
                     | _ => []
                     end) tr.

(** Every [execute_function] of the trace runs on an instance that is in
    [created] or was created earlier in the trace. *)
Fixpoint created_before_use (created : list Z) (tr : list event) : bool :=
  match tr with
  | [] => true
  | ECreate i :: tr' => created_before_use (i :: created) tr'
  | EExecute _ i :: tr' =>
      existsb (Z.eqb i) created && created_before_use created tr'
  | _ :: tr' => created_before_use created tr'
  end.

(** How many steps a thread at [c] can still take without a dequeue, plus
    one. *)
Definition rank (c : pc) : nat :=
  match c with
  | AtCheck | AtDrainCheck => 3
  | AtGet | AtDrainGet => 2
  | Finished | Crashed _ => 0
  end.

(** [execute_function] calls for action [a]. *)
Definition is_execute_of (a : Z) (e : event) : bool :=
  match e with EExecute b _ => b =? a | _ => false end.

(** A thread that is in the drain loop of lines 192-194. *)
Definition draining (c : pc) : bool :=
  match c with AtDrainCheck | AtDrainGet => true | _ => false end.

Section Vocabulary.

Context {W Driver : Type}.
Variable env : Env W Driver.
Variable self : Torsel.
Variable user_function : UserFn W Driver.
Variable check_stop_func : option (StopFn W).
Variable num_actions : Z.

(** A user function that raises an [Exception] whenever it is invoked. *)
Definition raises_always (uf : UserFn W Driver) : Prop :=
  forall d a i w, exists e,
    snd (uf d a i w) = Raise e /\ is_Exception e = true.

(** Building a session returns or raises an [Exception]. *)
Definition chrome_no_base_exception : Prop :=
  forall h p w e,
    snd (webdriver_Chrome env h p w) = Raise e -> is_Exception e = true.

(** The control channel never raises. *)
Definition newnym_never_raises : Prop :=
  forall p w, snd (tor_newnym env p w) = Ok tt.

(** What one step of a worker does to the pool. *)
Inductive worker_step (i : nat) (p p' : @Pool W) : Prop :=
| WS_check (c c' : pc) :
    nth_error (threads p) i = Some c -> terminated c = false ->
    threads p' = update i c' (threads p) ->
    world p' = world p -> trace p' = trace p -> queue p' = queue p ->
    joined p' = joined p ->
    worker_step i p p'
| WS_get (a : Z) (rest : list Z) (w1 : W) (t1 : list event) (u1 : nat)
         (r : res bool) (c' : pc) :
    nth_error (threads p) i = Some AtGet ->
    items (queue p) = a :: rest ->
    after_get env self user_function check_stop_func a
              (unfinished_tasks (queue p)) (world p) = (w1, t1, u1, r) ->
    threads p' = update i c' (threads p) ->
    world p' = w1 -> trace p' = trace p ++ t1 ->
    queue p' = {| items := rest; unfinished_tasks := u1 |} ->
    joined p' = joined p ->
    worker_step i p p'
| WS_drain (a : Z) (rest : list Z) (c' : pc) :
    nth_error (threads p) i = Some AtDrainGet ->
    items (queue p) = a :: rest ->
    threads p' = update i c' (threads p) ->
    world p' = world p ->
    trace p' = trace p ++ [EGetNowait a; ETaskDone] ->
    items (queue p') = rest ->
    joined p' = joined p ->
    worker_step i p p'.

(** The threads that [run] has joined have ended. *)
Definition joined_ended (p : @Pool W) : Prop :=
  (joined p <= length (threads p))%nat
  /\ forall k, (k < joined p)%nat ->
       exists c, nth_error (threads p) k = Some c /\ terminated c = true.

(** What every reachable pool satisfies: each action of the run has been
    taken by [get], or by [get_nowait], or is still queued; instance [i] has
    been created as often as action [i] has been taken by [get], and only
    for [i] below [total_instances]; every execution is of an action of the
    run, on the instance [action % total_instances]. *)
Definition lazy_inv (p : @Pool W) : Prop :=
  (forall a,
      (count (is_get a) (trace p) + count (is_get_nowait a) (trace p)
       + count_occ Z.eq_dec (items (queue p)) a)%nat
      = count_occ Z.eq_dec (range num_actions) a)
  /\ (forall i,
         count (is_create i) (trace p)
         = if (0 <=? i) && (i <? total_instances self)
           then count (is_get i) (trace p) else 0%nat)
  /\ (forall b j,
         In (EExecute b j) (trace p) \/ In (EUserCall b j) (trace p) ->
         0 <= b < num_actions /\ j = b mod total_instances self).

(** A bound on the number of steps the pool can still take. *)
Definition measure (p : @Pool W) : nat :=
  2 * length (items (queue p)) + list_sum (map rank (threads p))
  + (length (threads p) - joined p).

(** The queue of a pool started by [run]: the actions taken so far, in the
    order of the trace, followed by the pending ones, are 0 .. num_actions-1;
    the count of unfinished tasks covers the pending items, and together
    with the [task_done] calls made so far it is the number of actions. *)
Definition queue_inv (p : @Pool W) : Prop :=
  dequeued (trace p) ++ items (queue p) = range num_actions
  /\ (length (items (queue p)) <= unfinished_tasks (queue p))%nat
  /\ (count is_task_done (trace p) + unfinished_tasks (queue p))%nat
     = Z.to_nat num_actions
  /\ (count is_task_done (trace p) <= length (dequeued (trace p)))%nat.

(** A pool of one worker: a thread about to dequeue has seen an item that
    is still there, and [run] joins the thread only after it has ended. *)
Definition sole_inv (p : @Pool W) : Prop :=
  exists c,
    threads p = [c]
    /\ (joined p <= 1)%nat
    /\ (c = AtGet \/ c = AtDrainGet -> items (queue p) <> [])
    /\ (joined p = 1%nat -> terminated c = true).

(** No thread is in the drain loop and nothing was taken by [get_nowait]. *)
Definition no_drain (p : @Pool W) : Prop :=
  count is_any_get_nowait (trace p) = 0%nat
  /\ Forall (fun c => draining c = false) (threads p).

(** Attempts per action, over the whole pool. *)
Definition attempts_inv (p : @Pool W) : Prop :=
  forall a,
    (count (is_execute_of a) (trace p) <= 5)%nat
    /\ (In a (items (queue p)) -> count (is_execute_of a) (trace p) = 0%nat).

End Vocabulary.

(** * Properties *)

(** ** Counting events *)

Lemma count_app (p : event -> bool) (t1 t2 : list event) :
  count p (t1 ++ t2) = (count p t1 + count p t2)%nat.
Proof.
  unfold count. rewrite filter_app. apply length_app.
Qed.

Lemma count_cons (p : event -> bool) (e : event) (t : list event) :
  count p (e :: t) = ((if p e then 1 else 0) + count p t)%nat.
Proof.
  unfold count. simpl. destruct (p e); reflexivity.
Qed.

Lemma count_nil (p : event -> bool) : count p [] = 0%nat.
Proof. reflexivity. Qed.

Lemma count_zero_not_in (p : event -> bool) (t : list event) :
  count p t = 0%nat <-> (forall e, In e t -> p e = false).
Proof.
  unfold count. induction t as [|x t IH]; simpl.
  - split; [intros _ e [] | reflexivity].
  - destruct (p x) eqn:Hx; simpl.
    + split; [discriminate|]. intros H. specialize (H x (or_introl eq_refl)).
      congruence.
    + rewrite IH. split.
      * intros H e [<-|Hin]; auto.
      * intros H e Hin. apply H. now right.
Qed.

Ltac count_simpl :=
  repeat (rewrite ?count_app, ?count_cons, ?count_nil; simpl).

(** ** Python ranges *)

Lemma range_In (n x : Z) : In x (range n) <-> 0 <= x < n.
Proof.
  unfold range. rewrite in_map_iff. split.
  - intros (k & <- & Hk). apply in_seq in Hk. lia.
  - intros H. exists (Z.to_nat x). split; [lia|]. apply in_seq. lia.
Qed.

Lemma range_length (n : Z) : length (range n) = Z.to_nat n.
Proof. unfold range. now rewrite length_map, length_seq. Qed.

Lemma range_NoDup (n : Z) : NoDup (range n).
Proof.
  unfold range. apply Injective_map_NoDup.
  - intros a b H. lia.
  - apply seq_NoDup.
Qed.

(** The range that [clean_up] iterates over holds one port per instance. *)
Lemma clean_up_range (self : Torsel) :
  range3 (tor_base_port self)
         (tor_base_port self + total_instances self * 10) 10
  = map (fun i => tor_base_port self + i * 10) (range (total_instances self)).
Proof.
  unfold range3, range. rewrite map_map.
  replace ((tor_base_port self + total_instances self * 10
            - tor_base_port self + 10 - 1) / 10)
    with (total_instances self).
  - apply map_ext. intros k. lia.
  - apply Z.div_unique with (r := 9); lia.
Qed.

(** ** Ports *)

Lemma socks_port_inj (self : Torsel) (i j : Z) :
  socks_port self i = socks_port self j -> i = j.
Proof. unfold socks_port. lia. Qed.

Lemma control_port_inj (self : Torsel) (i j : Z) :
  control_port self i = control_port self j -> i = j.
Proof. unfold control_port. lia. Qed.

Lemma socks_control_collision (self : Torsel) (i j : Z) :
  socks_port self i = control_port self j
  <-> tor_control_base_port self - tor_base_port self = 10 * (i - j).
Proof. unfold socks_port, control_port. lia. Qed.

(** C8, as amended.  Within one pool the SOCKS ports are pairwise distinct
    and the control ports are pairwise distinct.  A SOCKS port and a control
    port of the pool differ whenever the distance between the two base ports
    is not a multiple of the stride 10, or is at least 10 * total_instances
    (the defaults 9050 and 9151 are 101 apart). *)
Theorem port_uniqueness (self : Torsel) (i j : Z) :
  0 <= i < total_instances self ->
  0 <= j < total_instances self ->
  (i <> j ->
   socks_port self i <> socks_port self j
   /\ control_port self i <> control_port self j)
  /\ ((tor_control_base_port self - tor_base_port self) mod 10 <> 0
      \/ 10 * total_instances self
         <= Z.abs (tor_control_base_port self - tor_base_port self) ->
      socks_port self i <> control_port self j).
Proof.
  intros Hi Hj. split.
  - intros Hne. split; intros H.
    + exact (Hne (socks_port_inj self i j H)).
    + exact (Hne (control_port_inj self i j H)).
  - intros Hfar H. apply socks_control_collision in H.
    destruct Hfar as [Hmod | Hfar].
    + apply Hmod. rewrite H. rewrite Z.mul_comm. apply Z.mod_mul; lia.
    + lia.
Qed.

Lemma port_uniqueness_witness :
  (socks_port default_torsel 0 <> socks_port default_torsel 1
   /\ control_port default_torsel 0 <> control_port default_torsel 1)
  /\ socks_port default_torsel 0 <> control_port default_torsel 1.
Proof.
  destruct (port_uniqueness default_torsel 0 1) as [H1 H2];
    [simpl; lia | simpl; lia |].
  split.
  - apply H1. lia.
  - apply H2. left. vm_compute. discriminate.
Defined.

(** C8 as stated fails: with base ports 9050 and 9060 and two instances, the
    SOCKS port of instance 1 is the control port of instance 0. *)
Lemma port_collision_counterexample :
  let self := torsel_with 2 5 9050 9060 in
  ~ (forall i j,
        0 <= i < total_instances self -> 0 <= j < total_instances self ->
        socks_port self i <> control_port self j).
Proof.
  intros self H. apply (H 1 0); simpl; try lia. reflexivity.
Qed.

(** ** Environment reset *)

Section Reset.

Context {W Driver : Type}.
Variable env : Env W Driver.
Variable self : Torsel.

Lemma probes_app t1 t2 : probes (t1 ++ t2) = probes t1 ++ probes t2.
Proof. apply flat_map_app. Qed.

Lemma kills_app t1 t2 : kills (t1 ++ t2) = kills t1 ++ kills t2.
Proof. apply flat_map_app. Qed.

(** One pass of the loop body: it probes [port], then the port 101 above
    it, and stops at the first of the two that is not a port number. *)
Lemma clean_up_port_spec (port : Z) (w : W) :
  exists w1 t1 r,
    clean_up_port env port w = (w1, t1, r)
    /\ (exists rest, probes t1 ++ rest = [port; port + 101])
    /\ (forall p, In p (kills t1) -> p = port \/ p = port + 101)
    /\ (r = Ok tt -> probes t1 = [port; port + 101])
    /\ Forall (fun e => reset_event e = true) t1
    /\ (valid_port port = true -> valid_port (port + 101) = true ->
        r = Ok tt)
    /\ (r = Ok tt \/ r = Raise OverflowError).
Proof.
  unfold clean_up_port, bind, is_port_open, sys, ret.
  destruct (valid_port port) eqn:Hv1.
  - destruct (port_open env w port).
    + destruct (valid_port (port + 101)) eqn:Hv2.
      * destruct (port_open env (os_call env (FuserKill port) w)
                            (port + 101));
          do 3 eexists; (split; [reflexivity|]); simpl;
          (split; [exists []; reflexivity|]);
          (split; [intros p Hp; simpl in Hp; intuition|]);
          (split; [reflexivity|]); (split; [repeat constructor|]); auto.
      * do 3 eexists. split; [reflexivity|]. simpl.
        split; [eexists; reflexivity|].
        split; [intros p Hp; simpl in Hp; intuition|].
        split; [discriminate|]. split; [repeat constructor|].
        split; [discriminate | auto].
    + destruct (valid_port (port + 101)) eqn:Hv2.
      * destruct (port_open env w (port + 101));
          do 3 eexists; (split; [reflexivity|]); simpl;
          (split; [exists []; reflexivity|]);
          (split; [intros p Hp; simpl in Hp; intuition|]);
          (split; [reflexivity|]); (split; [repeat constructor|]); auto.
      * do 3 eexists. split; [reflexivity|]. simpl.
        split; [eexists; reflexivity|].
        split; [intros p Hp; simpl in Hp; intuition|].
        split; [discriminate|]. split; [repeat constructor|].
        split; [discriminate | auto].
  - do 3 eexists. split; [reflexivity|]. simpl.
    split; [eexists; reflexivity|].
    split; [intros p []|].
    split; [discriminate|]. split; [constructor|].
    split; [discriminate | auto].
Qed.

Lemma for_each_clean_up_port (l : list Z) (w : W) :
  exists w1 t1 r,
    for_each l (clean_up_port env) w = (w1, t1, r)
    /\ (exists rest,
           probes t1 ++ rest = flat_map (fun port => [port; port + 101]) l)
    /\ (forall p, In p (kills t1) ->
                  exists port, In port l /\ (p = port \/ p = port + 101))
    /\ (r = Ok tt ->
        probes t1 = flat_map (fun port => [port; port + 101]) l)
    /\ Forall (fun e => reset_event e = true) t1
    /\ (Forall (fun port => valid_port port = true
                            /\ valid_port (port + 101) = true) l ->
        r = Ok tt)
    /\ (r = Ok tt \/ r = Raise OverflowError).
Proof.
  revert w. induction l as [|port l IH]; intros w; simpl.
  - exists w, [], (Ok tt). repeat split; auto.
    + exists []. reflexivity.
    + intros p [].
  - unfold bind.
    destruct (clean_up_port_spec port w)
      as (w1 & t1 & r1 & -> & (rest1 & Hpre1) & Hk1 & Hp1 & He1 & Hv1 & Hr1).
    destruct r1 as [[]|e1].
    + specialize (Hp1 eq_refl).
      destruct (IH w1)
        as (w2 & t2 & r2 & -> & (rest2 & Hpre2) & Hk2 & Hp2 & He2 & Hv2 & Hr2).
      exists w2, (t1 ++ t2), r2. split; [reflexivity|].
      split; [|split; [|split; [|split; [|split]]]].
      * exists rest2. rewrite probes_app, Hp1, <- Hpre2.
        now rewrite <- app_assoc.
      * intros p Hp. rewrite kills_app in Hp. apply in_app_or in Hp.
        destruct Hp as [Hp|Hp].
        -- exists port. split; [now left | now apply Hk1].
        -- destruct (Hk2 p Hp) as (q & Hq & Hpq). exists q. split; auto.
      * intros Hr. rewrite probes_app, Hp1, (Hp2 Hr). reflexivity.
      * apply Forall_app. split; assumption.
      * intros HF. inversion HF; subst. now apply Hv2.
      * exact Hr2.
    + exists w1, t1, (Raise e1). split; [reflexivity|].
      split; [|split; [|split; [|split; [|split]]]].
      * exists (rest1 ++ flat_map (fun port0 => [port0; port0 + 101]) l).
        rewrite app_assoc, Hpre1. reflexivity.
      * intros p Hp. exists port. split; [now left | now apply Hk1].
      * discriminate.
      * exact He1.
      * intros HF. inversion HF as [|? ? [Ha Hb] _]; subst.
        exact (Hv1 Ha Hb).
      * exact Hr1.
Qed.

(** Every run of [clean_up], whether it returns or raises, is: events that
    probe and free nothing, then the events of the loop over the ports (or
    of the part of it that was run), then again events that probe and free
    nothing.  When it returns, the first part is [killall] and the pause of
    one second, and the last part is the test for the data directory, its
    removal if it exists, and the pause of three seconds. *)
Lemma clean_up_decompose (w : W) :
  exists w1 t r pre tloop post wl wl' rl,
    clean_up env self w = (w1, t, r)
    /\ t = pre ++ tloop ++ post
    /\ (pre = [ESys KillallTor] \/ pre = [ESys KillallTor; ESys (Sleep 1)])
    /\ (post = [] \/ post = [EDirExists; ESys (Sleep 3)]
        \/ post = [EDirExists; ESys Rmtree]
        \/ post = [EDirExists; ESys Rmtree; ESys (Sleep 3)])
    /\ (tloop = []
        \/ for_each (map (fun i => tor_base_port self + i * 10)
                         (range (total_instances self)))
                    (clean_up_port env) wl = (wl', tloop, rl))
    /\ (r = Ok tt ->
        pre = [ESys KillallTor; ESys (Sleep 1)]
        /\ for_each (map (fun i => tor_base_port self + i * 10)
                         (range (total_instances self)))
                    (clean_up_port env) wl = (wl', tloop, Ok tt)
        /\ (post = [EDirExists; ESys (Sleep 3)]
            \/ post = [EDirExists; ESys Rmtree; ESys (Sleep 3)]))
    /\ (snd (killall_tor env w) = Ok tt ->
        (forall w', snd (rmtree env w') = Ok tt) ->
        for_each (map (fun i => tor_base_port self + i * 10)
                      (range (total_instances self)))
                 (clean_up_port env) wl = (wl', tloop, rl)
        /\ (rl = Ok tt -> r = Ok tt)).
Proof.
  unfold clean_up. rewrite clean_up_range.
  unfold bind at 1. unfold sys at 1. unfold call.
  destruct (killall_tor env w) as [w0 [[]|e]] eqn:Hkill.
  2: { exists w0, [ESys KillallTor], (Raise e), [ESys KillallTor], [], [],
         w, w, (Ok tt).
       split; [reflexivity|]. split; [reflexivity|].
       split; [now left|]. split; [now left|]. split; [now left|].
       split; [discriminate|]. simpl. discriminate. }
  unfold bind at 1. unfold sys at 1. unfold bind at 1.
  destruct (for_each (map (fun i => tor_base_port self + i * 10)
                          (range (total_instances self)))
                     (clean_up_port env) (os_call env (Sleep 1) w0))
    as [[w1 t1] [[]|e]] eqn:Hf.
  2: { exists w1, (ESys KillallTor :: ESys (Sleep 1) :: t1), (Raise e),
         [ESys KillallTor; ESys (Sleep 1)], t1, [],
         (os_call env (Sleep 1) w0), w1, (Raise e).
       split; [reflexivity|].
       split; [simpl; now rewrite app_nil_r|].
       split; [now right|]. split; [now left|]. split; [now right|].
       split; [discriminate|]. intros _ _. split; [exact Hf | discriminate]. }
  unfold bind, sys, call, ret.
  destruct (data_dir_exists env w1) eqn:Hd.
  - destruct (rmtree env w1) as [w3 [[]|e]] eqn:Hrm.
    + exists (os_call env (Sleep 3) w3),
        (ESys KillallTor :: ESys (Sleep 1)
           :: t1 ++ [EDirExists; ESys Rmtree; ESys (Sleep 3)]),
        (Ok tt), [ESys KillallTor; ESys (Sleep 1)], t1,
        [EDirExists; ESys Rmtree; ESys (Sleep 3)],
        (os_call env (Sleep 1) w0), w1, (Ok tt).
      split; [reflexivity|]. split; [reflexivity|].
      split; [now right|]. split; [now do 3 right|]. split; [now right|].
      split; [intros _; split; [reflexivity|]; split; [exact Hf | now right]|].
      intros _ _. split; [exact Hf | reflexivity].
    + exists w3,
        (ESys KillallTor :: ESys (Sleep 1) :: t1 ++ [EDirExists; ESys Rmtree]),
        (Raise e), [ESys KillallTor; ESys (Sleep 1)], t1,
        [EDirExists; ESys Rmtree],
        (os_call env (Sleep 1) w0), w1, (Ok tt).
      split; [reflexivity|]. split; [reflexivity|].
      split; [now right|]. split; [right; right; now left|].
      split; [now right|]. split; [discriminate|].
      intros _ Hrm'. specialize (Hrm' w1). rewrite Hrm in Hrm'.
      discriminate Hrm'.
  - exists (os_call env (Sleep 3) w1),
      (ESys KillallTor :: ESys (Sleep 1) :: t1 ++ [EDirExists; ESys (Sleep 3)]),
      (Ok tt), [ESys KillallTor; ESys (Sleep 1)], t1,
      [EDirExists; ESys (Sleep 3)],
      (os_call env (Sleep 1) w0), w1, (Ok tt).
    split; [reflexivity|]. split; [reflexivity|].
    split; [now right|]. split; [right; now left|]. split; [now right|].
    split; [intros _; split; [reflexivity|]; split; [exact Hf | now left]|].
    intros _ _. split; [exact Hf | reflexivity].
Qed.

Lemma clean_up_ends_probes (pre post : list event) :
  (pre = [ESys KillallTor] \/ pre = [ESys KillallTor; ESys (Sleep 1)]) ->
  (post = [] \/ post = [EDirExists; ESys (Sleep 3)]
   \/ post = [EDirExists; ESys Rmtree]
   \/ post = [EDirExists; ESys Rmtree; ESys (Sleep 3)]) ->
  probes pre = [] /\ kills pre = [] /\ probes post = [] /\ kills post = []
  /\ Forall (fun e => reset_event e = true) pre
  /\ Forall (fun e => reset_event e = true) post.
Proof.
  intros [-> | ->] [-> | [-> | [-> | ->]]]; repeat split;
    repeat constructor.
Qed.

(** What [clean_up] probes and may free: it goes through the instances in
    index order and probes the instance's SOCKS port and the port 101 above
    it.  It stops at the first call that raises, so the ports probed are a
    prefix of that list, and the whole list when [clean_up] returns. *)
Lemma clean_up_spec (w : W) :
  exists w1 t1 r,
    clean_up env self w = (w1, t1, r)
    /\ (exists rest,
           probes t1 ++ rest
           = flat_map (fun i => [socks_port self i; socks_port self i + 101])
                      (range (total_instances self)))
    /\ (forall p, In p (kills t1) ->
          exists i, 0 <= i < total_instances self
                    /\ (p = socks_port self i \/ p = socks_port self i + 101))
    /\ (r = Ok tt ->
        probes t1
        = flat_map (fun i => [socks_port self i; socks_port self i + 101])
                   (range (total_instances self)))
    /\ Forall (fun e => reset_event e = true) t1.
Proof.
  destruct (clean_up_decompose w)
    as (w1 & t & r & pre & tloop & post & wl & wl' & rl
        & Hc & -> & Hpre & Hpost & Hloop & Hok & _).
  destruct (clean_up_ends_probes pre post Hpre Hpost)
    as (Hp1 & Hk1 & Hp2 & Hk2 & He1 & He2).
  assert (Hmap : flat_map (fun port => [port; port + 101])
                   (map (fun i => tor_base_port self + i * 10)
                        (range (total_instances self)))
                 = flat_map
                     (fun i => [socks_port self i; socks_port self i + 101])
                     (range (total_instances self))).
  { rewrite flat_map_concat_map, map_map, <- flat_map_concat_map.
    reflexivity. }
  destruct (for_each_clean_up_port
              (map (fun i => tor_base_port self + i * 10)
                   (range (total_instances self))) wl)
    as (w2 & t2 & r2 & Hf & (rest & Hprefix) & Hkills & Hfull & Hev & _).
  exists w1, (pre ++ tloop ++ post), r. split; [exact Hc|].
  rewrite !probes_app, !kills_app, Hp1, Hk1, Hp2, Hk2, !app_nil_r. simpl.
  assert (Hcase : tloop = [] \/ (tloop = t2 /\ rl = r2)).
  { destruct Hloop as [Hl|Hl]; [now left | right].
    rewrite Hf in Hl. injection Hl as _ <- <-. auto. }
  split; [|split; [|split]].
  - destruct Hcase as [-> | [-> _]].
    + eexists. simpl. reflexivity.
    + exists rest. now rewrite <- Hmap.
  - intros p Hp. destruct Hcase as [-> | [-> _]]; [destruct Hp|].
    destruct (Hkills p Hp) as (q & Hq & Hpq).
    apply in_map_iff in Hq. destruct Hq as (i & <- & Hi).
    exists i. split; [now apply range_In | exact Hpq].
  - intros Hr. destruct (Hok Hr) as (_ & Hf' & _).
    rewrite Hf in Hf'. injection Hf' as _ Ht Hr2.
    rewrite <- Ht, <- Hmap. now apply Hfull.
  - apply Forall_app. split; [exact He1|]. apply Forall_app.
    split; [|exact He2].
    destruct Hcase as [-> | [-> _]]; [constructor | exact Hev].
Qed.

End Reset.

(** C4 at a configuration whose control base is not 101 above the SOCKS
    base: one instance, SOCKS base 9050, control base 9200, and a stale
    process listening on 9200.  [clean_up] probes 9050 and 9151; the
    instance's control port 9200, the one [create_tor_instance] writes to the
    torrc, is neither probed nor freed. *)
Theorem clean_up_misses_control_port :
  let self := torsel_with 1 5 9050 9200 in
  let env := sim_env [9200] (Ok tt) in
  control_port self 0 = 9200
  /\ port_open env 0%nat 9200 = true
  /\ snd (fst (clean_up env self 0%nat))
     = [ESys KillallTor; ESys (Sleep 1); EProbe 9050; EProbe 9151;
        EDirExists; ESys (Sleep 3)]
  /\ ~ In (control_port self 0) (probes (snd (fst (clean_up env self 0%nat))))
  /\ ~ In (control_port self 0) (kills (snd (fst (clean_up env self 0%nat)))).
Proof.
  vm_compute. repeat split; try reflexivity; intuition discriminate.
Qed.

(** ** Task executor and retry loop *)

Section Retry.

Context {W Driver : Type}.
Variable env : Env W Driver.
Variable self : Torsel.

Local Abbreviation chrome_no_base_exception := (chrome_no_base_exception env).
Local Abbreviation newnym_never_raises := (newnym_never_raises env).

Lemma execute_function_user_raises (uf : UserFn W Driver) (a i : Z) (w : W) :
  raises_always uf -> chrome_no_base_exception ->
  exists w1 t1 e,
    execute_function env self a i uf w = (w1, t1, Raise e)
    /\ is_Exception e = true
    /\ count is_execute t1 = 1%nat
    /\ count is_rotate t1 = 0%nat
    /\ count is_quit t1 = 0%nat.
Proof.
  intros Huf Hch.
  unfold execute_function, configure_selenium_with_tor, bind, emit, call.
  destruct (webdriver_Chrome env (headless self) (socks_port self i) w)
    as [w1 [d|e]] eqn:Hc.
  - destruct (Huf d a i w1) as (e & He & Hex).
    destruct (uf d a i w1) as [w2 r]. simpl in He. subst r.
    exists w2, [EExecute a i; EChrome (headless self) (socks_port self i);
                EUserCall a i], e.
    repeat split; auto.
  - exists w1, [EExecute a i; EChrome (headless self) (socks_port self i)], e.
    repeat split; auto.
    apply (Hch (headless self) (socks_port self i) w). now rewrite Hc.
Qed.

Lemma rotate_tor_ip_returns (i : Z) (w : W) :
  valid_port (control_port self i) = true ->
  newnym_never_raises ->
  exists w1 t1,
    rotate_tor_ip env self i w = (w1, ERotate i :: t1, Ok tt)
    /\ count is_rotate t1 = 0%nat
    /\ count is_execute t1 = 0%nat.
Proof.
  intros Hv Hn.
  unfold rotate_tor_ip, bind, emit, is_port_open, call, sys, ret.
  unfold control_port in Hv. rewrite Hv.
  destruct (port_open env w (tor_control_base_port self + i * 10)).
  - specialize (Hn (tor_control_base_port self + i * 10) w).
    destruct (tor_newnym env (tor_control_base_port self + i * 10) w)
      as [w1 r]. simpl in Hn. subst r.
    do 2 eexists. split; [reflexivity|]. split; reflexivity.
  - do 2 eexists. split; [reflexivity|]. split; reflexivity.
Qed.

(** With [n] attempts left and every attempt failing: [n] attempts, [n]
    rotations, and a rotation after the last attempt. *)
Lemma retry_loop_all_fail (uf : UserFn W Driver) (n : nat) (a i : Z) (w : W) :
  raises_always uf -> chrome_no_base_exception -> newnym_never_raises ->
  valid_port (control_port self i) = true ->
  exists w1 t1,
    retry_loop env self n a i uf w = (w1, t1, Ok tt)
    /\ count is_execute t1 = n
    /\ count is_rotate t1 = n
    /\ (n <> 0%nat ->
        exists t0 t2, t1 = t0 ++ ERotate i :: t2
                      /\ count is_execute t0 = n
                      /\ count is_execute t2 = 0%nat).
Proof.
  intros Huf Hch Hn Hv. revert w. induction n as [|n IH]; intros w.
  - exists w, []. repeat split. congruence.
  - cbn [retry_loop].
    destruct (execute_function_user_raises uf a i w Huf Hch)
      as (w1 & t1 & e & -> & -> & He & Hr & _).
    unfold bind at 1.
    destruct (rotate_tor_ip_returns i w1 Hv Hn) as (w2 & t2 & -> & Hr2 & He2).
    destruct (IH w2) as (w3 & t3 & -> & He3 & Hr3 & Hlast).
    exists w3, (t1 ++ (ERotate i :: t2) ++ t3). split; [reflexivity|].
    split; [|split].
    + count_simpl. lia.
    + count_simpl. lia.
    + intros _. destruct n as [|m].
      * exists t1, (t2 ++ t3). split; [reflexivity|]. split; [lia|].
        rewrite count_app. lia.
      * destruct Hlast as (t0 & t4 & -> & Hc0 & Hc4); [congruence|].
        exists (t1 ++ (ERotate i :: t2) ++ t0), t4. split.
        { now rewrite <- !app_assoc. }
        split; [|exact Hc4]. count_simpl. lia.
Qed.

(** C1, as amended.  When the user function raises an [Exception] at every
    invocation (and neither the session factory raises outside [Exception]
    nor the control channel raises, and the control port of the instance is
    a port number, so that the probe of the rotation does not raise), the
    retry loop of one action calls [execute_function] exactly 5 times and
    [rotate_tor_ip] exactly 5 times, once after every failed attempt, the
    last one included; then the loop ends normally and the action is
    abandoned. *)
Theorem retry_loop_five_attempts_five_rotations
    (uf : UserFn W Driver) (a i : Z) (w : W) :
  raises_always uf -> chrome_no_base_exception -> newnym_never_raises ->
  valid_port (control_port self i) = true ->
  exists w1 t1,
    retry_loop env self 5 a i uf w = (w1, t1, Ok tt)
    /\ count is_execute t1 = 5%nat
    /\ count is_rotate t1 = 5%nat
    /\ (exists t0 t2, t1 = t0 ++ ERotate i :: t2
                      /\ count is_execute t0 = 5%nat
                      /\ count is_execute t2 = 0%nat).
Proof.
  intros Huf Hch Hn Hv.
  destruct (retry_loop_all_fail uf 5 a i w Huf Hch Hn Hv)
    as (w5 & t5 & H5 & He5 & Hr5 & Hlast).
  exists w5, t5. repeat split; auto.
Qed.

(** A closed control port is handled: the rotation is skipped and
    [rotate_tor_ip] returns. *)
Lemma rotate_tor_ip_closed_port (i : Z) (w : W) :
  valid_port (control_port self i) = true ->
  port_open env w (control_port self i) = false ->
  rotate_tor_ip env self i w
  = (w, [ERotate i; EProbe (control_port self i)], Ok tt).
Proof.
  intros Hv Hc. unfold rotate_tor_ip, bind, emit, is_port_open, ret.
  unfold control_port in Hv, Hc. now rewrite Hv, Hc.
Qed.

(** A control port that is not a port number is not handled either: the
    probe raises [OverflowError], which leaves [rotate_tor_ip]. *)
Lemma rotate_tor_ip_invalid_port (i : Z) (w : W) :
  valid_port (control_port self i) = false ->
  rotate_tor_ip env self i w = (w, [ERotate i], Raise OverflowError).
Proof.
  intros Hv. unfold rotate_tor_ip, bind, emit, is_port_open.
  unfold control_port in Hv. now rewrite Hv.
Qed.

(** A failure of the control channel itself is not handled: it leaves
    [rotate_tor_ip], and, raised inside the [except] clause, the retry
    loop. *)
Lemma retry_loop_rotation_raises
    (uf : UserFn W Driver) (n : nat) (a i : Z) (w w1 w2 : W)
    (t1 : list event) (e1 e2 : exn) :
  execute_function env self a i uf w = (w1, t1, Raise e1) ->
  is_Exception e1 = true ->
  valid_port (control_port self i) = true ->
  port_open env w1 (control_port self i) = true ->
  tor_newnym env (control_port self i) w1 = (w2, Raise e2) ->
  retry_loop env self (S n) a i uf w
  = (w2,
     t1 ++ [ERotate i; EProbe (control_port self i);
            ENewnym (control_port self i)],
     Raise e2).
Proof.
  intros Hx He1 Hv Hopen Hnym. cbn [retry_loop]. rewrite Hx, He1.
  unfold bind at 1.
  unfold rotate_tor_ip, bind, emit, is_port_open, call.
  unfold control_port in Hv, Hopen, Hnym. rewrite Hv, Hopen, Hnym.
  reflexivity.
Qed.

(** With a control port that is not a port number, the first failed
    attempt is the last: the probe of the rotation raises [OverflowError]
    inside the [except] clause, and the exception leaves the retry loop
    after one attempt. *)
Lemma retry_loop_invalid_control_port
    (uf : UserFn W Driver) (n : nat) (a i : Z) (w : W) :
  raises_always uf -> chrome_no_base_exception ->
  valid_port (control_port self i) = false ->
  exists w1 t1,
    retry_loop env self (S n) a i uf w
    = (w1, t1 ++ [ERotate i], Raise OverflowError)
    /\ count is_execute t1 = 1%nat
    /\ count is_rotate t1 = 0%nat.
Proof.
  intros Huf Hch Hv. cbn [retry_loop].
  destruct (execute_function_user_raises uf a i w Huf Hch)
    as (w1 & t1 & e & -> & -> & He & Hr & _).
  unfold bind at 1. rewrite (rotate_tor_ip_invalid_port i w1 Hv).
  exists w1, t1. auto.
Qed.

(** On the normal path the session is disposed of: the trace ends with
    [driver.quit()]. *)
Lemma execute_function_quits_on_return
    (uf : UserFn W Driver) (a i : Z) (w w1 w2 : W) (d : Driver) :
  webdriver_Chrome env (headless self) (socks_port self i) w = (w1, Ok d) ->
  uf d a i w1 = (w2, Ok tt) ->
  execute_function env self a i uf w
  = (fst (driver_quit env d w2),
     [EExecute a i; EChrome (headless self) (socks_port self i);
      EUserCall a i; EQuit],
     snd (driver_quit env d w2)).
Proof.
  intros Hc Hu.
  unfold execute_function, configure_selenium_with_tor, bind, emit, call.
  rewrite Hc, Hu. destruct (driver_quit env d w2). reflexivity.
Qed.

(** C2, what the code does when the user function raises: the exception
    leaves [execute_function] right after the call of the user function, and
    [driver.quit()] is never reached, so the session built for the attempt
    is not disposed of. *)
Theorem execute_function_skips_quit_on_raise
    (uf : UserFn W Driver) (a i : Z) (w w1 w2 : W) (d : Driver) (e : exn) :
  webdriver_Chrome env (headless self) (socks_port self i) w = (w1, Ok d) ->
  uf d a i w1 = (w2, Raise e) ->
  execute_function env self a i uf w
  = (w2,
     [EExecute a i; EChrome (headless self) (socks_port self i);
      EUserCall a i],
     Raise e)
  /\ count is_quit (snd (fst (execute_function env self a i uf w))) = 0%nat.
Proof.
  intros Hc Hu.
  assert (Hx : execute_function env self a i uf w
               = (w2,
                  [EExecute a i; EChrome (headless self) (socks_port self i);
                   EUserCall a i],
                  Raise e)).
  { unfold execute_function, configure_selenium_with_tor, bind, emit, call.
    rewrite Hc, Hu. reflexivity. }
  split; [exact Hx|]. rewrite Hx. reflexivity.
Qed.

End Retry.

Lemma retry_loop_five_attempts_five_rotations_witness :
  exists w1 t1,
    retry_loop (sim_env [] (Ok tt)) default_torsel 5 0 0 always_raises 0%nat
    = (w1, t1, Ok tt)
    /\ count is_execute t1 = 5%nat
    /\ count is_rotate t1 = 5%nat
    /\ (exists t0 t2, t1 = t0 ++ ERotate 0 :: t2
                      /\ count is_execute t0 = 5%nat
                      /\ count is_execute t2 = 0%nat).
Proof.
  apply retry_loop_five_attempts_five_rotations.
  - intros d a i w. eexists. split; reflexivity.
  - intros h p w e H. discriminate H.
  - intros p w. reflexivity.
  - reflexivity.
Defined.

(** The retry loop at a control port beyond 65535 (control base 65540):
    one attempt, then [OverflowError] from the probe of the rotation. *)
Example retry_loop_control_port_out_of_range :
  retry_loop (sim_env [] (Ok tt)) (torsel_with 1 1 9050 65540) 5 0 0
             always_raises 0%nat
  = (2%nat, [EExecute 0 0; EChrome true 9050; EUserCall 0 0; ERotate 0],
     Raise OverflowError).
Proof. vm_compute. reflexivity. Qed.

(** C1 as stated fails: a user function that always raises leads to 5
    rotations, not 4. *)
Lemma retry_loop_four_rotations_counterexample :
  ~ (forall uf : UserFn nat unit,
        raises_always uf ->
        count is_rotate
          (snd (fst (retry_loop (sim_env [] (Ok tt)) default_torsel 5 0 0
                                uf 0%nat)))
        = 4%nat).
Proof.
  intros H. specialize (H always_raises).
  assert (Hr : raises_always always_raises).
  { intros d a i w. eexists. split; reflexivity. }
  specialize (H Hr). vm_compute in H. discriminate H.
Qed.

Lemma execute_function_skips_quit_on_raise_witness :
  execute_function (sim_env [] (Ok tt)) default_torsel 0 0 always_raises 0%nat
  = (2%nat, [EExecute 0 0; EChrome true 9050; EUserCall 0 0],
     Raise (OtherException "WebDriverException"))
  /\ count is_quit
       (snd (fst (execute_function (sim_env [] (Ok tt)) default_torsel 0 0
                                   always_raises 0%nat)))
     = 0%nat.
Proof.
  apply (execute_function_skips_quit_on_raise
           (sim_env [] (Ok tt)) default_torsel always_raises 0 0
           0%nat 1%nat 2%nat tt (OtherException "WebDriverException"));
    reflexivity.
Defined.

(** C3 at a failing control channel: one worker, actions 0 and 1 queued,
    the user function raises, the control port 9151 of instance 0 is open
    and the control channel refuses the authentication.  The exception
    raised inside the [except] clause leaves [thread_manager] during action
    0: the action is not marked done and action 1 stays in the queue. *)
Theorem rotation_failure_leaves_thread_manager :
  let env := sim_env [9151] (Raise (OtherException "AuthenticationFailure")) in
  thread_manager env default_torsel always_raises None
                 {| items := [0; 1]; unfinished_tasks := 2 |} 0%nat
  = (6%nat,
     [EGet 0; ECreate 0; ELaunchTor 0 9050 9151; ESys (Sleep 5);
      ESys (Sleep 2); EExecute 0 0; EChrome true 9050; EUserCall 0 0;
      ERotate 0; EProbe 9151; ENewnym 9151],
     {| items := [1]; unfinished_tasks := 2 |},
     Raised (OtherException "AuthenticationFailure")).
Proof. vm_compute. reflexivity. Qed.

(** ** The worker loop, run by one thread on its own *)

Lemma drain_spec (l : list Z) (unfinished : nat) :
  (length l <= unfinished)%nat ->
  drain l unfinished
  = (drain_events l,
     {| items := []; unfinished_tasks := unfinished - length l |},
     Returned).
Proof.
  revert unfinished. induction l as [|a l IH]; intros u Hu; simpl in *.
  - now rewrite Nat.sub_0_r.
  - destruct u as [|u]; [lia|]. simpl. rewrite IH by lia. reflexivity.
Qed.

Lemma drain_events_counts (l : list Z) :
  count is_execute (drain_events l) = 0%nat
  /\ count is_usercall (drain_events l) = 0%nat
  /\ count is_task_done (drain_events l) = length l
  /\ count is_any_get_nowait (drain_events l) = length l.
Proof.
  induction l as [|a l (IH1 & IH2 & IH3 & IH4)]; simpl.
  - repeat split.
  - count_simpl. rewrite IH1, IH2, IH3, IH4. repeat split.
Qed.

Lemma seed_queue (l : list Z) (q : Queue) :
  fold_left put l q
  = {| items := items q ++ l;
       unfinished_tasks := unfinished_tasks q + length l |}.
Proof.
  revert q. induction l as [|x l IH]; intros q; simpl.
  - destruct q. simpl. now rewrite app_nil_r, Nat.add_0_r.
  - rewrite IH. unfold put. simpl. rewrite <- app_assoc. simpl.
    f_equal. lia.
Qed.

Lemma range_pos (n : Z) :
  1 <= n -> range n = 0 :: map Z.of_nat (seq 1 (Z.to_nat n - 1)).
Proof.
  intros H. unfold range.
  replace (Z.to_nat n) with (S (Z.to_nat n - 1)) at 1 by lia. reflexivity.
Qed.

Section WorkerAlone.

Context {W Driver : Type}.
Variable env : Env W Driver.
Variable self : Torsel.
Variable user_function : UserFn W Driver.
Variable check_stop_func : option (StopFn W).

Lemma run_queue (num_actions : Z) (w : W) :
  run_raised (run env self num_actions w) = None ->
  queue (run env self num_actions w)
  = {| items := range num_actions;
       unfinished_tasks := length (range num_actions) |}.
Proof.
  unfold run. destruct (clean_up env self w) as [[w1 t1] [[]|e]]; simpl.
  - intros _. now rewrite seed_queue.
  - discriminate.
Qed.

(** When the reset raises, [run] raises: there is no queue to work on and
    no thread, and nothing can happen. *)
Lemma run_raised_pool (num_actions : Z) (w : W) (e : exn) :
  run_raised (run env self num_actions w) = Some e ->
  snd (clean_up env self w) = Raise e
  /\ run env self num_actions w
     = {| world := fst (fst (clean_up env self w));
          trace := snd (fst (clean_up env self w));
          queue := new_queue; threads := []; joined := 0;
          run_raised := Some e |}.
Proof.
  unfold run. destruct (clean_up env self w) as [[w1 t1] [[]|e']]; simpl.
  - discriminate.
  - intros H. injection H as ->. auto.
Qed.

Lemma run_raised_stuck (num_actions : Z) (w : W) (e : exn)
    (sched : list actor) (p : @Pool W) :
  run_raised (run env self num_actions w) = Some e ->
  exec env self user_function check_stop_func sched
       (run env self num_actions w) = Some p ->
  p = run env self num_actions w.
Proof.
  intros Hr Hex. destruct (run_raised_pool _ _ _ Hr) as (_ & Hp).
  destruct sched as [|a sched]; simpl in Hex; [now injection Hex as <-|].
  rewrite Hp in Hex.
  destruct a as [|[|i]]; simpl in Hex; discriminate Hex.
Qed.

(** A step that reaches the stop check has marked its action done. *)
Lemma after_get_ok_unfinished (a : Z) (u u1 : nat) (w w1 : W) t1 (b : bool) :
  after_get env self user_function check_stop_func a u w = (w1, t1, u1, Ok b) ->
  u = S u1.
Proof.
  unfold after_get.
  destruct ((bind (emit (EGet a)) (fun _ => action_body env self user_function a)) w)
    as [[w2 t2] [[]|e]]; [|discriminate].
  destruct u as [|u]; simpl; [discriminate|].
  destruct (stop_requested check_stop_func w2) as [[w3 t3] r].
  intros H. injection H as _ _ <- _. reflexivity.
Qed.

(** C7, as amended.  When the stop check answers true at the poll that
    follows a completed action, a worker that runs on its own from there (no
    other thread takes items from the queue meanwhile) removes every
    remaining item with [get_nowait], marks each one done, invokes neither
    [execute_function] nor the user function for any of them, and returns;
    the queue is then empty. *)
Theorem stop_check_drains_queue
    (q : Queue) (a : Z) (rest : list Z) (w w1 : W) (t1 : list event)
    (u1 : nat) :
  items q = a :: rest ->
  (length (items q) <= unfinished_tasks q)%nat ->
  after_get env self user_function check_stop_func a (unfinished_tasks q) w
  = (w1, t1, u1, Ok true) ->
  thread_manager env self user_function check_stop_func q w
  = (w1, t1 ++ drain_events rest,
     {| items := [];
        unfinished_tasks := unfinished_tasks q - length (items q) |},
     Returned)
  /\ count is_execute (drain_events rest) = 0%nat
  /\ count is_usercall (drain_events rest) = 0%nat
  /\ count is_any_get_nowait (drain_events rest) = length rest
  /\ count is_task_done (drain_events rest) = length rest.
Proof.
  intros Hq Hlen Hstep.
  pose proof (after_get_ok_unfinished _ _ _ _ _ _ _ Hstep) as Hu.
  destruct (drain_events_counts rest) as (H1 & H2 & H3 & H4).
  repeat split; auto.
  unfold thread_manager. rewrite Hq. cbn [thread_loop]. rewrite Hstep.
  rewrite Hq in Hlen. simpl in Hlen.
  rewrite drain_spec by lia. rewrite Hu. reflexivity.
Qed.

(** With no instances configured the first action already fails: the
    remainder [action_num % 0] raises before anything else is done. *)
Lemma thread_loop_zero_instances (a : Z) (rest : list Z) (u : nat) (w : W) :
  total_instances self = 0 ->
  thread_loop env self user_function check_stop_func (a :: rest) u w
  = (w, [EGet a], {| items := rest; unfinished_tasks := u |},
     Raised ZeroDivisionError).
Proof.
  intros H0. cbn [thread_loop].
  unfold after_get, action_body, bind, emit, py_mod. rewrite H0. reflexivity.
Qed.


(** A non-zero number of instances never makes the remainder raise. *)
Lemma py_mod_nonzero (a : Z) :
  total_instances self <> 0 ->
  py_mod a (total_instances self) = Ok (a mod total_instances self).
Proof.
  intros H. unfold py_mod. destruct (Z.eqb_spec (total_instances self) 0);
    [contradiction | reflexivity].
Qed.

End WorkerAlone.

(** ** The pool: concrete runs *)

(** C5 at two workers and two actions (one instance, a user function that
    succeeds, no stop check).  Both workers see a non-empty queue at line
    174; worker 0 then takes both actions and finishes; worker 1 sits in the
    blocking [queue.get()] of line 175 on an empty queue.  [run] has joined
    worker 0 and waits for worker 1: no actor can take a step, now or
    later, and [run] never returns. *)
Theorem run_can_block_forever :
  let env := sim_env [] (Ok tt) in
  let self := torsel_with 1 2 9050 9151 in
  exists p,
    exec env self always_succeeds None
         [Worker 0; Worker 1; Worker 0; Worker 0; Worker 0; Worker 0; Main]
         (run env self 2 0%nat) = Some p
    /\ items (queue p) = []
    /\ threads p = [Finished; AtGet]
    /\ returned p = false
    /\ (forall a, step env self always_succeeds None a p = None)
    /\ (forall sched p',
          exec env self always_succeeds None sched p = Some p' -> p' = p).
Proof.
  intros env self. eexists. split; [vm_compute; reflexivity|].
  assert (Hstuck : forall a,
            step env self always_succeeds None a
              {| world := 12%nat;
                 trace :=
                   [ESys KillallTor; ESys (Sleep 1); EProbe 9050;
                    EProbe 9151; EDirExists; ESys (Sleep 3);
                    EGet 0; ECreate 0; ELaunchTor 0 9050 9151;
                    ESys (Sleep 5); ESys (Sleep 2); EExecute 0 0;
                    EChrome true 9050; EUserCall 0 0; EQuit; ETaskDone;
                    EGet 1; EExecute 1 0; EChrome true 9050;
                    EUserCall 1 0; EQuit; ETaskDone];
                 queue := {| items := []; unfinished_tasks := 0 |};
                 threads := [Finished; AtGet];
                 joined := 1; run_raised := None |} = None).
  { intros [|[|[|[|i]]]]; reflexivity. }
  repeat split; try reflexivity; [exact Hstuck|].
  intros [|a sched] p' H; simpl in H.
  - now injection H as <-.
  - rewrite Hstuck in H. discriminate H.
Qed.

(** C6 as stated fails: two instances, two actions, one worker and a stop
    check that answers true.  The run ends, [run] returns, and instance 1
    was never created: action 1 was drained, not executed. *)
Lemma lazy_creation_counterexample :
  let env := sim_env [] (Ok tt) in
  let self := torsel_with 2 1 9050 9151 in
  exists p,
    exec env self always_succeeds (Some stop_now)
         [Worker 0; Worker 0; Worker 0; Worker 0; Worker 0; Main]
         (run env self 2 0%nat) = Some p
    /\ returned p = true
    /\ threads p = [Finished]
    /\ 0 <= 1 < Z.min (total_instances self) 2
    /\ count (is_create 1) (trace p) <> 1%nat.
Proof.
  intros env self. eexists. split; [vm_compute; reflexivity|].
  repeat split; try reflexivity; simpl; try lia. vm_compute. discriminate.
Qed.

(** C7 as stated fails when another worker is between line 174 and line
    175: two workers, actions 0 and 1, a stop check that answers true.
    Worker 1 has seen the queue non-empty; worker 0 completes action 0, the
    stop check answers true, worker 0 sees the queue non-empty at line 192;
    worker 1 now takes action 1 and executes it; worker 0's [get_nowait]
    raises [queue.Empty].  The remaining item was not drained by worker 0,
    the user function was invoked for it, and worker 0 did not leave its
    loop normally. *)
Lemma stop_drain_race_counterexample :
  let env := sim_env [] (Ok tt) in
  let self := torsel_with 1 2 9050 9151 in
  exists p1 p2,
    exec env self always_succeeds (Some stop_now)
         [Worker 1; Worker 0; Worker 0; Worker 0] (run env self 2 0%nat)
    = Some p1
    /\ threads p1 = [AtDrainGet; AtGet]
    /\ items (queue p1) = [1]
    /\ count is_usercall (trace p1) = 1%nat
    /\ exec env self always_succeeds (Some stop_now) [Worker 1; Worker 0] p1
       = Some p2
    /\ threads p2 = [Crashed QueueEmpty; AtDrainCheck]
    /\ In (EUserCall 1 0) (trace p2)
    /\ count is_any_get_nowait (trace p2) = 0%nat.
Proof.
  intros env self. do 2 eexists.
  split; [vm_compute; reflexivity|].
  split; [reflexivity|]. split; [reflexivity|]. split; [reflexivity|].
  split; [vm_compute; reflexivity|].
  split; [reflexivity|]. split; [|reflexivity].
  simpl. intuition.
Qed.

(** ** The pool: invariants of every interleaving *)

Lemma length_update {A} (i : nat) (x : A) (l : list A) :
  length (update i x l) = length l.
Proof.
  revert i. induction l as [|y l IH]; intros [|i]; simpl; auto.
Qed.

Lemma nth_error_update_eq {A} (i : nat) (x : A) (l : list A) :
  (i < length l)%nat -> nth_error (update i x l) i = Some x.
Proof.
  revert i. induction l as [|y l IH]; intros [|i] H; simpl in *;
    try lia; auto. apply IH. lia.
Qed.

Lemma nth_error_update_neq {A} (i k : nat) (x : A) (l : list A) :
  i <> k -> nth_error (update i x l) k = nth_error l k.
Proof.
  revert i k. induction l as [|y l IH]; intros [|i] [|k] H; simpl;
    try congruence; auto.
Qed.

Lemma update_update {A} (i : nat) (x y : A) (l : list A) :
  update i x (update i y l) = update i x l.
Proof.
  revert i. induction l as [|z l IH]; intros [|i]; simpl; auto.
  now rewrite IH.
Qed.

Section PoolInvariants.

Context {W Driver : Type}.
Variable env : Env W Driver.
Variable self : Torsel.
Variable user_function : UserFn W Driver.
Variable check_stop_func : option (StopFn W).

Local Abbreviation step := (step env self user_function check_stop_func).
Local Abbreviation exec := (exec env self user_function check_stop_func).
Local Abbreviation after_get := (after_get env self user_function check_stop_func).
Local Abbreviation worker_step :=
  (worker_step env self user_function check_stop_func).

Lemma step_worker_sound (i : nat) (p p' : @Pool W) :
  step_worker env self user_function check_stop_func i p = Some p' ->
  worker_step i p p'.
Proof.
  unfold step_worker.
  destruct (nth_error (threads p) i) as [[| | | | |e]|] eqn:Hi;
    try discriminate.
  - intros H. injection H as <-.
    eapply WS_check; eauto; reflexivity.
  - destruct (items (queue p)) as [|a rest] eqn:Hq; [discriminate|].
    destruct (after_get a (unfinished_tasks (queue p)) (world p))
      as [[[w1 t1] u1] r] eqn:Hs.
    intros H. injection H as <-.
    eapply WS_get; eauto; reflexivity.
  - intros H. injection H as <-.
    eapply WS_check; eauto; reflexivity.
  - destruct (items (queue p)) as [|a rest] eqn:Hq.
    + intros H. injection H as <-.
      eapply WS_check; eauto; reflexivity.
    + destruct (task_done (unfinished_tasks (queue p)));
        intros H; injection H as <-;
        eapply WS_drain; eauto; reflexivity.
Qed.

Lemma step_main_sound (p p' : @Pool W) :
  step_main p = Some p' ->
  exists c, nth_error (threads p) (joined p) = Some c
            /\ terminated c = true
            /\ threads p' = threads p /\ joined p' = S (joined p)
            /\ world p' = world p /\ trace p' = trace p
            /\ queue p' = queue p.
Proof.
  unfold step_main.
  destruct (run_raised p); [discriminate|].
  destruct (nth_error (threads p) (joined p)) as [c|]; [|discriminate].
  destruct (terminated c) eqn:Hc; [|discriminate].
  intros H. injection H as <-. exists c. repeat split; auto.
Qed.

(** No step changes whether [run] was left by an exception, and [run]
    joins nothing once it was. *)
Lemma step_run_raised (a : actor) (p p' : @Pool W) :
  step a p = Some p' -> run_raised p' = run_raised p.
Proof.
  destruct a as [|i]; simpl.
  - unfold step_main. destruct (run_raised p) eqn:Hr; [discriminate|].
    destruct (nth_error (threads p) (joined p)) as [c|]; [|discriminate].
    destruct (terminated c); [|discriminate].
    intros H. injection H as <-. reflexivity.
  - unfold step_worker.
    destruct (nth_error (threads p) i) as [[| | | | |e]|]; try discriminate.
    + intros H. injection H as <-. reflexivity.
    + destruct (items (queue p)) as [|x rest]; [discriminate|].
      destruct (after_get x (unfinished_tasks (queue p)) (world p))
        as [[[w1 t1] u1] r].
      intros H. injection H as <-. reflexivity.
    + intros H. injection H as <-. reflexivity.
    + destruct (items (queue p)) as [|x rest].
      * intros H. injection H as <-. reflexivity.
      * destruct (task_done (unfinished_tasks (queue p)));
          intros H; injection H as <-; reflexivity.
Qed.

Lemma exec_run_raised (sched : list actor) (p p' : @Pool W) :
  exec sched p = Some p' -> run_raised p' = run_raised p.
Proof.
  revert p. induction sched as [|a sched IH]; intros p H; simpl in H.
  - now injection H as <-.
  - destruct (step a p) as [p1|] eqn:Hs; [|discriminate].
    rewrite (IH _ H). exact (step_run_raised a p p1 Hs).
Qed.

(** A property that holds at the start and is kept by every step holds
    after every schedule. *)
Lemma exec_invariant (P : @Pool W -> Prop) :
  (forall a p p', P p -> step a p = Some p' -> P p') ->
  forall sched p p', P p -> exec sched p = Some p' -> P p'.
Proof.
  intros Hstep. induction sched as [|a sched IH]; intros p p' HP H;
    simpl in H.
  - now injection H as <-.
  - destruct (step a p) as [p1|] eqn:Hs; [|discriminate].
    eapply IH; [|exact H]. eapply Hstep; eauto.
Qed.

Lemma joined_ended_step (a : actor) (p p' : @Pool W) :
  joined_ended p -> step a p = Some p' -> joined_ended p'.
Proof.
  intros [Hle Hall] Hs. destruct a as [|i]; simpl in Hs.
  - apply step_main_sound in Hs.
    destruct Hs as (c & Hc & Ht & Hth & Hj & _).
    unfold joined_ended. rewrite Hth, Hj. split.
    + apply Nat.lt_succ_r. apply Nat.lt_succ_r.
      assert (joined p < length (threads p))%nat; [|lia].
      apply nth_error_Some. congruence.
    + intros k Hk. destruct (Nat.eq_dec k (joined p)) as [->|Hne].
      * exists c. auto.
      * apply Hall. lia.
  - apply step_worker_sound in Hs.
    assert (Hgen : forall c c',
              nth_error (threads p) i = Some c -> terminated c = false ->
              threads p' = update i c' (threads p) ->
              joined p' = joined p -> joined_ended p').
    { intros c c' Hc Ht Hth Hj. unfold joined_ended.
      rewrite Hth, Hj, length_update. split; [exact Hle|].
      intros k Hk. destruct (Hall k Hk) as (d & Hd & Hdt).
      exists d. split; [|exact Hdt].
      rewrite nth_error_update_neq; [exact Hd|].
      intros ->. congruence. }
    destruct Hs; eapply Hgen; eauto.
Qed.

Lemma joined_ended_all (p : @Pool W) :
  joined_ended p -> returned p = true ->
  Forall (fun c => terminated c = true) (threads p).
Proof.
  intros [_ Hall] Hr. unfold returned in Hr.
  destruct (run_raised p); [discriminate|]. apply Nat.eqb_eq in Hr.
  apply Forall_forall. intros c Hin.
  apply In_nth_error in Hin. destruct Hin as [k Hk].
  assert (Hlt : (k < joined p)%nat).
  { rewrite Hr. apply nth_error_Some. congruence. }
  destruct (Hall k Hlt) as (d & Hd & Hdt). congruence.
Qed.

(** Every schedule only extends the trace. *)
Lemma step_trace_prefix (a : actor) (p p' : @Pool W) :
  step a p = Some p' -> exists t, trace p' = trace p ++ t.
Proof.
  intros Hs. destruct a as [|i]; simpl in Hs.
  - apply step_main_sound in Hs. destruct Hs as (c & _ & _ & _ & _ & _ & Ht & _).
    exists []. now rewrite app_nil_r.
  - apply step_worker_sound in Hs. destruct Hs.
    + exists []. rewrite app_nil_r. assumption.
    + eexists; eassumption.
    + eexists; eassumption.
Qed.

Lemma exec_trace_prefix (sched : list actor) (p p' : @Pool W) :
  exec sched p = Some p' -> exists t, trace p' = trace p ++ t.
Proof.
  revert p. induction sched as [|a sched IH]; intros p H; simpl in H.
  - injection H as <-. exists []. now rewrite app_nil_r.
  - destruct (step a p) as [p1|] eqn:Hs; [|discriminate].
    destruct (step_trace_prefix _ _ _ Hs) as [t1 Ht1].
    destruct (IH _ H) as [t2 Ht2].
    exists (t1 ++ t2). now rewrite Ht2, Ht1, app_assoc.
Qed.

Lemma step_threads_length (a : actor) (p p' : @Pool W) :
  step a p = Some p' -> length (threads p') = length (threads p).
Proof.
  intros Hs. destruct a as [|i]; simpl in Hs.
  - apply step_main_sound in Hs.
    destruct Hs as (c & _ & _ & -> & _). reflexivity.
  - apply step_worker_sound in Hs.
    destruct Hs as [c c' _ _ -> | a rest w1 t1 u1 r c' _ _ _ ->
                   | a rest c' _ _ ->]; apply length_update.
Qed.

Lemma run_world_trace (num_actions : Z) (w : W) :
  world (run env self num_actions w) = fst (fst (clean_up env self w))
  /\ trace (run env self num_actions w) = snd (fst (clean_up env self w))
  /\ (run_raised (run env self num_actions w) = None
      <-> snd (clean_up env self w) = Ok tt)
  /\ (forall e, run_raised (run env self num_actions w) = Some e
                <-> snd (clean_up env self w) = Raise e).
Proof.
  unfold run. destruct (clean_up env self w) as [[w1 t1] [[]|e]]; simpl;
    repeat split; auto; try discriminate; try congruence.
Qed.

Lemma run_start (num_actions : Z) (w : W) :
  run_raised (run env self num_actions w) = None ->
  run env self num_actions w
  = {| world := fst (fst (clean_up env self w));
       trace := snd (fst (clean_up env self w));
       queue := {| items := range num_actions;
                   unfinished_tasks := Z.to_nat num_actions |};
       threads := repeat AtCheck
                    (Z.to_nat (Z.min num_actions (max_threads self)));
       joined := 0;
       run_raised := None |}.
Proof.
  unfold run. destruct (clean_up env self w) as [[w1 t1] [[]|e]]; simpl;
    [intros _ | discriminate].
  rewrite seed_queue. simpl. rewrite range_length. f_equal.
  unfold range. generalize (Z.to_nat (Z.min num_actions (max_threads self))).
  intros n. generalize 0%nat. induction n as [|n IH]; intros k; simpl.
  - reflexivity.
  - now rewrite IH.
Qed.

Lemma run_joined_ended (num_actions : Z) (w : W) :
  joined_ended (run env self num_actions w).
Proof.
  unfold run. destruct (clean_up env self w) as [[w1 t1] [[]|e]];
    split; simpl; try lia; intros k Hk; lia.
Qed.

(** C9, as amended.  [run] starts with the environment reset.  When the
    reset raises (a missing [killall], a port that is not a port number, a
    data directory that cannot be removed), the exception leaves [run]: no
    queue is seeded, no worker is launched, and [run] does not return.  When
    the reset completes it has run [killall tor], paused, probed the two
    ports of every instance, tested for the data directory and paused again;
    the queue then holds exactly 0, 1, ..., num_actions - 1 in this order and
    min(num_actions, max_threads) workers are launched, each at the head of
    its loop.  In both cases every event of a worker comes after the events
    of the reset, and in whatever order the threads run, [run] has returned
    only if every worker has ended. *)
Theorem run_resets_seeds_launches_joins (num_actions : Z) (w : W) :
  world (run env self num_actions w) = fst (fst (clean_up env self w))
  /\ trace (run env self num_actions w) = snd (fst (clean_up env self w))
  /\ (forall e,
        snd (clean_up env self w) = Raise e ->
        run_raised (run env self num_actions w) = Some e
        /\ queue (run env self num_actions w) = new_queue
        /\ threads (run env self num_actions w) = []
        /\ returned (run env self num_actions w) = false
        /\ (forall a, step a (run env self num_actions w) = None))
  /\ (snd (clean_up env self w) = Ok tt ->
      run_raised (run env self num_actions w) = None
      /\ (exists tloop tail,
             trace (run env self num_actions w)
             = ESys KillallTor :: ESys (Sleep 1)
                 :: tloop ++ EDirExists :: tail
             /\ (tail = [ESys (Sleep 3)]
                 \/ tail = [ESys Rmtree; ESys (Sleep 3)])
             /\ probes tloop
                = flat_map
                    (fun i => [socks_port self i; socks_port self i + 101])
                    (range (total_instances self)))
      /\ queue (run env self num_actions w)
         = {| items := map Z.of_nat (seq 0 (Z.to_nat num_actions));
              unfinished_tasks := Z.to_nat num_actions |}
      /\ threads (run env self num_actions w)
         = repeat AtCheck (Z.to_nat (Z.min num_actions (max_threads self)))
      /\ (0 <= num_actions -> 0 <= max_threads self ->
          Z.of_nat (length (threads (run env self num_actions w)))
          = Z.min num_actions (max_threads self)))
  /\ (forall sched p,
        exec sched (run env self num_actions w) = Some p ->
        (exists t, trace p = snd (fst (clean_up env self w)) ++ t)
        /\ length (threads p) = length (threads (run env self num_actions w))
        /\ (returned p = true ->
            snd (clean_up env self w) = Ok tt
            /\ Forall (fun c => terminated c = true) (threads p))).
Proof.
  destruct (run_world_trace num_actions w) as (Hw & Ht & Hnone & Hsome).
  split; [exact Hw|]. split; [exact Ht|]. split; [|split].
  - intros e He. apply Hsome in He.
    destruct (run_raised_pool env self num_actions w e He) as (_ & Hp).
    rewrite Hp. simpl. repeat split; auto.
    intros [|[|i]]; reflexivity.
  - intros Hok. pose proof (proj2 Hnone Hok) as Hr.
    split; [exact Hr|]. split.
    + rewrite Ht.
      destruct (clean_up_decompose env self w)
        as (w1 & t & r & pre & tloop & post & wl & wl' & rl
            & Hc & -> & _ & _ & _ & Hfull & _).
      rewrite Hc in *. simpl in Hok.
      destruct (Hfull Hok) as (-> & Hf & Hpost).
      destruct (for_each_clean_up_port env
                  (map (fun i => tor_base_port self + i * 10)
                       (range (total_instances self))) wl)
        as (w2 & t2 & r2 & Hf2 & _ & _ & Hprobes & _).
      rewrite Hf in Hf2. injection Hf2 as _ Ht2 Hr2.
      exists tloop. simpl.
      assert (Hp : probes tloop
                   = flat_map
                       (fun i => [socks_port self i; socks_port self i + 101])
                       (range (total_instances self))).
      { rewrite Ht2, (Hprobes (eq_sym Hr2)).
        rewrite flat_map_concat_map, map_map, <- flat_map_concat_map.
        reflexivity. }
      destruct Hpost as [-> | ->]; eexists; (split; [reflexivity|]);
        (split; [auto | exact Hp]).
    + rewrite (run_start num_actions w Hr). simpl.
      split; [reflexivity|]. split; [reflexivity|].
      intros HN HM. rewrite repeat_length. lia.
  - intros sched p Hex. split; [|split].
    + apply exec_trace_prefix in Hex. now rewrite Ht in Hex.
    + revert Hex.
      apply (exec_invariant
               (fun q => length (threads q)
                         = length (threads (run env self num_actions w)))).
      * intros a q q' Hq Hs. now rewrite (step_threads_length _ _ _ Hs).
      * reflexivity.
    + intros Hret. split.
      * apply Hnone. rewrite <- (exec_run_raised _ _ _ Hex).
        unfold returned in Hret. now destruct (run_raised p).
      * apply joined_ended_all; [|exact Hret]. revert Hex.
        apply (exec_invariant joined_ended).
        -- intros a q q'. apply joined_ended_step.
        -- apply run_joined_ended.
Qed.

End PoolInvariants.

Lemma run_resets_seeds_launches_joins_witness :
  let env := sim_env [] (Ok tt) in
  let self := torsel_with 2 5 9050 9151 in
  Z.of_nat (length (threads (run env self 2 0%nat))) = 2
  /\ exists p,
       exec env self always_succeeds None
            [Worker 0; Worker 0; Worker 1; Worker 1; Worker 0; Worker 1;
             Main; Main]
            (run env self 2 0%nat) = Some p
       /\ returned p = true
       /\ Forall (fun c => terminated c = true) (threads p).
Proof.
  intros env self.
  destruct (run_resets_seeds_launches_joins env self always_succeeds None
              2 0%nat) as (_ & _ & _ & Hok & Hall).
  split.
  - destruct (Hok eq_refl) as (_ & _ & _ & _ & Hlen).
    apply Hlen; simpl; lia.
  - eexists. split; [vm_compute; reflexivity|]. split; [reflexivity|].
    refine (proj2 (proj2 (proj2 (Hall [Worker 0; Worker 0; Worker 1; Worker 1;
                                       Worker 0; Worker 1; Main; Main]%nat
                                      _ _)) _));
      [vm_compute; reflexivity | reflexivity].
Defined.

(** C9 as stated fails when the reset raises.  One instance with SOCKS
    base 65500, three actions, five threads allowed: [clean_up] probes 65500
    and then 65601, which is not a port number; [connect_ex] raises
    [OverflowError], which leaves [clean_up] at line 67 and [run] at line
    206: the queue is not seeded with 0, 1, 2, none of the min(3, 5) = 3
    workers is launched, and [run] does not return. *)
Lemma run_reset_raises_counterexample :
  let env := sim_env [] (Ok tt) in
  let self := torsel_with 1 5 65500 65510 in
  clean_up env self 0%nat
  = (2%nat, [ESys KillallTor; ESys (Sleep 1); EProbe 65500],
     Raise OverflowError)
  /\ run_raised (run env self 3 0%nat) = Some OverflowError
  /\ items (queue (run env self 3 0%nat)) <> [0; 1; 2]
  /\ length (threads (run env self 3 0%nat))
     <> Z.to_nat (Z.min 3 (max_threads self))
  /\ returned (run env self 3 0%nat) = false
  /\ (forall sched p,
        exec env self always_succeeds None sched (run env self 3 0%nat)
        = Some p ->
        sched = [] /\ returned p = false).
Proof.
  intros env self.
  split; [vm_compute; reflexivity|]. split; [vm_compute; reflexivity|].
  split; [vm_compute; discriminate|]. split; [vm_compute; discriminate|].
  split; [vm_compute; reflexivity|].
  intros [|a sched] p H.
  - simpl in H. injection H as <-. split; reflexivity.
  - exfalso. destruct a as [|[|i]]; vm_compute in H; discriminate H.
Qed.

(** The same on a system without [killall]: [subprocess.call] of line 61
    raises [FileNotFoundError] before anything else is done. *)
Example run_without_killall :
  let env := sim_env_no_killall in
  clean_up env default_torsel 0%nat
  = (0%nat, [ESys KillallTor], Raise (OtherException "FileNotFoundError"))
  /\ run_raised (run env default_torsel 3 0%nat)
     = Some (OtherException "FileNotFoundError")
  /\ queue (run env default_torsel 3 0%nat) = new_queue
  /\ threads (run env default_torsel 3 0%nat) = [].
Proof. vm_compute. repeat split; reflexivity. Qed.

(** ** Lazy creation of instances *)

Lemma attempt_event_body (total a : Z) (e : event) :
  attempt_event a (a mod total) e = true -> body_event total a e = true.
Proof. destruct e; simpl; auto; discriminate. Qed.

Lemma count_Forall_zero (q p : event -> bool) (l : list event) :
  (forall e, q e = true -> p e = false) ->
  Forall (fun e => q e = true) l -> count p l = 0%nat.
Proof.
  intros Hqp HF. apply count_zero_not_in. intros e He.
  apply Hqp. rewrite Forall_forall in HF. now apply HF.
Qed.

Section Traces.

Context {W Driver : Type}.
Variable env : Env W Driver.
Variable self : Torsel.
Variable user_function : UserFn W Driver.
Variable check_stop_func : option (StopFn W).

Lemma execute_function_events (a i : Z) (w : W) :
  Forall (fun e => attempt_event a i e = true)
         (snd (fst (execute_function env self a i user_function w))).
Proof.
  unfold execute_function, configure_selenium_with_tor, bind, emit, call.
  destruct (webdriver_Chrome env (headless self) (socks_port self i) w)
    as [w1 [d|e]]; simpl.
  - destruct (user_function d a i w1) as [w2 [[]|e]]; simpl.
    + destruct (driver_quit env d w2) as [w3 r]. simpl.
      repeat constructor; simpl; now rewrite !Z.eqb_refl.
    + repeat constructor; simpl; now rewrite !Z.eqb_refl.
  - repeat constructor; simpl; now rewrite !Z.eqb_refl.
Qed.

Lemma rotate_tor_ip_events (a i : Z) (w : W) :
  Forall (fun e => attempt_event a i e = true)
         (snd (fst (rotate_tor_ip env self i w))).
Proof.
  unfold rotate_tor_ip, bind, emit, is_port_open, call, sys, ret.
  destruct (valid_port (tor_control_base_port self + i * 10));
    [|repeat constructor; simpl; now rewrite ?Z.eqb_refl].
  destruct (port_open env w (tor_control_base_port self + i * 10)); simpl.
  - destruct (tor_newnym env (tor_control_base_port self + i * 10) w)
      as [w1 [[]|e]]; simpl;
      repeat constructor; simpl; now rewrite ?Z.eqb_refl.
  - repeat constructor; simpl; now rewrite ?Z.eqb_refl.
Qed.

Lemma retry_loop_events (n : nat) (a i : Z) (w : W) :
  Forall (fun e => attempt_event a i e = true)
         (snd (fst (retry_loop env self n a i user_function w))).
Proof.
  revert w. induction n as [|n IH]; intros w; cbn [retry_loop].
  - constructor.
  - pose proof (execute_function_events a i w) as Hx.
    destruct (execute_function env self a i user_function w)
      as [[w1 t1] [[]|e]]; simpl in *; [exact Hx|].
    destruct (is_Exception e); simpl; [|exact Hx].
    unfold bind at 1.
    pose proof (rotate_tor_ip_events a i w1) as Hr.
    destruct (rotate_tor_ip env self i w1) as [[w2 t2] [[]|e2]]; simpl in *.
    + specialize (IH w2).
      destruct (retry_loop env self n a i user_function w2)
        as [[w3 t3] r3]; simpl in *.
      apply Forall_app; split; [exact Hx|].
      apply Forall_app; split; assumption.
    + apply Forall_app; split; assumption.
Qed.

(** The events of lines 176-188 for action [a]: the creation of instance
    [a % total_instances] first, exactly when [a < total_instances], then
    only events of attempts on [a] with that instance. *)
Lemma action_body_trace (a : Z) (w : W) :
  exists rest,
    Forall (fun e => body_event (total_instances self) a e = true) rest
    /\ ((total_instances self <> 0 /\ a < total_instances self
         /\ snd (fst (action_body env self user_function a w))
            = ECreate (a mod total_instances self) :: rest)
        \/ ((total_instances self = 0 \/ total_instances self <= a)
            /\ snd (fst (action_body env self user_function a w)) = rest)).
Proof.
  unfold action_body, bind at 1, py_mod.
  destruct (Z.eqb_spec (total_instances self) 0) as [H0|H0].
  { exists []. split; [constructor|]. right. split; [now left | reflexivity]. }
  unfold bind at 1.
  destruct (Z.ltb_spec a (total_instances self)) as [Hlt|Hge].
  - unfold create_tor_instance, bind, emit, call, sys.
    destruct (tor_launch env (a mod total_instances self)
                (socks_port self (a mod total_instances self))
                (control_port self (a mod total_instances self)) w)
      as [w1 [[]|e]]; cbn -[retry_loop Z.modulo].
    + match goal with
      | |- context [retry_loop env self ?n a ?i user_function ?w0] =>
          pose proof (retry_loop_events n a i w0) as HF;
          destruct (retry_loop env self n a i user_function w0)
            as [[w3 t3] r3]
      end. simpl in *.
      eexists. split; [|left; repeat split; auto].
      repeat (constructor; [reflexivity|]).
      eapply Forall_impl; [|exact HF].
      intros e. apply attempt_event_body.
    + eexists. split; [|left; repeat split; auto].
      repeat constructor.
  - unfold ret. cbn -[retry_loop Z.modulo].
    match goal with
    | |- context [retry_loop env self ?n a ?i user_function ?w0] =>
        pose proof (retry_loop_events n a i w0) as HF;
        destruct (retry_loop env self n a i user_function w0)
          as [[w3 t3] r3]
    end. simpl in *.
    exists t3. split; [|right; split; [now right | reflexivity]].
    eapply Forall_impl; [|exact HF].
    intros e. apply attempt_event_body.
Qed.

Lemma after_get_trace (a : Z) (u u1 : nat) (w w1 : W) t1 (r : res bool) :
  after_get env self user_function check_stop_func a u w = (w1, t1, u1, r) ->
  exists rest,
    Forall (fun e => body_event (total_instances self) a e = true) rest
    /\ ((total_instances self <> 0 /\ a < total_instances self
         /\ t1 = EGet a :: ECreate (a mod total_instances self) :: rest)
        \/ ((total_instances self = 0 \/ total_instances self <= a)
            /\ t1 = EGet a :: rest)).
Proof.
  unfold after_get, bind at 1, emit.
  destruct (action_body_trace a w) as (rest & HF & Hshape).
  destruct (action_body env self user_function a w) as [[w2 t2] [[]|e]];
    simpl in Hshape.
  - destruct (task_done u) as [u'|e].
    + unfold stop_requested.
      destruct check_stop_func as [f|].
      * unfold call. destruct (f w2) as [w3 r3].
        intros H. injection H as _ <- _ _.
        exists (rest ++ [ETaskDone; EStopCheck]). split.
        { apply Forall_app. split; [exact HF | repeat constructor]. }
        destruct Hshape as [(H0 & Hlt & ->) | (Hor & ->)];
          [left | right]; repeat split; auto.
      * unfold ret. intros H. injection H as _ <- _ _.
        exists (rest ++ [ETaskDone]). split.
        { apply Forall_app. split; [exact HF | repeat constructor]. }
        destruct Hshape as [(H0 & Hlt & ->) | (Hor & ->)];
          [left | right]; repeat split; auto.
    + intros H. injection H as _ <- _ _.
      exists (rest ++ [ETaskDone]). split.
      { apply Forall_app. split; [exact HF | repeat constructor]. }
      destruct Hshape as [(H0 & Hlt & ->) | (Hor & ->)];
        [left | right]; repeat split; auto.
  - intros H. injection H as _ <- _ _.
    exists rest. split; [exact HF|].
    destruct Hshape as [(H0 & Hlt & ->) | (Hor & ->)];
      [left | right]; repeat split; auto.
Qed.

End Traces.

Lemma body_event_counts (total a x : Z) (l : list event) :
  Forall (fun e => body_event total a e = true) l ->
  count (is_get x) l = 0%nat
  /\ count (is_get_nowait x) l = 0%nat
  /\ count (is_create x) l = 0%nat.
Proof.
  intros HF. repeat split;
    (eapply count_Forall_zero; [|exact HF]);
    intros [] H; simpl in *; auto; discriminate.
Qed.

Lemma reset_event_counts (x : Z) (l : list event) :
  Forall (fun e => reset_event e = true) l ->
  count (is_get x) l = 0%nat
  /\ count (is_get_nowait x) l = 0%nat
  /\ count (is_create x) l = 0%nat
  /\ (forall b j, ~ In (EExecute b j) l /\ ~ In (EUserCall b j) l).
Proof.
  intros HF. repeat split;
    try ((eapply count_Forall_zero; [|exact HF]);
         intros [] H; simpl in *; auto; discriminate);
    intros Hin; rewrite Forall_forall in HF; apply HF in Hin;
    discriminate Hin.
Qed.

Lemma count_In (p : event -> bool) (e : event) (l : list event) :
  In e l -> p e = true -> (1 <= count p l)%nat.
Proof.
  intros Hin Hp. destruct (count p l) eqn:Hc; [|lia].
  rewrite count_zero_not_in in Hc. specialize (Hc e Hin). congruence.
Qed.

Lemma count_pos_In (p : event -> bool) (l : list event) :
  (1 <= count p l)%nat -> exists e, In e l /\ p e = true.
Proof.
  unfold count. induction l as [|x l IH]; simpl; [lia|].
  destruct (p x) eqn:Hx.
  - intros _. exists x. auto.
  - intros H. destruct (IH H) as (e & He & Hpe). exists e. auto.
Qed.

Section LazyCreation.

Context {W Driver : Type}.
Variable env : Env W Driver.
Variable self : Torsel.
Variable user_function : UserFn W Driver.
Variable check_stop_func : option (StopFn W).

Lemma for_each_clean_up_port_events (l : list Z) (w : W) :
  Forall (fun e => reset_event e = true)
         (snd (fst (for_each l (clean_up_port env) w))).
Proof.
  destruct (for_each_clean_up_port env l w)
    as (w1 & t1 & r & -> & _ & _ & _ & HF & _). exact HF.
Qed.

Lemma clean_up_events (w : W) :
  Forall (fun e => reset_event e = true) (snd (fst (clean_up env self w))).
Proof.
  destruct (clean_up_spec env self w) as (w1 & t1 & r & -> & _ & _ & _ & HF).
  exact HF.
Qed.

Variable num_actions : Z.
Hypothesis one_instance : 1 <= total_instances self.

Local Abbreviation lazy_inv := (lazy_inv self num_actions).

Lemma lazy_inv_start (w : W) :
  run_raised (run env self num_actions w) = None ->
  lazy_inv (run env self num_actions w).
Proof.
  intros Hr. rewrite (run_start env self num_actions w Hr).
  unfold lazy_inv. simpl.
  pose proof (clean_up_events w) as HF.
  split; [|split].
  - intros a. destruct (reset_event_counts a _ HF) as (-> & -> & _).
    reflexivity.
  - intros i. destruct (reset_event_counts i _ HF) as (-> & _ & -> & _).
    now destruct ((0 <=? i) && (i <? total_instances self)).
  - intros b j [H|H];
      destruct (reset_event_counts 0 _ HF) as (_ & _ & _ & Hno);
      destruct (Hno b j); contradiction.
Qed.

Lemma lazy_inv_queued (p : @Pool W) (a : Z) :
  lazy_inv p -> In a (items (queue p)) -> 0 <= a < num_actions.
Proof.
  intros (H1 & _) Hin. apply range_In.
  apply (count_occ_In Z.eq_dec). apply (count_occ_In Z.eq_dec) in Hin.
  specialize (H1 a). lia.
Qed.

Lemma lazy_inv_step (a : actor) (p p' : @Pool W) :
  lazy_inv p ->
  step env self user_function check_stop_func a p = Some p' ->
  lazy_inv p'.
Proof.
  intros Hinv Hs. destruct a as [|i]; simpl in Hs.
  { apply step_main_sound in Hs.
    destruct Hs as (c & _ & _ & _ & _ & _ & Ht & Hq).
    unfold lazy_inv. rewrite Ht, Hq. exact Hinv. }
  apply step_worker_sound in Hs.
  destruct Hs as [c c' _ _ _ _ Ht Hq _
                 | a rest w1 t1 u1 r c' _ Hitems Hget _ _ Ht Hq _
                 | a rest c' _ Hitems _ _ Ht Hq _].
  - unfold lazy_inv. rewrite Ht, Hq. exact Hinv.
  - assert (Ha : 0 <= a < num_actions).
    { apply (lazy_inv_queued p); [exact Hinv|]. rewrite Hitems. now left. }
    destruct Hinv as (H1 & H2 & H3).
    destruct (after_get_trace _ _ _ _ _ _ _ _ _ _ _ Hget)
      as (body & HF & Hshape).
    unfold lazy_inv. rewrite Ht, Hq. simpl.
    split; [|split].
    + intros x. specialize (H1 x). rewrite Hitems in H1. simpl in H1.
      destruct (body_event_counts _ _ x _ HF) as (Hg & Hn & Hc).
      destruct Hshape as [(_ & _ & ->) | (_ & ->)];
        count_simpl; rewrite Hg, Hn;
        destruct (Z.eq_dec a x) as [->|Hne];
        [rewrite Z.eqb_refl | destruct (Z.eqb_spec x a); [congruence|]
        |rewrite Z.eqb_refl | destruct (Z.eqb_spec x a); [congruence|]];
        simpl; lia.
    + intros x. specialize (H2 x).
      destruct (body_event_counts _ _ x _ HF) as (Hg & Hn & Hc).
      destruct Hshape as [(_ & Hlt & ->) | ([H0|Hge] & ->)]; [| lia |].
      * rewrite (Z.mod_small a) by lia.
        count_simpl. rewrite Hg, Hc, H2.
        destruct (Z.eqb_spec x a) as [->|Hne]; simpl.
        -- destruct (Z.leb_spec 0 a); [|lia].
           destruct (Z.ltb_spec a (total_instances self)); [|lia].
           simpl. lia.
        -- destruct ((0 <=? x) && (x <? total_instances self)); lia.
      * count_simpl. rewrite Hg, Hc, H2.
        destruct (Z.eqb_spec x a) as [->|Hne]; simpl.
        -- destruct (Z.ltb_spec a (total_instances self)); [lia|].
           rewrite andb_false_r. lia.
        -- destruct ((0 <=? x) && (x <? total_instances self)); lia.
    + intros b j Hin.
      assert (Hcase : (In (EExecute b j) (trace p)
                       \/ In (EUserCall b j) (trace p))
                      \/ (In (EExecute b j) t1 \/ In (EUserCall b j) t1)).
      { destruct Hin as [Hin|Hin]; apply in_app_or in Hin; tauto. }
      destruct Hcase as [Hold|Hnew]; [now apply H3|].
      assert (Hbody : In (EExecute b j) body \/ In (EUserCall b j) body).
      { destruct Hshape as [(_ & _ & ->) | (_ & ->)];
          destruct Hnew as [Hn|Hn]; simpl in Hn;
          repeat (destruct Hn as [Hn|Hn]; [discriminate Hn|]); tauto. }
      rewrite Forall_forall in HF.
      destruct Hbody as [Hb|Hb]; apply HF in Hb; simpl in Hb;
        apply andb_prop in Hb; destruct Hb as [Hb1 Hb2];
        apply Z.eqb_eq in Hb1, Hb2; subst; auto.
  - destruct Hinv as (H1 & H2 & H3).
    unfold lazy_inv. rewrite Ht, Hq. split; [|split].
    + intros x. specialize (H1 x). rewrite Hitems in H1. simpl in H1.
      count_simpl.
      destruct (Z.eq_dec a x) as [->|Hne];
        [rewrite Z.eqb_refl | destruct (Z.eqb_spec x a); [congruence|]];
        simpl; lia.
    + intros x. specialize (H2 x). count_simpl.
      rewrite !Nat.add_0_r. exact H2.
    + intros b j [Hin|Hin]; apply in_app_or in Hin;
        destruct Hin as [Hin|Hin]; auto;
        simpl in Hin; repeat (destruct Hin as [Hin|Hin]; [discriminate Hin|]);
        contradiction.
Qed.

(** C6, as amended.  With at least one instance, in every interleaving of
    the workers and at every moment of the run: every execution is of an
    action of the run on the instance [action % total_instances]; every
    instance is created at most once; instance [i] has been created exactly
    when [i < min(total_instances, num_actions)] and action [i] has been
    taken from the queue by [get] (creation is triggered by the action whose
    number is the instance's index, and by no later action of the same
    instance); and once the queue that [run] seeded (the reset having
    completed) is empty with no item removed by a drain, every instance
    below [min(total_instances, num_actions)] has been created exactly
    once. *)
Theorem lazy_creation (w : W) (sched : list actor) (p : @Pool W) :
  exec env self user_function check_stop_func sched
       (run env self num_actions w) = Some p ->
  (forall b j,
      In (EExecute b j) (trace p) \/ In (EUserCall b j) (trace p) ->
      0 <= b < num_actions /\ j = b mod total_instances self
      /\ 0 <= j < total_instances self)
  /\ (forall i, (count (is_create i) (trace p) <= 1)%nat)
  /\ (forall i,
         count (is_create i) (trace p) = 1%nat
         <-> 0 <= i < Z.min (total_instances self) num_actions
             /\ In (EGet i) (trace p))
  /\ (run_raised p = None ->
      items (queue p) = [] ->
      count is_any_get_nowait (trace p) = 0%nat ->
      forall i, 0 <= i < Z.min (total_instances self) num_actions ->
                count (is_create i) (trace p) = 1%nat).
Proof.
  intros Hex.
  assert (Hinv : (forall i, (count (is_get i) (trace p)
                             <= count_occ Z.eq_dec (range num_actions) i)%nat)
                 /\ (forall i,
                        count (is_create i) (trace p)
                        = if (0 <=? i) && (i <? total_instances self)
                          then count (is_get i) (trace p) else 0%nat)
                 /\ (forall b j,
                        In (EExecute b j) (trace p)
                        \/ In (EUserCall b j) (trace p) ->
                        0 <= b < num_actions
                        /\ j = b mod total_instances self)
                 /\ (run_raised p = None -> lazy_inv p)).
  { destruct (run_raised (run env self num_actions w)) as [e|] eqn:Hr.
    - (* the reset raised: nothing but the events of the reset *)
      pose proof (run_raised_stuck env self user_function check_stop_func
                    num_actions w e sched p Hr Hex) as ->.
      destruct (run_world_trace env self num_actions w) as (_ & Ht & _).
      pose proof (clean_up_events w) as HF. rewrite <- Ht in HF.
      split; [|split; [|split]].
      + intros i. destruct (reset_event_counts i _ HF) as (-> & _). lia.
      + intros i. destruct (reset_event_counts i _ HF) as (-> & _ & -> & _).
        now destruct ((0 <=? i) && (i <? total_instances self)).
      + intros b j [H|H];
          destruct (reset_event_counts 0 _ HF) as (_ & _ & _ & Hno);
          destruct (Hno b j); contradiction.
      + rewrite Hr. discriminate.
    - assert (Hl : lazy_inv p).
      { revert Hex.
        apply (exec_invariant env self user_function check_stop_func).
        - intros a q q'. apply lazy_inv_step.
        - now apply lazy_inv_start. }
      pose proof Hl as (H1 & H2 & H3).
      split; [|split; [|split]];
        [intros i; specialize (H1 i); lia | exact H2 | exact H3
        | intros _; exact Hl]. }
  destruct Hinv as (Hget & H2 & H3 & Hl).
  assert (Hone : forall i,
             (count_occ Z.eq_dec (range num_actions) i <= 1)%nat).
  { apply NoDup_count_occ. apply range_NoDup. }
  assert (Hin1 : forall i, 0 <= i < num_actions ->
             count_occ Z.eq_dec (range num_actions) i = 1%nat).
  { intros i Hi. apply NoDup_count_occ'; [apply range_NoDup|].
    now apply range_In. }
  split; [|split; [|split]].
  - intros b j Hin. destruct (H3 b j Hin) as (Hb & ->).
    split; [exact Hb|]. split; [reflexivity|]. apply Z.mod_pos_bound. lia.
  - intros i. rewrite H2. specialize (Hget i). specialize (Hone i).
    destruct ((0 <=? i) && (i <? total_instances self)); lia.
  - intros i. rewrite H2. split.
    + intros Hc.
      destruct (Z.leb_spec 0 i); [|discriminate Hc].
      destruct (Z.ltb_spec i (total_instances self)); [|discriminate Hc].
      simpl in Hc.
      assert (Hr : In i (range num_actions)).
      { apply (count_occ_In Z.eq_dec). specialize (Hget i). lia. }
      apply range_In in Hr. split; [lia|].
      destruct (count_pos_In (is_get i) (trace p)) as (e & He & Hge); [lia|].
      destruct e; try discriminate Hge. simpl in Hge.
      apply Z.eqb_eq in Hge. now subst.
    + intros (Hi & Hin).
      destruct (Z.leb_spec 0 i); [|lia].
      destruct (Z.ltb_spec i (total_instances self)); [|lia].
      simpl.
      assert (1 <= count (is_get i) (trace p))%nat.
      { apply (count_In _ (EGet i)); [exact Hin|]. simpl. apply Z.eqb_refl. }
      specialize (Hget i). specialize (Hone i). lia.
  - intros Hstarted Hempty Hdrain i Hi. rewrite H2.
    destruct (Hl Hstarted) as (H1 & _).
    destruct (Z.leb_spec 0 i); [|lia].
    destruct (Z.ltb_spec i (total_instances self)); [|lia].
    simpl. specialize (H1 i). rewrite Hempty in H1. simpl in H1.
    assert (Hn : count (is_get_nowait i) (trace p) = 0%nat).
    { apply count_zero_not_in. intros e He.
      rewrite count_zero_not_in in Hdrain. specialize (Hdrain e He).
      destruct e; simpl in *; auto; discriminate. }
    rewrite Hin1 in H1 by lia. lia.
Qed.

End LazyCreation.

Lemma lazy_creation_witness :
  let env := sim_env [] (Ok tt) in
  let self := torsel_with 2 2 9050 9151 in
  exists p,
    exec env self always_succeeds None
         [Worker 0; Worker 0; Worker 1; Worker 1; Worker 0; Worker 0;
          Worker 0; Worker 1; Main; Main]
         (run env self 3 0%nat) = Some p
    /\ count (is_create 0) (trace p) = 1%nat
    /\ count (is_create 1) (trace p) = 1%nat.
Proof.
  intros env self. eexists. split; [vm_compute; reflexivity|].
  assert (H12 : 1 <= total_instances self) by (simpl; lia).
  pose proof (lazy_creation env self always_succeeds None 3 H12 0%nat
                [Worker 0; Worker 0; Worker 1; Worker 1; Worker 0; Worker 0;
                 Worker 0; Worker 1; Main; Main]%nat
                _ ltac:(vm_compute; reflexivity)) as (_ & _ & _ & Hall).
  split; apply Hall; try reflexivity; simpl; lia.
Defined.

(** ** Concrete instances of the worker theorems *)

Lemma stop_check_drains_queue_witness :
  let env := sim_env [] (Ok tt) in
  let self := torsel_with 2 1 9050 9151 in
  exists w1 t1,
    thread_manager env self always_succeeds (Some stop_now)
                   {| items := [0; 1; 2]; unfinished_tasks := 3 |} 0%nat
    = (w1, t1 ++ [EGetNowait 1; ETaskDone; EGetNowait 2; ETaskDone],
       {| items := []; unfinished_tasks := 0 |}, Returned)
    /\ count is_usercall t1 = 1%nat.
Proof.
  intros env self. do 2 eexists.
  split.
  - refine (proj1 (stop_check_drains_queue env self always_succeeds
                     (Some stop_now)
                     {| items := [0; 1; 2]; unfinished_tasks := 3 |}
                     0 [1; 2] 0%nat _ _ _ _ _ _)).
    + reflexivity.
    + simpl. lia.
    + vm_compute. reflexivity.
  - vm_compute. reflexivity.
Defined.


(** ** One thread on its own: the pool steps follow [thread_loop] *)

Lemma exec_app {W Driver : Type} (env : Env W Driver) (self : Torsel)
    (uf : UserFn W Driver) (stop : option (StopFn W))
    (s1 s2 : list actor) (p : @Pool W) :
  exec env self uf stop (s1 ++ s2) p
  = match exec env self uf stop s1 p with
    | Some p1 => exec env self uf stop s2 p1
    | None => None
    end.
Proof.
  revert p. induction s1 as [|a s1 IH]; intros p; simpl.
  - reflexivity.
  - destruct (step env self uf stop a p); [apply IH | reflexivity].
Qed.

Section Solo.

Context {W Driver : Type}.
Variable env : Env W Driver.
Variable self : Torsel.
Variable user_function : UserFn W Driver.
Variable check_stop_func : option (StopFn W).
Variable i : nat.

Local Abbreviation exec1 := (exec env self user_function check_stop_func).

Lemma solo_drain (l : list Z) :
  forall (u : nat) (p : @Pool W),
    nth_error (threads p) i = Some AtDrainCheck ->
    queue p = {| items := l; unfinished_tasks := u |} ->
    exists n,
      exec1 (repeat (Worker i) n) p
      = Some (ended p i (world p) (drain l u)).
Proof.
  induction l as [|a rest IH]; intros u p Hi Hq.
  - exists 1%nat. simpl. unfold step_worker. rewrite Hi.
    unfold empty. rewrite Hq. simpl. unfold set_pc, ended. simpl.
    now rewrite app_nil_r, Hq.
  - assert (Hlen : (i < length (threads p))%nat).
    { apply nth_error_Some. congruence. }
    assert (Hs1 : step env self user_function check_stop_func (Worker i) p
                  = Some (set_pc i AtDrainGet p)).
    { simpl. unfold step_worker. rewrite Hi. unfold empty. now rewrite Hq. }
    destruct (task_done u) as [u'|e] eqn:Hu.
    + set (p2 := {| world := world p;
                    trace := trace p ++ [EGetNowait a; ETaskDone];
                    queue := {| items := rest; unfinished_tasks := u' |};
                    threads := update i AtDrainCheck
                                 (update i AtDrainGet (threads p));
                    joined := joined p; run_raised := run_raised p |}).
      assert (Hs2 : step env self user_function check_stop_func (Worker i)
                      (set_pc i AtDrainGet p) = Some p2).
      { simpl. unfold step_worker, set_pc. simpl.
        rewrite nth_error_update_eq by exact Hlen. rewrite Hq. simpl.
        now rewrite Hu. }
      destruct (IH u' p2) as [n Hn].
      { simpl. apply nth_error_update_eq. now rewrite length_update. }
      { reflexivity. }
      exists (S (S n)). cbn [repeat exec]. rewrite Hs1, Hs2, Hn.
      f_equal. unfold ended. cbn [drain]. rewrite Hu.
      destruct (drain rest u') as [[t q] x]. simpl.
      rewrite !update_update, <- app_assoc. reflexivity.
    + exists 2%nat. cbn [repeat exec]. rewrite Hs1.
      simpl. unfold step_worker, set_pc. simpl.
      rewrite nth_error_update_eq by exact Hlen. rewrite Hq. simpl.
      rewrite Hu. unfold ended. simpl. now rewrite update_update.
Qed.

(** Refinement: a thread at the head of its loop that takes all the steps
    ends where [thread_loop] says, with the same world, events and queue. *)
Lemma solo_thread_loop (l : list Z) :
  forall (u : nat) (p : @Pool W),
    nth_error (threads p) i = Some AtCheck ->
    queue p = {| items := l; unfinished_tasks := u |} ->
    exists n,
      exec1 (repeat (Worker i) n) p
      = Some (match thread_loop env self user_function check_stop_func
                                l u (world p) with
              | (w1, t1, q1, x) => ended p i w1 (t1, q1, x)
              end).
Proof.
  induction l as [|a rest IH]; intros u p Hi Hq.
  - exists 1%nat. simpl. unfold step_worker. rewrite Hi.
    unfold empty. rewrite Hq. simpl. unfold set_pc, ended. simpl.
    now rewrite app_nil_r, Hq.
  - assert (Hlen : (i < length (threads p))%nat).
    { apply nth_error_Some. congruence. }
    assert (Hs1 : step env self user_function check_stop_func (Worker i) p
                  = Some (set_pc i AtGet p)).
    { simpl. unfold step_worker. rewrite Hi. unfold empty. now rewrite Hq. }
    cbn [thread_loop].
    destruct (after_get env self user_function check_stop_func a u (world p))
      as [[[w1 t1] u1] r] eqn:Hget.
    set (p2 c := {| world := w1; trace := trace p ++ t1;
                    queue := {| items := rest; unfinished_tasks := u1 |};
                    threads := update i c (update i AtGet (threads p));
                    joined := joined p; run_raised := run_raised p |}).
    assert (Hs2 : step env self user_function check_stop_func (Worker i)
                    (set_pc i AtGet p)
                  = Some (p2 match r with
                             | Raise e => Crashed e
                             | Ok true => AtDrainCheck
                             | Ok false => AtCheck
                             end)).
    { simpl. unfold step_worker, set_pc. simpl.
      rewrite nth_error_update_eq by exact Hlen. rewrite Hq. simpl.
      now rewrite Hget. }
    destruct r as [[|]|e].
    + destruct (solo_drain rest u1 (p2 AtDrainCheck)) as [n Hn].
      { simpl. apply nth_error_update_eq. now rewrite length_update. }
      { reflexivity. }
      exists (S (S n)). cbn [repeat exec]. rewrite Hs1, Hs2, Hn.
      f_equal. unfold ended.
      destruct (drain rest u1) as [[t q] x]. simpl.
      rewrite !update_update, <- app_assoc. reflexivity.
    + destruct (IH u1 (p2 AtCheck)) as [n Hn].
      { simpl. apply nth_error_update_eq. now rewrite length_update. }
      { reflexivity. }
      exists (S (S n)). cbn [repeat exec]. rewrite Hs1, Hs2, Hn.
      f_equal. simpl.
      destruct (thread_loop env self user_function check_stop_func
                            rest u1 w1) as [[[w2 t2] q2] x].
      unfold ended. simpl.
      rewrite !update_update, <- app_assoc. reflexivity.
    + exists 2%nat. cbn [repeat exec]. rewrite Hs1, Hs2.
      unfold ended, p2. simpl. now rewrite update_update.
Qed.

End Solo.

(** With no instances, at least one action and at least one worker thread,
    the division by zero is reached in the run itself once the reset has
    completed: the first worker ends with [ZeroDivisionError]. *)
Lemma zero_instances_crash_reachable {W Driver : Type}
    (env : Env W Driver) (self : Torsel) (uf : UserFn W Driver)
    (stop : option (StopFn W)) (num_actions : Z) (w : W) :
  total_instances self = 0 ->
  1 <= num_actions ->
  1 <= max_threads self ->
  run_raised (run env self num_actions w) = None ->
  exists n p,
    exec env self uf stop (repeat (Worker 0) n) (run env self num_actions w)
    = Some p
    /\ nth_error (threads p) 0 = Some (Crashed ZeroDivisionError).
Proof.
  intros H0 HN HM Hrun.
  assert (Hth : exists k,
             threads (run env self num_actions w) = AtCheck :: repeat AtCheck k).
  { rewrite run_start by exact Hrun. simpl.
    exists (Z.to_nat (Z.min num_actions (max_threads self)) - 1)%nat.
    replace (Z.to_nat (Z.min num_actions (max_threads self)))
      with (S (Z.to_nat (Z.min num_actions (max_threads self)) - 1)) at 1
      by lia.
    reflexivity. }
  destruct Hth as [k Hth].
  destruct (solo_thread_loop env self uf stop 0 (range num_actions)
              (length (range num_actions)) (run env self num_actions w))
    as [n Hn].
  { now rewrite Hth. }
  { now apply run_queue. }
  exists n. eexists. split; [exact Hn|].
  rewrite (range_pos num_actions HN).
  rewrite thread_loop_zero_instances by exact H0.
  unfold ended. simpl. now rewrite Hth.
Qed.

(** * Further properties of the code *)

(** ** [clean_up] *)

Section ResetMore.

Context {W Driver : Type}.
Variable env : Env W Driver.
Variable self : Torsel.

Local Abbreviation instance_ports :=
  (flat_map (fun i => [socks_port self i; socks_port self i + 101])
            (range (total_instances self))).

Local Abbreviation loop_ports :=
  (map (fun i => tor_base_port self + i * 10) (range (total_instances self))).

(** One pass of the loop body frees only ports it has probed, and has
    probed only port numbers. *)
Lemma clean_up_port_kills_probed (port : Z) (w : W) :
  (forall p, In p (kills (snd (fst (clean_up_port env port w)))) ->
             In p (probes (snd (fst (clean_up_port env port w)))))
  /\ Forall (fun p => valid_port p = true)
            (probes (snd (fst (clean_up_port env port w)))).
Proof.
  unfold clean_up_port, bind, is_port_open, sys, ret.
  destruct (valid_port port) eqn:Hv1; [|split; [intros p []|constructor]].
  destruct (port_open env w port);
    destruct (valid_port (port + 101)) eqn:Hv2;
    try match goal with
        | |- context [port_open env ?w' (port + 101)] =>
            destruct (port_open env w' (port + 101))
        end;
    simpl; (split; [intuition | repeat constructor; assumption]).
Qed.

Lemma for_each_kills_probed (l : list Z) (w : W) :
  (forall p, In p (kills (snd (fst (for_each l (clean_up_port env) w)))) ->
             In p (probes (snd (fst (for_each l (clean_up_port env) w)))))
  /\ Forall (fun p => valid_port p = true)
            (probes (snd (fst (for_each l (clean_up_port env) w)))).
Proof.
  revert w. induction l as [|port l IH]; intros w; simpl.
  - split; [intros p []|constructor].
  - unfold bind.
    pose proof (clean_up_port_kills_probed port w) as [H1 H2].
    destruct (clean_up_port env port w) as [[w1 t1] [[]|e]]; simpl in *.
    + destruct (IH w1) as [H3 H4].
      destruct (for_each l (clean_up_port env) w1) as [[w2 t2] r2].
      simpl in *. rewrite kills_app, probes_app. split.
      * intros p. rewrite !in_app_iff. intros [H|H]; auto.
      * apply Forall_app. split; assumption.
    + split; assumption.
Qed.

(** The ports [clean_up] probes and frees are those of its loop. *)
Lemma clean_up_loop_ports (w : W) :
  (probes (snd (fst (clean_up env self w))) = []
   /\ kills (snd (fst (clean_up env self w))) = [])
  \/ exists wl,
       probes (snd (fst (clean_up env self w)))
       = probes (snd (fst (for_each loop_ports (clean_up_port env) wl)))
       /\ kills (snd (fst (clean_up env self w)))
          = kills (snd (fst (for_each loop_ports (clean_up_port env) wl))).
Proof.
  destruct (clean_up_decompose env self w)
    as (w1 & t & r & pre & tloop & post & wl & wl' & rl
        & Hc & -> & Hpre & Hpost & Hloop & _).
  destruct (clean_up_ends_probes pre post Hpre Hpost)
    as (Hp1 & Hk1 & Hp2 & Hk2 & _).
  rewrite Hc. cbn [fst snd].
  rewrite !probes_app, !kills_app, Hp1, Hk1, Hp2, Hk2, !app_nil_r. simpl.
  destruct Hloop as [-> | Hl]; [left; auto | right].
  exists wl. rewrite Hl. auto.
Qed.

Lemma instance_ports_length :
  length instance_ports = (2 * Z.to_nat (total_instances self))%nat.
Proof.
  rewrite <- range_length.
  generalize (range (total_instances self)). intros l.
  induction l as [|x l IH]; [reflexivity|].
  cbn [flat_map app length]. rewrite IH. lia.
Qed.

Lemma loop_ports_instance_ports :
  flat_map (fun port => [port; port + 101]) loop_ports = instance_ports.
Proof.
  rewrite flat_map_concat_map, map_map, <- flat_map_concat_map. reflexivity.
Qed.

(** With [killall] present, a port of the list that is not a port number
    makes [clean_up] raise [OverflowError]. *)
Lemma clean_up_invalid_port (w : W) :
  snd (killall_tor env w) = Ok tt ->
  ~ Forall (fun p => valid_port p = true) instance_ports ->
  snd (clean_up env self w) = Raise OverflowError.
Proof.
  intros Hkill Hbad. unfold clean_up. rewrite clean_up_range.
  unfold bind at 1. unfold sys at 1. unfold call.
  destruct (killall_tor env w) as [w0 [[]|e]];
    [|simpl in Hkill; discriminate].
  unfold bind at 1. unfold sys at 1. unfold bind at 1.
  pose proof (for_each_kills_probed loop_ports (os_call env (Sleep 1) w0))
    as [_ Hvalid].
  destruct (for_each_clean_up_port env loop_ports (os_call env (Sleep 1) w0))
    as (w2 & t2 & r2 & Hf & _ & _ & Hfull & _ & _ & Hr2).
  rewrite Hf in *. cbn [fst snd] in Hvalid.
  destruct Hr2 as [-> | ->]; [|reflexivity].
  exfalso. apply Hbad. rewrite <- loop_ports_instance_ports.
  now rewrite <- (Hfull eq_refl).
Qed.

(** X1.  [clean_up] goes through the instances in index order and probes
    the instance's SOCKS port and the port 101 above it, and nothing else.
    It stops at the first call that raises, so what it has probed is always
    a beginning of that list; when it returns, it has probed the whole
    list: two probes per instance, none when [total_instances <= 0].  Every
    port it frees is one of the ports it probed.  It returns when [killall]
    and [rmtree] do not raise and every port of the list is a port number
    (0..65535); with [killall] present and a port of the list that is not a
    port number, it raises [OverflowError]. *)
Theorem clean_up_probes_each_instance (w : W) :
  exists w1 t1 r,
    clean_up env self w = (w1, t1, r)
    /\ (exists rest, probes t1 ++ rest = instance_ports)
    /\ (r = Ok tt ->
        probes t1 = instance_ports
        /\ length (probes t1) = (2 * Z.to_nat (total_instances self))%nat)
    /\ (forall p, In p (kills t1) -> In p (probes t1))
    /\ (total_instances self <= 0 -> probes t1 = [] /\ kills t1 = [])
    /\ (snd (killall_tor env w) = Ok tt ->
        (forall w', snd (rmtree env w') = Ok tt) ->
        Forall (fun p => valid_port p = true) instance_ports ->
        r = Ok tt)
    /\ (snd (killall_tor env w) = Ok tt ->
        ~ Forall (fun p => valid_port p = true) instance_ports ->
        r = Raise OverflowError).
Proof.
  destruct (clean_up_spec env self w)
    as (w1 & t1 & r & Hc & (rest & Hpre) & Hk & Hfull & _).
  exists w1, t1, r. split; [exact Hc|]. split; [now exists rest|].
  split; [|split; [|split; [|split]]].
  - intros Hr. split; [now apply Hfull|].
    rewrite (Hfull Hr). apply instance_ports_length.
  - intros p Hin.
    destruct (clean_up_loop_ports w) as [[_ Hn] | (wl & Hp' & Hk')];
      rewrite Hc in *; cbn [fst snd] in *.
    + rewrite Hn in Hin. destruct Hin.
    + rewrite Hp'. apply for_each_kills_probed. now rewrite <- Hk'.
  - intros Hle.
    assert (Hnil : instance_ports = []).
    { apply length_zero_iff_nil. rewrite instance_ports_length. lia. }
    rewrite Hnil in Hpre. apply app_eq_nil in Hpre. split; [tauto|].
    destruct (kills t1) as [|p l] eqn:Hkl; [reflexivity|].
    destruct (Hk p) as (i & Hi & _); [now left | lia].
  - intros Hkill Hrm Hvalid.
    destruct (clean_up_decompose env self w)
      as (w1' & t' & r' & pre & tloop & post & wl & wl' & rl
          & Hc' & _ & _ & _ & _ & _ & Hret).
    rewrite Hc in Hc'. injection Hc' as _ _ <-.
    destruct (Hret Hkill Hrm) as (Hf & Hok). apply Hok.
    destruct (for_each_clean_up_port env loop_ports wl)
      as (w2 & t2 & r2 & Hf2 & _ & _ & _ & _ & Hv & _).
    rewrite Hf in Hf2. injection Hf2 as _ _ ->. apply Hv.
    rewrite Forall_forall in *. intros port Hport.
    apply in_map_iff in Hport. destruct Hport as (i & <- & Hi).
    split; apply Hvalid; apply in_flat_map; exists i; simpl; auto.
  - intros Hkill Hbad.
    pose proof (clean_up_invalid_port w Hkill Hbad) as H.
    now rewrite Hc in H.
Qed.

(** X2.  When the control base port is 101 above the SOCKS base port, as
    with the defaults, the ports [clean_up] probes are the SOCKS port and
    the control port of the instances of the pool, in index order: a
    beginning of that list when it raises, the whole list when it
    returns. *)
Theorem clean_up_covers_pool_at_offset_101 (w : W) :
  tor_control_base_port self = tor_base_port self + 101 ->
  (exists rest,
      probes (snd (fst (clean_up env self w))) ++ rest
      = flat_map (fun i => [socks_port self i; control_port self i])
                 (range (total_instances self)))
  /\ (snd (clean_up env self w) = Ok tt ->
      probes (snd (fst (clean_up env self w)))
      = flat_map (fun i => [socks_port self i; control_port self i])
                 (range (total_instances self))).
Proof.
  intros Hoff.
  assert (Heq : instance_ports
                = flat_map (fun i => [socks_port self i; control_port self i])
                           (range (total_instances self))).
  { apply flat_map_ext. intros i. unfold socks_port, control_port.
    rewrite Hoff. do 2 f_equal. lia. }
  destruct (clean_up_spec env self w)
    as (w1 & t1 & r & Hc & Hpre & _ & Hfull & _).
  rewrite Hc. cbn [fst snd]. rewrite <- Heq. split; assumption.
Qed.

(** When the answer of the probe does not depend on the moment it is asked,
    one pass of the loop body frees exactly the open ones of the ports it
    probes. *)
Lemma clean_up_port_static (open : Z -> bool) (port : Z) (w : W) :
  (forall w' p, port_open env w' p = open p) ->
  kills (snd (fst (clean_up_port env port w)))
  = filter open (probes (snd (fst (clean_up_port env port w)))).
Proof.
  intros Hst. unfold clean_up_port, bind, is_port_open, sys, ret.
  rewrite !Hst.
  destruct (valid_port port); [|reflexivity].
  destruct (open port) eqn:Ho1; simpl; rewrite ?Hst;
    destruct (valid_port (port + 101)); simpl; rewrite ?Ho1; try reflexivity;
    destruct (open (port + 101)) eqn:Ho2; simpl; rewrite ?Ho1, ?Ho2;
    reflexivity.
Qed.

Lemma for_each_clean_up_port_static (open : Z -> bool) (l : list Z) (w : W) :
  (forall w' p, port_open env w' p = open p) ->
  kills (snd (fst (for_each l (clean_up_port env) w)))
  = filter open (probes (snd (fst (for_each l (clean_up_port env) w)))).
Proof.
  intros Hst. revert w. induction l as [|port l IH]; intros w; simpl.
  - reflexivity.
  - unfold bind.
    pose proof (clean_up_port_static open port w Hst) as H1.
    destruct (clean_up_port env port w) as [[w1 t1] [[]|e]]; simpl in *.
    + specialize (IH w1).
      destruct (for_each l (clean_up_port env) w1) as [[w2 t2] r2].
      simpl in *. now rewrite kills_app, probes_app, filter_app, H1, IH.
    + exact H1.
Qed.

(** X3.  When the probe answers by a fixed set of open ports, [clean_up]
    frees exactly the probed ports that are open, each once and in the order
    of the probes; with no port open it frees nothing. *)
Theorem clean_up_frees_open_probed_ports (open : Z -> bool) (w : W) :
  (forall w' p, port_open env w' p = open p) ->
  kills (snd (fst (clean_up env self w)))
  = filter open (probes (snd (fst (clean_up env self w))))
  /\ ((forall p, open p = false) ->
      kills (snd (fst (clean_up env self w))) = []).
Proof.
  intros Hst.
  assert (Heq : kills (snd (fst (clean_up env self w)))
                = filter open (probes (snd (fst (clean_up env self w))))).
  { destruct (clean_up_loop_ports w) as [[-> ->] | (wl & -> & ->)].
    - reflexivity.
    - now apply for_each_clean_up_port_static. }
  split; [exact Heq|].
  intros Hno. rewrite Heq.
  generalize (probes (snd (fst (clean_up env self w)))). intros l.
  induction l as [|p l IH]; simpl; [reflexivity|].
  rewrite Hno. exact IH.
Qed.

End ResetMore.

(** The same at a pool whose last ports are beyond 65535: three instances
    from SOCKS base 65430.  The second pass of the loop probes 65440 and
    then raises at 65541; the third instance is never probed. *)
Example clean_up_port_out_of_range :
  let r := clean_up (sim_env [] (Ok tt)) (torsel_with 3 5 65430 65531) 0%nat in
  snd r = Raise OverflowError
  /\ probes (snd (fst r)) = [65430; 65531; 65440].
Proof. vm_compute. split; reflexivity. Qed.

Lemma clean_up_covers_pool_at_offset_101_witness :
  probes (snd (fst (clean_up (sim_env [] (Ok tt)) default_torsel 0%nat)))
  = flat_map (fun i => [socks_port default_torsel i;
                        control_port default_torsel i])
             (range (total_instances default_torsel)).
Proof.
  apply (clean_up_covers_pool_at_offset_101 (sim_env [] (Ok tt))
           default_torsel 0%nat).
  - reflexivity.
  - reflexivity.
Defined.

Lemma clean_up_frees_open_probed_ports_witness :
  let env := sim_env [9050; 9161; 7000] (Ok tt) in
  let self := torsel_with 2 5 9050 9151 in
  kills (snd (fst (clean_up env self 0%nat))) = [9050; 9161].
Proof.
  intros env self.
  rewrite (proj1 (clean_up_frees_open_probed_ports env self
                    (fun p => existsb (Z.eqb p) [9050; 9161; 7000]) 0%nat
                    (fun w' p => eq_refl))).
  vm_compute. reflexivity.
Defined.

(** ** [execute_function], [rotate_tor_ip] and the retry loop *)

Section AttemptsMore.

Context {W Driver : Type}.
Variable env : Env W Driver.
Variable self : Torsel.
Variable user_function : UserFn W Driver.

Lemma execute_function_counts (a i : Z) (w : W) :
  let tr := snd (fst (execute_function env self a i user_function w)) in
  count is_execute tr = 1%nat
  /\ (count is_usercall tr <= 1)%nat
  /\ (count is_quit tr <= count is_usercall tr)%nat
  /\ count is_rotate tr = 0%nat
  /\ (snd (execute_function env self a i user_function w) = Ok tt ->
      count is_usercall tr = 1%nat /\ count is_quit tr = 1%nat).
Proof.
  unfold execute_function, configure_selenium_with_tor, bind, emit, call.
  destruct (webdriver_Chrome env (headless self) (socks_port self i) w)
    as [w1 [d|e]]; simpl.
  - destruct (user_function d a i w1) as [w2 [[]|e]]; simpl.
    + destruct (driver_quit env d w2) as [w3 r]. simpl.
      unfold count; simpl. repeat split; auto.
    + unfold count; simpl. repeat split; auto; congruence.
  - unfold count; simpl. repeat split; auto; congruence.
Qed.

(** X4.  One call of [execute_function] asks the session factory for a
    session exactly once, with the headless flag of the pool and the SOCKS
    port of the instance, and invokes the user function at most once, and
    only when the factory returned a session; [driver.quit()] is called at
    most once and only after the user function was invoked; whenever
    [execute_function] returns normally the user function was invoked and
    the session was disposed of; no identity rotation happens inside it. *)
Theorem execute_function_session_accounting (a i : Z) (w : W) :
  let tr := snd (fst (execute_function env self a i user_function w)) in
  count is_execute tr = 1%nat
  /\ count is_chrome tr = 1%nat
  /\ In (EChrome (headless self) (socks_port self i)) tr
  /\ (count is_usercall tr <= 1)%nat
  /\ (count is_usercall tr = 1%nat ->
      exists d, snd (webdriver_Chrome env (headless self)
                                      (socks_port self i) w) = Ok d)
  /\ (count is_quit tr <= count is_usercall tr)%nat
  /\ count is_rotate tr = 0%nat
  /\ (snd (execute_function env self a i user_function w) = Ok tt ->
      count is_usercall tr = 1%nat /\ count is_quit tr = 1%nat).
Proof.
  unfold execute_function, configure_selenium_with_tor, bind, emit, call.
  destruct (webdriver_Chrome env (headless self) (socks_port self i) w)
    as [w1 [d|e]]; simpl.
  - destruct (user_function d a i w1) as [w2 [[]|e]]; simpl.
    + destruct (driver_quit env d w2) as [w3 r]. simpl.
      unfold count; simpl. repeat split; auto.
      intros _. now exists d.
    + unfold count; simpl. repeat split; auto; try congruence.
      intros _. now exists d.
  - unfold count; simpl. repeat split; auto; congruence.
Qed.

Lemma rotate_tor_ip_counts (i : Z) (w : W) :
  let tr := snd (fst (rotate_tor_ip env self i w)) in
  count is_rotate tr = 1%nat
  /\ count is_execute tr = 0%nat
  /\ count is_usercall tr = 0%nat
  /\ count is_quit tr = 0%nat.
Proof.
  unfold rotate_tor_ip, bind, emit, is_port_open, call, sys, ret.
  destruct (valid_port (tor_control_base_port self + i * 10));
    [|unfold count; simpl; repeat split].
  destruct (port_open env w (tor_control_base_port self + i * 10)); simpl.
  - destruct (tor_newnym env (tor_control_base_port self + i * 10) w)
      as [w1 [[]|e]]; simpl; unfold count; simpl; repeat split.
  - unfold count; simpl; repeat split.
Qed.

Lemma retry_loop_counts (n : nat) (a i : Z) :
  forall (w w' : W) (tr : list event) (r : res unit),
    retry_loop env self n a i user_function w = (w', tr, r) ->
    (count is_execute tr <= n)%nat
    /\ (Nat.min 1 n <= count is_execute tr)%nat
    /\ (count is_rotate tr <= count is_execute tr)%nat
    /\ (count is_execute tr <= S (count is_rotate tr))%nat
    /\ (count is_usercall tr <= count is_execute tr)%nat
    /\ (count is_quit tr <= count is_usercall tr)%nat.
Proof.
  induction n as [|n IH]; intros w w' tr r Hrun; cbn [retry_loop] in Hrun.
  - injection Hrun as _ <- _. unfold count. simpl. repeat split; lia.
  - pose proof (execute_function_counts a i w)
      as (Hx1 & Hx2 & Hx3 & Hx4 & _).
    destruct (execute_function env self a i user_function w)
      as [[w1 t1] [[]|e]]; cbn [fst snd] in *.
    + injection Hrun as _ <- _. repeat split; lia.
    + destruct (is_Exception e).
      2: { injection Hrun as _ <- _. repeat split; lia. }
      unfold bind in Hrun.
      pose proof (rotate_tor_ip_counts i w1) as (Hr1 & Hr2 & Hr3 & Hr4).
      destruct (rotate_tor_ip env self i w1) as [[w2 t2] [[]|e2]];
        cbn [fst snd] in *.
      * destruct (retry_loop env self n a i user_function w2)
          as [[w3 t3] r3] eqn:Hrec.
        destruct (IH _ _ _ _ Hrec) as (I1 & I2 & I3 & I4 & I5 & I6).
        injection Hrun as _ <- _.
        rewrite !count_app. repeat split; lia.
      * injection Hrun as _ <- _. rewrite !count_app. repeat split; lia.
Qed.

(** X5.  Whatever the user function, the session factory and the control
    channel do, a retry loop with [n] attempts left calls [execute_function]
    at most [n] times and at least once when [n >= 1]; it rotates only after
    an attempt, at most once per attempt, and every attempt but the last is
    followed by a rotation; the user function is invoked at most once per
    attempt and the session disposed of at most once per invocation. *)
Theorem retry_loop_bounds (n : nat) (a i : Z) (w : W) :
  let tr := snd (fst (retry_loop env self n a i user_function w)) in
  (count is_execute tr <= n)%nat
  /\ (Nat.min 1 n <= count is_execute tr)%nat
  /\ (count is_rotate tr <= count is_execute tr)%nat
  /\ (count is_execute tr <= S (count is_rotate tr))%nat
  /\ (count is_usercall tr <= count is_execute tr)%nat
  /\ (count is_quit tr <= count is_usercall tr)%nat.
Proof.
  destruct (retry_loop env self n a i user_function w) as [[w' tr] r] eqn:H.
  exact (retry_loop_counts n a i w w' tr r H).
Qed.

End AttemptsMore.

(** ** One pass of the worker loop *)

Lemma action_event_pass (self : Torsel) (a : Z) (e : event) :
  action_event self a (a mod total_instances self) e = true ->
  pass_event self a e = true.
Proof. destruct e; simpl; auto; discriminate. Qed.

Lemma action_events_dequeued (self : Torsel) (a i : Z) (l : list event) :
  Forall (fun e => action_event self a i e = true) l ->
  dequeued l = [] /\ count is_task_done l = 0%nat.
Proof.
  induction 1 as [|e l He _ [IH1 IH2]]; [split; reflexivity|].
  split.
  - simpl. rewrite IH1. destruct e; simpl in *; auto; discriminate.
  - rewrite count_cons, IH2. destruct e; simpl in *; auto; discriminate.
Qed.

Ltac action_events :=
  repeat constructor; simpl; unfold control_port;
  rewrite ?Z.eqb_refl, ?Bool.eqb_reflx; reflexivity.

Section PassMore.

Context {W Driver : Type}.
Variable env : Env W Driver.
Variable self : Torsel.
Variable user_function : UserFn W Driver.
Variable check_stop_func : option (StopFn W).

Lemma execute_function_action_events (a i : Z) (w : W) :
  Forall (fun e => action_event self a i e = true)
         (snd (fst (execute_function env self a i user_function w))).
Proof.
  unfold execute_function, configure_selenium_with_tor, bind, emit, call.
  destruct (webdriver_Chrome env (headless self) (socks_port self i) w)
    as [w1 [d|e]]; simpl.
  - destruct (user_function d a i w1) as [w2 [[]|e]]; simpl.
    + destruct (driver_quit env d w2) as [w3 r]. simpl. action_events.
    + action_events.
  - action_events.
Qed.

Lemma rotate_tor_ip_action_events (a i : Z) (w : W) :
  Forall (fun e => action_event self a i e = true)
         (snd (fst (rotate_tor_ip env self i w))).
Proof.
  unfold rotate_tor_ip, bind, emit, is_port_open, call, sys, ret.
  destruct (valid_port (tor_control_base_port self + i * 10));
    [|action_events].
  destruct (port_open env w (tor_control_base_port self + i * 10)); simpl.
  - destruct (tor_newnym env (tor_control_base_port self + i * 10) w)
      as [w1 [[]|e]]; simpl; action_events.
  - action_events.
Qed.

Lemma retry_loop_action_events (n : nat) (a i : Z) (w : W) :
  Forall (fun e => action_event self a i e = true)
         (snd (fst (retry_loop env self n a i user_function w))).
Proof.
  revert w. induction n as [|n IH]; intros w; cbn [retry_loop].
  - constructor.
  - pose proof (execute_function_action_events a i w) as Hx.
    destruct (execute_function env self a i user_function w)
      as [[w1 t1] [[]|e]]; simpl in *; [exact Hx|].
    destruct (is_Exception e); simpl; [|exact Hx].
    unfold bind at 1.
    pose proof (rotate_tor_ip_action_events a i w1) as Hr.
    destruct (rotate_tor_ip env self i w1) as [[w2 t2] [[]|e2]]; simpl in *.
    + specialize (IH w2).
      destruct (retry_loop env self n a i user_function w2)
        as [[w3 t3] r3]; simpl in *.
      apply Forall_app; split; [exact Hx|].
      apply Forall_app; split; assumption.
    + apply Forall_app; split; assumption.
Qed.

Lemma action_body_action_events (a : Z) (w : W) :
  Forall (fun e => action_event self a (a mod total_instances self) e = true)
         (snd (fst (action_body env self user_function a w))).
Proof.
  unfold action_body, bind at 1, py_mod.
  destruct (Z.eqb_spec (total_instances self) 0) as [H0|H0].
  { constructor. }
  unfold bind at 1.
  destruct (Z.ltb_spec a (total_instances self)) as [Hlt|Hge].
  - unfold create_tor_instance, bind, emit, call, sys.
    destruct (tor_launch env (a mod total_instances self)
                (socks_port self (a mod total_instances self))
                (control_port self (a mod total_instances self)) w)
      as [w1 [[]|e]]; cbn -[retry_loop Z.modulo].
    + match goal with
      | |- context [retry_loop env self ?n a ?i user_function ?w0] =>
          pose proof (retry_loop_action_events n a i w0) as HF;
          destruct (retry_loop env self n a i user_function w0)
            as [[w3 t3] r3]
      end. cbn [fst snd] in *.
      repeat (constructor;
              [simpl; rewrite ?Z.eqb_refl; reflexivity|]).
      exact HF.
    + repeat constructor; simpl; rewrite ?Z.eqb_refl; reflexivity.
  - unfold ret. cbn -[retry_loop Z.modulo].
    match goal with
    | |- context [retry_loop env self ?n a ?i user_function ?w0] =>
        pose proof (retry_loop_action_events n a i w0) as HF;
        destruct (retry_loop env self n a i user_function w0)
          as [[w3 t3] r3]
    end. exact HF.
Qed.

(** The three ways a pass can go: the body raises and the action is not
    marked done; [task_done] itself raises; or the action is marked done and
    the stop check, if any, is polled. *)
Lemma after_get_shape (a : Z) (u u1 : nat) (w w1 : W) (t1 : list event)
    (r : res bool) :
  after_get env self user_function check_stop_func a u w = (w1, t1, u1, r) ->
  exists tb,
    Forall (fun e => action_event self a (a mod total_instances self) e = true)
           tb
    /\ ((u1 = u /\ t1 = EGet a :: tb /\ exists e, r = Raise e)
        \/ (u = 0%nat /\ u1 = u /\ t1 = EGet a :: tb ++ [ETaskDone]
            /\ r = Raise ValueError)
        \/ (u = S u1
            /\ exists ts, t1 = EGet a :: tb ++ ETaskDone :: ts
                          /\ (ts = [] \/ ts = [EStopCheck]))).
Proof.
  unfold after_get, bind at 1, emit.
  pose proof (action_body_action_events a w) as HF.
  destruct (action_body env self user_function a w) as [[w2 t2] [[]|e]];
    cbn [fst snd] in HF.
  - destruct u as [|u]; simpl.
    + intros H. injection H as _ <- <- <-.
      exists t2. split; [exact HF|]. right. left. repeat split.
    + unfold stop_requested. destruct check_stop_func as [f|].
      * unfold call. destruct (f w2) as [w3 r3].
        intros H. injection H as _ <- <- _.
        exists t2. split; [exact HF|]. right. right.
        split; [reflexivity|]. exists [EStopCheck]. split; auto.
      * unfold ret. intros H. injection H as _ <- <- _.
        exists t2. split; [exact HF|]. right. right.
        split; [reflexivity|]. exists []. split; auto.
  - intros H. injection H as _ <- <- <-.
    exists t2. split; [exact HF|]. left. repeat split. now exists e.
Qed.

(** X6.  Everything a worker does for action [a], from the dequeue to the
    stop check, concerns the instance [a % total_instances] only: the
    instance created, rotated and executed on, the SOCKS port written to the
    torrc and given to the browser, and the control port written to the
    torrc, probed and signalled, are all that instance's; no other action is
    dequeued or executed, and no process is killed. *)
Theorem pass_stays_on_its_instance (a : Z) (u : nat) (w : W) :
  Forall (fun e => pass_event self a e = true)
         (snd (fst (fst (after_get env self user_function check_stop_func
                                   a u w)))).
Proof.
  destruct (after_get env self user_function check_stop_func a u w)
    as [[[w1 t1] u1] r] eqn:Hget.
  destruct (after_get_shape _ _ _ _ _ _ _ Hget) as (tb & HF & Hshape).
  assert (HF' : Forall (fun e => pass_event self a e = true) tb).
  { eapply Forall_impl; [|exact HF]. intros e. apply action_event_pass. }
  cbn [fst snd].
  destruct Hshape as [(_ & -> & _) | [(_ & _ & -> & _)
                                     | (_ & ts & -> & [-> | ->])]];
    constructor; try (simpl; apply Z.eqb_refl);
    try exact HF'; apply Forall_app; split; try exact HF';
    repeat constructor.
Qed.

End PassMore.

(** ** The worker loop as a whole, run by one thread on its own *)

Lemma dequeued_app (t1 t2 : list event) :
  dequeued (t1 ++ t2) = dequeued t1 ++ dequeued t2.
Proof. apply flat_map_app. Qed.

Lemma drain_fifo (l : list Z) :
  forall (u : nat) t q x,
    drain l u = (t, q, x) ->
    dequeued t ++ items q = l
    /\ (unfinished_tasks q <= u)%nat
    /\ (x = Returned ->
        items q = [] /\ (unfinished_tasks q + length l)%nat = u
        /\ count is_task_done t = length l).
Proof.
  induction l as [|a rest IH]; intros u t q x H; simpl in H.
  - injection H as <- <- <-. simpl. repeat split; lia.
  - destruct u as [|u]; simpl in H.
    + injection H as <- <- <-. simpl. repeat split; auto; discriminate.
    + destruct (drain rest u) as [[t2 q2] x2] eqn:Hd.
      injection H as <- <- <-.
      destruct (IH _ _ _ _ Hd) as (H1 & H2 & H3).
      simpl. rewrite H1. split; [reflexivity|]. split; [lia|].
      intros Hx. destruct (H3 Hx) as (Hi & Hu & Hc).
      rewrite count_cons, count_cons, Hc. simpl. repeat split; auto; lia.
Qed.

Lemma drain_trace_quiet (l : list Z) (u : nat) :
  Forall (fun e => match e with
                   | EGetNowait _ | ETaskDone => True
                   | _ => False
                   end)
         (fst (fst (drain l u))).
Proof.
  revert u. induction l as [|a rest IH]; intros u; simpl.
  - constructor.
  - destruct u as [|u]; simpl.
    + repeat constructor.
    + specialize (IH u). destruct (drain rest u) as [[t q] x]. simpl in *.
      repeat constructor. exact IH.
Qed.

Lemma created_before_use_mono (t : list event) :
  forall C C',
    (forall x, In x C -> In x C') ->
    created_before_use C t = true -> created_before_use C' t = true.
Proof.
  induction t as [|e t IH]; intros C C' Hin H; [reflexivity|].
  destruct e; simpl in *; try (eapply IH; eassumption).
  - eapply IH; [|exact H]. intros x [->|Hx]; [now left | right; auto].
  - apply andb_prop in H. destruct H as [H1 H2].
    apply andb_true_intro. split; [|eapply IH; eassumption].
    apply existsb_exists in H1. destruct H1 as (y & Hy & Hey).
    apply existsb_exists. exists y. auto.
Qed.

Lemma created_before_use_app (t1 t2 : list event) :
  forall C C2,
    created_before_use C t1 = true ->
    created_before_use C2 t2 = true ->
    (forall x, In x C2 -> In x C \/ In (ECreate x) t1) ->
    created_before_use C (t1 ++ t2) = true.
Proof.
  induction t1 as [|e t1 IH]; intros C C2 H1 H2 Hin.
  - simpl. eapply created_before_use_mono; [|exact H2].
    intros x Hx. destruct (Hin x Hx) as [H|[]]; exact H.
  - assert (Hother : forall D,
              (forall x, In x C2 -> In x D \/ In (ECreate x) t1) ->
              created_before_use D t1 = true ->
              created_before_use D (t1 ++ t2) = true).
    { intros D HD H. eapply IH; eauto. }
    assert (Hskip : (forall i, e <> ECreate i) ->
              forall x, In x C2 -> In x C \/ In (ECreate x) t1).
    { intros Hne x Hx. destruct (Hin x Hx) as [H|[H|H]]; auto.
      exfalso. eapply Hne. exact H. }
    destruct e; simpl in *;
      try (apply Hother; [apply Hskip; intros; discriminate | exact H1]).
    + apply Hother; [|exact H1].
      intros x Hx. destruct (Hin x Hx) as [H|[H|H]]; auto.
      * left. now right.
      * injection H as ->. left. now left.
    + apply andb_prop in H1. destruct H1 as [Ha Hb].
      apply andb_true_intro. split; [exact Ha|].
      apply Hother; [apply Hskip; intros; discriminate | exact Hb].
Qed.

Lemma created_before_use_body (total a : Z) (rest : list event) (C : list Z) :
  Forall (fun e => body_event total a e = true) rest ->
  In (a mod total) C ->
  created_before_use C rest = true.
Proof.
  intros HF Hin. induction HF as [|e rest He _ IH]; [reflexivity|].
  destruct e; simpl in *; try exact IH; try discriminate.
  apply andb_prop in He. destruct He as [_ He]. apply Z.eqb_eq in He. subst.
  apply andb_true_intro. split; [|exact IH].
  apply existsb_exists. exists (a mod total). split; [exact Hin|].
  apply Z.eqb_refl.
Qed.

Lemma created_before_use_drain (l : list Z) (u : nat) (C : list Z) :
  created_before_use C (fst (fst (drain l u))) = true.
Proof.
  pose proof (drain_trace_quiet l u) as HF.
  induction HF as [|e t He _ IH]; [reflexivity|].
  destruct e; simpl in *; try contradiction; exact IH.
Qed.

Section LoopMore.

Context {W Driver : Type}.
Variable env : Env W Driver.
Variable self : Torsel.
Variable user_function : UserFn W Driver.
Variable check_stop_func : option (StopFn W).

Lemma thread_loop_fifo (l : list Z) :
  forall (u : nat) (w w' : W) tr q x,
    thread_loop env self user_function check_stop_func l u w = (w', tr, q, x) ->
    dequeued tr ++ items q = l
    /\ (unfinished_tasks q <= u)%nat
    /\ (x = Returned ->
        items q = [] /\ (unfinished_tasks q + length l)%nat = u
        /\ count is_task_done tr = length l).
Proof.
  induction l as [|a rest IH]; intros u w w' tr q x H; cbn [thread_loop] in H.
  - injection H as _ <- <- <-. simpl. repeat split; lia.
  - destruct (after_get env self user_function check_stop_func a u w)
      as [[[w1 t1] u1] r] eqn:Hget.
    destruct (after_get_shape _ _ _ _ _ _ _ _ _ _ _ Hget)
      as (tb & HF & Hshape).
    destruct (action_events_dequeued _ _ _ _ HF) as (Hdq & Htd).
    assert (Ht1 : dequeued t1 = [a]).
    { destruct Hshape as [(_ & -> & _) | [(_ & _ & -> & _)
                                         | (_ & ts & -> & [-> | ->])]];
        simpl; rewrite ?dequeued_app, Hdq; reflexivity. }
    destruct r as [[|]|e].
    + destruct Hshape as [(_ & _ & e & He) | [(_ & _ & _ & He)
                                             | (Hu & ts & Hts & Hstop)]];
        try discriminate He.
      destruct (drain rest u1) as [[t2 q2] x2] eqn:Hd.
      injection H as _ <- <- <-.
      destruct (drain_fifo _ _ _ _ _ Hd) as (H1 & H2 & H3).
      rewrite dequeued_app, Ht1. simpl. rewrite H1.
      split; [reflexivity|]. split; [lia|].
      intros Hx. destruct (H3 Hx) as (Hi & Hun & Hc).
      split; [exact Hi|]. split; [simpl; lia|].
      rewrite count_app, Hc, Hts. rewrite count_cons, count_app, Htd.
      destruct Hstop as [-> | ->]; simpl; unfold count; simpl; lia.
    + destruct Hshape as [(_ & _ & e & He) | [(_ & _ & _ & He)
                                             | (Hu & ts & Hts & Hstop)]];
        try discriminate He.
      destruct (thread_loop env self user_function check_stop_func
                            rest u1 w1) as [[[w2 t2] q2] x2] eqn:Hrec.
      injection H as _ <- <- <-.
      destruct (IH _ _ _ _ _ _ Hrec) as (H1 & H2 & H3).
      rewrite dequeued_app, Ht1. simpl. rewrite H1.
      split; [reflexivity|]. split; [lia|].
      intros Hx. destruct (H3 Hx) as (Hi & Hun & Hc).
      split; [exact Hi|]. split; [simpl; lia|].
      rewrite count_app, Hc, Hts. rewrite count_cons, count_app, Htd.
      destruct Hstop as [-> | ->]; simpl; unfold count; simpl; lia.
    + injection H as _ <- <- <-. rewrite Ht1. simpl.
      split; [reflexivity|]. split; [|discriminate].
      destruct Hshape as [(-> & _) | [(_ & -> & _) | (-> & _)]]; lia.
Qed.

(** X7.  However a call of [thread_manager] ends, the actions it took from
    the queue, in the order it took them (executed or drained), followed by
    the items it left in the queue, are the queue it started with: a worker
    on its own takes the actions first in first out, takes none twice, and
    loses or adds none.  It never raises the count of unfinished tasks. *)
Theorem thread_manager_fifo (q : Queue) (w : W) :
  let R := thread_manager env self user_function check_stop_func q w in
  dequeued (snd (fst (fst R))) ++ items (snd (fst R)) = items q
  /\ (unfinished_tasks (snd (fst R)) <= unfinished_tasks q)%nat.
Proof.
  unfold thread_manager.
  destruct (thread_loop env self user_function check_stop_func
                        (items q) (unfinished_tasks q) w)
    as [[[w' tr] q'] x] eqn:H.
  destruct (thread_loop_fifo _ _ _ _ _ _ _ H) as (H1 & H2 & _).
  simpl. auto.
Qed.

(** X8.  When [thread_manager] returns normally, the queue is empty and
    [task_done] has been called exactly once for every item the queue held,
    whether the item was executed or drained; the count of unfinished tasks
    went down by the number of items. *)
Theorem thread_manager_return_marks_all_done (q : Queue) (w : W) :
  let R := thread_manager env self user_function check_stop_func q w in
  snd R = Returned ->
  items (snd (fst R)) = []
  /\ count is_task_done (snd (fst (fst R))) = length (items q)
  /\ length (dequeued (snd (fst (fst R)))) = length (items q)
  /\ (unfinished_tasks (snd (fst R)) + length (items q))%nat
     = unfinished_tasks q.
Proof.
  unfold thread_manager.
  destruct (thread_loop env self user_function check_stop_func
                        (items q) (unfinished_tasks q) w)
    as [[[w' tr] q'] x] eqn:H.
  destruct (thread_loop_fifo _ _ _ _ _ _ _ H) as (H1 & H2 & H3).
  simpl. intros Hx. destruct (H3 Hx) as (Hi & Hu & Hc).
  repeat split; auto.
  rewrite <- H1, Hi, app_nil_r. reflexivity.
Qed.

Lemma thread_loop_created_before_use (n : nat) :
  1 <= total_instances self ->
  forall (k : nat) (C : list Z) (u : nat) (w : W),
    (forall j, 0 <= j < Z.of_nat k -> j < total_instances self -> In j C) ->
    created_before_use C
      (snd (fst (fst (thread_loop env self user_function check_stop_func
                                  (map Z.of_nat (seq k n)) u w))))
    = true.
Proof.
  intros HT. induction n as [|n IH]; intros k C u w HC; [reflexivity|].
  cbn [seq map thread_loop].
  destruct (after_get env self user_function check_stop_func
                      (Z.of_nat k) u w) as [[[w1 t1] u1] r] eqn:Hget.
  destruct (after_get_trace _ _ _ _ _ _ _ _ _ _ _ Hget)
    as (rest & HF & Hshape).
  assert (Ht1 : created_before_use C t1 = true).
  { destruct Hshape as [(_ & Hlt & ->) | ([H0|Hge] & ->)]; [| lia |].
    - simpl. eapply created_before_use_body; [exact HF | now left].
    - simpl. eapply created_before_use_body; [exact HF|].
      apply HC; [|apply Z.mod_pos_bound; lia].
      pose proof (Z.mod_pos_bound (Z.of_nat k) (total_instances self)).
      lia. }
  assert (Hnew : Z.of_nat k < total_instances self ->
                 In (ECreate (Z.of_nat k)) t1).
  { intros Hlt.
    destruct Hshape as [(_ & _ & ->) | ([H0|Hge] & ->)]; [| lia | lia].
    rewrite Z.mod_small by lia. right. now left. }
  destruct r as [[|]|e]; cbn [fst snd].
  - pose proof (created_before_use_drain (map Z.of_nat (seq (S k) n)) u1 C)
      as Hq.
    destruct (drain (map Z.of_nat (seq (S k) n)) u1) as [[t2 q2] x2].
    cbn [fst snd] in *.
    eapply (created_before_use_app t1 t2 C C); [exact Ht1 | exact Hq | auto].
  - set (C2 := if Z.of_nat k <? total_instances self
               then Z.of_nat k :: C else C).
    specialize (IH (S k) C2 u1 w1).
    destruct (thread_loop env self user_function check_stop_func
                          (map Z.of_nat (seq (S k) n)) u1 w1)
      as [[[w2 t2] q2] x2]. cbn [fst snd] in *.
    eapply (created_before_use_app t1 t2 C C2); [exact Ht1 | |].
    + apply IH. intros j Hj HjT. unfold C2.
      destruct (Z.eq_dec j (Z.of_nat k)) as [->|Hne].
      * destruct (Z.ltb_spec (Z.of_nat k) (total_instances self));
          [now left | lia].
      * assert (In j C) by (apply HC; lia).
        destruct (Z.of_nat k <? total_instances self); [now right | easy].
    + intros x Hx. unfold C2 in Hx.
      destruct (Z.ltb_spec (Z.of_nat k) (total_instances self)) as [Hlt|Hge];
        [|now left].
      destruct Hx as [<-|Hx]; [right; now apply Hnew | now left].
  - exact Ht1.
Qed.

(** X9.  With at least one instance, a single worker that processes the
    queue seeded by [run] never executes an action on an instance that has
    not been created before in the same run: every call of
    [execute_function] for instance [i] comes after a call of
    [create_tor_instance] for [i]. *)
Theorem instance_created_before_use (num_actions : Z) (w : W) :
  1 <= total_instances self ->
  created_before_use []
    (snd (fst (fst (thread_manager env self user_function check_stop_func
                      (queue (run env self num_actions w))
                      (world (run env self num_actions w))))))
  = true.
Proof.
  intros HT.
  destruct (run_raised (run env self num_actions w)) as [e|] eqn:Hr.
  - (* [run] raised in the reset: the queue was not seeded *)
    destruct (run_raised_pool env self num_actions w e Hr) as (_ & ->).
    reflexivity.
  - rewrite run_queue by exact Hr. unfold thread_manager. cbn [items].
    unfold range. apply thread_loop_created_before_use; [exact HT|].
    intros j Hj. simpl in Hj. lia.
Qed.

End LoopMore.

(** ** The pool: accounting, bounded runs, and the pool of one worker *)

Lemma rank_sum_update (i : nat) (c c' : pc) (l : list pc) :
  nth_error l i = Some c ->
  (list_sum (map rank (update i c' l)) + rank c
   = list_sum (map rank l) + rank c')%nat.
Proof.
  revert i. induction l as [|y l IH]; intros [|i] H; simpl in *;
    try discriminate.
  - injection H as ->. lia.
  - specialize (IH i H). lia.
Qed.

Lemma rank_sum_repeat (k : nat) :
  list_sum (map rank (repeat AtCheck k)) = (3 * k)%nat.
Proof. induction k as [|k IH]; simpl in *; lia. Qed.

Section PoolMore.

Context {W Driver : Type}.
Variable env : Env W Driver.
Variable self : Torsel.
Variable user_function : UserFn W Driver.
Variable check_stop_func : option (StopFn W).

Local Abbreviation step := (step env self user_function check_stop_func).
Local Abbreviation exec := (exec env self user_function check_stop_func).

(** The pool after a step of worker [i], case by case. *)
Lemma step_worker_cases (i : nat) (p p' : @Pool W) :
  step_worker env self user_function check_stop_func i p = Some p' ->
  exists c,
    nth_error (threads p) i = Some c
    /\ ((c = AtCheck
         /\ p' = set_pc i (if empty (queue p) then Finished else AtGet) p)
        \/ (c = AtDrainCheck
            /\ p' = set_pc i
                      (if empty (queue p) then Finished else AtDrainGet) p)
        \/ (c = AtGet
            /\ exists a rest w1 t1 u1 r,
                 items (queue p) = a :: rest
                 /\ after_get env self user_function check_stop_func a
                      (unfinished_tasks (queue p)) (world p)
                    = (w1, t1, u1, r)
                 /\ p' = {| world := w1; trace := trace p ++ t1;
                            queue := {| items := rest;
                                        unfinished_tasks := u1 |};
                            threads :=
                              update i
                                match r with
                                | Raise e => Crashed e
                                | Ok true => AtDrainCheck
                                | Ok false => AtCheck
                                end (threads p);
                            joined := joined p;
                      run_raised := run_raised p |})
        \/ (c = AtDrainGet /\ items (queue p) = []
            /\ p' = set_pc i (Crashed QueueEmpty) p)
        \/ (c = AtDrainGet
            /\ exists a rest u1 c',
                 items (queue p) = a :: rest
                 /\ ((unfinished_tasks (queue p) = S u1 /\ c' = AtDrainCheck)
                     \/ (unfinished_tasks (queue p) = 0%nat /\ u1 = 0%nat
                         /\ c' = Crashed ValueError))
                 /\ p' = {| world := world p;
                            trace := trace p ++ [EGetNowait a; ETaskDone];
                            queue := {| items := rest;
                                        unfinished_tasks := u1 |};
                            threads := update i c' (threads p);
                            joined := joined p;
                      run_raised := run_raised p |})).
Proof.
  unfold step_worker.
  destruct (nth_error (threads p) i) as [[| | | | |e]|] eqn:Hi;
    try discriminate.
  - intros H. injection H as <-. exists AtCheck. split; auto.
  - destruct (items (queue p)) as [|a rest] eqn:Hq; [discriminate|].
    destruct (after_get env self user_function check_stop_func a
                        (unfinished_tasks (queue p)) (world p))
      as [[[w1 t1] u1] r] eqn:Hs.
    intros H. injection H as <-. exists AtGet. split; auto.
    right. right. left. split; auto.
    exists a, rest, w1, t1, u1, r. auto.
  - intros H. injection H as <-. exists AtDrainCheck. split; auto.
  - destruct (items (queue p)) as [|a rest] eqn:Hq.
    + intros H. injection H as <-. exists AtDrainGet. split; auto.
      right. right. right. left. auto.
    + destruct (unfinished_tasks (queue p)) as [|u1] eqn:Hu; simpl;
        intros H; injection H as <-; exists AtDrainGet; (split; [auto|]);
        do 4 right; split; auto.
      * exists a, rest, 0%nat, (Crashed ValueError).
        split; [reflexivity|]. split; [right; auto | reflexivity].
      * exists a, rest, u1, AtDrainCheck.
        split; [reflexivity|]. split; [left; auto | reflexivity].
Qed.

Lemma queue_inv_step (num_actions : Z) (a : actor) (p p' : @Pool W) :
  queue_inv num_actions p -> step a p = Some p' -> queue_inv num_actions p'.
Proof.
  intros (H1 & H2 & H3 & H4) Hs. destruct a as [|i]; simpl in Hs.
  { apply step_main_sound in Hs.
    destruct Hs as (c & _ & _ & _ & _ & _ & Ht & Hq).
    unfold queue_inv. rewrite Ht, Hq. auto. }
  apply step_worker_cases in Hs. destruct Hs as (c & Hc & Hs).
  destruct Hs as [(_ & ->) | [(_ & ->) | [(_ & Hs) | [(_ & _ & ->) | (_ & Hs)]]]];
    try (unfold queue_inv; simpl; auto; fail).
  - destruct Hs as (x & rest & w1 & t1 & u1 & r & Hq & Hget & ->).
    destruct (after_get_shape _ _ _ _ _ _ _ _ _ _ _ Hget)
      as (tb & HF & Hshape).
    destruct (action_events_dequeued _ _ _ _ HF) as (Hdq & Htd).
    rewrite Hq in *. simpl in H2.
    unfold queue_inv. simpl.
    rewrite dequeued_app, count_app, length_app.
    destruct Hshape as [(-> & -> & _) | [(Hu & _) | (Hu & ts & -> & Hts)]];
      [| exfalso; lia |].
    + simpl. rewrite Hdq, count_cons, Htd. simpl.
      rewrite <- app_assoc. simpl. repeat split; auto; lia.
    + simpl. rewrite dequeued_app, Hdq, count_cons, count_app, Htd.
      rewrite <- app_assoc. simpl.
      destruct Hts as [-> | ->];
        rewrite ?count_cons, ?count_nil; simpl;
        repeat split; auto; lia.
  - destruct Hs as (x & rest & u1 & c' & Hq & Hu & ->).
    rewrite Hq in *. simpl in H2.
    unfold queue_inv. simpl.
    rewrite dequeued_app, count_app, length_app. simpl.
    rewrite <- app_assoc. simpl. rewrite ?count_cons, ?count_nil. simpl.
    destruct Hu as [(Hu & _) | (Hu & _)]; [|exfalso; lia].
    repeat split; auto; lia.
Qed.

(** The reset takes nothing from the queue and marks nothing done. *)
Lemma reset_events_queue (l : list event) :
  Forall (fun e => reset_event e = true) l ->
  dequeued l = [] /\ count is_task_done l = 0%nat.
Proof.
  intros HF. induction HF as [|e l He _ [IH1 IH2]]; [split; reflexivity|].
  split.
  - simpl. rewrite IH1. destruct e; simpl in *; auto; discriminate.
  - rewrite count_cons, IH2. destruct e; simpl in *; auto; discriminate.
Qed.

(** When the reset raises, the pool stays as [run] left it: no queue, no
    thread, and the events of the reset only. *)
Lemma run_raised_exec (num_actions : Z) (w : W) (e : exn)
    (sched : list actor) (p : @Pool W) :
  run_raised (run env self num_actions w) = Some e ->
  exec sched (run env self num_actions w) = Some p ->
  p = run env self num_actions w
  /\ run_raised p = Some e /\ queue p = new_queue /\ threads p = []
  /\ joined p = 0%nat
  /\ Forall (fun e => reset_event e = true) (trace p).
Proof.
  intros Hr Hex.
  pose proof (run_raised_stuck env self user_function check_stop_func
                num_actions w e sched p Hr Hex) as ->.
  destruct (run_raised_pool env self num_actions w e Hr) as (_ & Hp).
  split; [reflexivity|]. split; [exact Hr|].
  rewrite Hp. cbn [queue threads joined trace]. repeat split.
  apply clean_up_events.
Qed.

Lemma queue_inv_start (num_actions : Z) (w : W) :
  run_raised (run env self num_actions w) = None ->
  queue_inv num_actions (run env self num_actions w).
Proof.
  intros Hr. rewrite run_start by exact Hr. unfold queue_inv. simpl.
  destruct (reset_events_queue _ (clean_up_events env self w)) as [-> ->].
  simpl. rewrite range_length.
  repeat split; auto; lia.
Qed.

(** The queue of every pool that [run] can reach: the invariant when the
    reset completed, and an untouched empty queue when it raised. *)
Lemma queue_inv_exec (num_actions : Z) (w : W) (sched : list actor)
    (p : @Pool W) :
  exec sched (run env self num_actions w) = Some p ->
  (run_raised p = None /\ queue_inv num_actions p)
  \/ (exists e, run_raised p = Some e /\ queue p = new_queue
                /\ dequeued (trace p) = []
                /\ count is_task_done (trace p) = 0%nat).
Proof.
  intros Hex.
  destruct (run_raised (run env self num_actions w)) as [e|] eqn:Hr.
  - right. exists e.
    destruct (run_raised_exec _ _ _ _ _ Hr Hex) as (_ & H1 & H2 & _ & _ & HF).
    destruct (reset_events_queue _ HF). auto.
  - left. split.
    + rewrite (exec_run_raised env self user_function check_stop_func
                 sched _ _ Hex). exact Hr.
    + revert Hex.
      apply (exec_invariant env self user_function check_stop_func).
      * intros a q q'. apply queue_inv_step.
      * now apply queue_inv_start.
Qed.

(** X10.  In a pool started by [run], in every interleaving and at every
    moment: the actions taken from the queue so far by all workers together
    ([get] or [get_nowait]), in the order they were taken, followed by the
    pending items, are exactly 0, 1, ..., num_actions - 1 once the reset has
    completed, and nothing at all when the reset raised (no queue is seeded
    then).  So the actions leave the queue in increasing order, no action is
    handed out twice, and none is lost or added. *)
Theorem pool_dequeues_each_action_once
    (num_actions : Z) (w : W) (sched : list actor) (p : @Pool W) :
  exec sched (run env self num_actions w) = Some p ->
  dequeued (trace p) ++ items (queue p)
  = match run_raised p with
    | None => range num_actions
    | Some _ => []
    end
  /\ NoDup (dequeued (trace p))
  /\ (forall a, In a (dequeued (trace p)) -> 0 <= a < num_actions).
Proof.
  intros Hex.
  destruct (queue_inv_exec num_actions w sched p Hex)
    as [(-> & H1 & _) | (e & -> & -> & -> & _)].
  - split; [exact H1|]. split.
    + pose proof (range_NoDup num_actions) as Hnd. rewrite <- H1 in Hnd.
      now apply NoDup_app_remove_r in Hnd.
    + intros a Ha. apply range_In. rewrite <- H1. apply in_or_app. now left.
  - split; [reflexivity|]. split; [constructor | intros a []].
Qed.

(** X11.  In a pool started by [run], in every interleaving and at every
    moment: the queue's count of unfinished tasks plus the number of
    [task_done] calls made so far is the number of actions once the reset
    has completed, and zero when the reset raised (no queue is seeded then);
    the count never falls below the number of pending items, so no
    [task_done] of a worker finds the count at zero; and [task_done] was
    called at most once per action taken from the queue. *)
Theorem pool_task_done_accounting
    (num_actions : Z) (w : W) (sched : list actor) (p : @Pool W) :
  exec sched (run env self num_actions w) = Some p ->
  (count is_task_done (trace p) + unfinished_tasks (queue p))%nat
  = match run_raised p with
    | None => Z.to_nat num_actions
    | Some _ => 0%nat
    end
  /\ (length (items (queue p)) <= unfinished_tasks (queue p))%nat
  /\ (count is_task_done (trace p) <= length (dequeued (trace p)))%nat
  /\ (items (queue p) <> [] ->
      exists u, task_done (unfinished_tasks (queue p)) = Ok u).
Proof.
  intros Hex.
  destruct (queue_inv_exec num_actions w sched p Hex)
    as [(-> & _ & H2 & H3 & H4) | (e & -> & -> & -> & ->)].
  - repeat split; auto.
    intros Hne. destruct (items (queue p)) as [|x l]; [congruence|].
    simpl in H2. destruct (unfinished_tasks (queue p)) as [|u]; [lia|].
    now exists u.
  - simpl. repeat split; auto. congruence.
Qed.

End PoolMore.

Section PoolBounded.

Context {W Driver : Type}.
Variable env : Env W Driver.
Variable self : Torsel.
Variable user_function : UserFn W Driver.
Variable check_stop_func : option (StopFn W).

Local Abbreviation step := (step env self user_function check_stop_func).
Local Abbreviation exec := (exec env self user_function check_stop_func).

Lemma measure_set_pc (i : nat) (c c' : pc) (p : @Pool W) :
  nth_error (threads p) i = Some c ->
  (rank c' < rank c)%nat ->
  (S (measure (set_pc i c' p)) <= measure p)%nat.
Proof.
  intros Hc Hr. unfold measure, set_pc. simpl.
  pose proof (rank_sum_update i c c' (threads p) Hc).
  rewrite length_update. lia.
Qed.

(** Every step of the pool lowers [measure]. *)
Lemma measure_step (a : actor) (p p' : @Pool W) :
  step a p = Some p' -> (S (measure p') <= measure p)%nat.
Proof.
  intros Hs. destruct a as [|i]; simpl in Hs.
  { apply step_main_sound in Hs.
    destruct Hs as (c & Hc & _ & Hth & Hj & _ & _ & Hq).
    assert (joined p < length (threads p))%nat.
    { apply nth_error_Some. congruence. }
    unfold measure. rewrite Hth, Hj, Hq. lia. }
  apply (step_worker_cases env self user_function check_stop_func) in Hs.
  destruct Hs as (c & Hc & Hs).
  destruct Hs as [(-> & ->) | [(-> & ->) | [(-> & Hs)
                                          | [(-> & _ & ->) | (-> & Hs)]]]].
  - eapply measure_set_pc; [exact Hc|].
    destruct (empty (queue p)); simpl; lia.
  - eapply measure_set_pc; [exact Hc|].
    destruct (empty (queue p)); simpl; lia.
  - destruct Hs as (x & rest & w1 & t1 & u1 & r & Hq & _ & ->).
    unfold measure. simpl. rewrite Hq, length_update. simpl.
    match goal with
    | |- context [update i ?c' (threads p)] =>
        pose proof (rank_sum_update i AtGet c' (threads p) Hc) as Hsum;
        assert (rank c' <= 3)%nat by (destruct r as [[|]|e]; simpl; lia)
    end.
    simpl in Hsum. lia.
  - eapply measure_set_pc; [exact Hc|]. simpl. lia.
  - destruct Hs as (x & rest & u1 & c' & Hq & Hu & ->).
    unfold measure. simpl. rewrite Hq, length_update. simpl.
    pose proof (rank_sum_update i AtDrainGet c' (threads p) Hc) as Hsum.
    assert (rank c' <= 3)%nat.
    { destruct Hu as [(_ & ->) | (_ & _ & ->)]; simpl; lia. }
    simpl in Hsum. lia.
Qed.

Lemma exec_measure (sched : list actor) :
  forall p p' : @Pool W,
    exec sched p = Some p' -> (length sched + measure p' <= measure p)%nat.
Proof.
  induction sched as [|a sched IH]; intros p p' H; simpl in H.
  - injection H as <-. simpl. lia.
  - destruct (step a p) as [p1|] eqn:Hs; [|discriminate].
    pose proof (measure_step _ _ _ Hs). specialize (IH _ _ H). simpl. lia.
Qed.

(** X12.  A run cannot go on for ever by itself: whatever the order in
    which the workers and [run] take their steps, they take at most
    2 * num_actions + 4 * (number of workers) of them (two queue operations
    per action, and for each worker a last emptiness check, a pass through
    the drain, and its join).  So every run ends either with [run]
    returning or with the remaining threads blocked. *)
Theorem pool_steps_bounded
    (num_actions : Z) (w : W) (sched : list actor) (p : @Pool W) :
  exec sched (run env self num_actions w) = Some p ->
  (length sched
   <= 2 * Z.to_nat num_actions
      + 4 * Z.to_nat (Z.min num_actions (max_threads self)))%nat.
Proof.
  intros Hex. apply exec_measure in Hex.
  destruct (run_raised (run env self num_actions w)) as [e|] eqn:Hr.
  - (* the reset raised: no step at all *)
    destruct (run_raised_pool env self num_actions w e Hr) as (_ & Hp).
    rewrite Hp in Hex. unfold measure at 2 in Hex. simpl in Hex. lia.
  - rewrite run_start in Hex by exact Hr.
    unfold measure at 2 in Hex. simpl in Hex.
    rewrite range_length, rank_sum_repeat, repeat_length in Hex. lia.
Qed.

(** *** One worker *)

Lemma sole_thread (p : @Pool W) (c c0 : pc) (i : nat) :
  threads p = [c] -> nth_error (threads p) i = Some c0 -> i = 0%nat /\ c0 = c.
Proof.
  intros Hth Hi. rewrite Hth in Hi.
  destruct i as [|[|i]]; simpl in Hi; try discriminate.
  injection Hi as <-. auto.
Qed.

Lemma sole_inv_step (a : actor) (p p' : @Pool W) :
  sole_inv p -> step a p = Some p' -> sole_inv p'.
Proof.
  intros (c & Hth & Hj & Hget & Hend) Hs. destruct a as [|i]; simpl in Hs.
  { apply step_main_sound in Hs.
    destruct Hs as (c0 & Hc0 & Ht & Hth' & Hj' & _ & _ & Hq).
    assert (joined p = 0%nat /\ c0 = c) as [Hj0 ->].
    { eapply sole_thread; eauto. }
    exists c. rewrite Hth', Hj', Hq, Hj0. repeat split; auto. }
  apply (step_worker_cases env self user_function check_stop_func) in Hs.
  destruct Hs as (c0 & Hc0 & Hs).
  assert (i = 0%nat /\ c0 = c) as [-> ->].
  { eapply sole_thread; eauto. }
  assert (Hmk : forall (q : @Pool W) (c' : pc),
            terminated c = false ->
            threads q = [c'] -> joined q = joined p ->
            (c' = AtGet \/ c' = AtDrainGet -> items (queue q) <> []) ->
            sole_inv q).
  { intros q c' Hc Hq1 Hq2 Hq3. exists c'. rewrite Hq2.
    repeat split; auto.
    intros Hone. rewrite (Hend Hone) in Hc. discriminate Hc. }
  destruct Hs as [(-> & ->) | [(-> & ->) | [(-> & Hs)
                                          | [(-> & _ & ->) | (-> & Hs)]]]].
  - apply (Hmk _ (if empty (queue p) then Finished else AtGet));
      try reflexivity.
    + unfold set_pc. simpl. now rewrite Hth.
    + unfold empty, set_pc. simpl.
      destruct (items (queue p)); intros [H|H]; try discriminate H.
      discriminate.
  - apply (Hmk _ (if empty (queue p) then Finished else AtDrainGet));
      try reflexivity.
    + unfold set_pc. simpl. now rewrite Hth.
    + unfold empty, set_pc. simpl.
      destruct (items (queue p)); intros [H|H]; try discriminate H.
      discriminate.
  - destruct Hs as (x & rest & w1 & t1 & u1 & r & Hq & _ & ->).
    eapply Hmk; try reflexivity.
    + simpl. rewrite Hth. reflexivity.
    + destruct r as [[|]|e]; intros [H|H]; discriminate H.
  - eapply Hmk; try reflexivity.
    + unfold set_pc. simpl. rewrite Hth. reflexivity.
    + intros [H|H]; discriminate H.
  - destruct Hs as (x & rest & u1 & c' & Hq & Hu & ->).
    eapply Hmk; try reflexivity.
    + simpl. rewrite Hth. reflexivity.
    + destruct Hu as [(_ & ->) | (_ & _ & ->)]; intros [H|H]; discriminate H.
Qed.

Lemma sole_inv_start (num_actions : Z) (w : W) :
  Z.to_nat (Z.min num_actions (max_threads self)) = 1%nat ->
  run_raised (run env self num_actions w) = None ->
  sole_inv (run env self num_actions w).
Proof.
  intros H1 Hr. rewrite run_start by exact Hr.
  exists AtCheck. simpl. rewrite H1.
  repeat split; auto; try lia; intros [H|H]; discriminate H.
Qed.

(** X13.  With exactly one worker, the worker never waits for the queue:
    in every state reachable from the start of [run], a worker that is about
    to call [queue.get()] (line 175) or [queue.get_nowait()] (line 193)
    finds an item in the queue, so [get] returns at once and [get_nowait]
    does not raise [queue.Empty]; and [run] has joined the worker only after
    it has ended.  (With two workers this fails: the second [get] can find
    the queue empty.)  Whether the calls to the outside return is not part
    of the property. *)
Theorem single_worker_get_never_waits
    (num_actions : Z) (w : W) (sched : list actor) (p : @Pool W) :
  Z.to_nat (Z.min num_actions (max_threads self)) = 1%nat ->
  exec sched (run env self num_actions w) = Some p ->
  (length (threads p) <= 1)%nat
  /\ (forall i c,
         nth_error (threads p) i = Some c ->
         (c = AtGet \/ c = AtDrainGet -> items (queue p) <> [])
         /\ (c = AtDrainGet ->
             forall p', step (Worker i) p = Some p' ->
                        nth_error (threads p') i
                        <> Some (Crashed QueueEmpty))
         /\ (joined p = 1%nat -> terminated c = true)).
Proof.
  intros H1 Hex.
  destruct (run_raised (run env self num_actions w)) as [e|] eqn:Hr.
  { (* the reset raised: there is no worker *)
    pose proof (run_raised_stuck env self user_function check_stop_func
                  num_actions w e sched p Hr Hex) as ->.
    destruct (run_raised_pool env self num_actions w e Hr) as (_ & ->).
    simpl. split; [lia|]. intros [|i] c Hc; discriminate Hc. }
  assert (Hinv : sole_inv p).
  { revert Hex.
    apply (exec_invariant env self user_function check_stop_func).
    - intros a q q'. apply sole_inv_step.
    - now apply sole_inv_start. }
  destruct Hinv as (c & Hth & Hj & Hget & Hend).
  split; [rewrite Hth; simpl; lia|].
  intros i c0 Hc0. destruct (sole_thread p c c0 i Hth Hc0) as [-> ->].
  split; [exact Hget|]. split; [|exact Hend].
  intros -> p' Hs. simpl in Hs.
  apply (step_worker_cases env self user_function check_stop_func) in Hs.
  destruct Hs as (c1 & Hc1 & Hs). rewrite Hc0 in Hc1. injection Hc1 as <-.
  destruct Hs as [(H & _) | [(H & _) | [(H & _)
                                      | [(_ & Hq & _) | (_ & Hs)]]]];
    try discriminate H.
  - exfalso. apply Hget; auto.
  - destruct Hs as (x & rest & u1 & c' & Hq & Hu & ->). simpl.
    rewrite Hth. simpl.
    destruct Hu as [(_ & ->) | (_ & _ & ->)]; discriminate.
Qed.

Lemma sole_returned_stuck (p : @Pool W) (a : actor) :
  sole_inv p -> returned p = true -> step a p = None.
Proof.
  intros (c & Hth & Hj & Hget & Hend) Hr.
  unfold returned in Hr.
  destruct (run_raised p) eqn:Hrr; [discriminate Hr|].
  rewrite Hth in Hr. simpl in Hr.
  apply Nat.eqb_eq in Hr. specialize (Hend Hr).
  destruct a as [|i]; simpl.
  - unfold step_main. rewrite Hrr, Hth, Hr. reflexivity.
  - unfold step_worker. rewrite Hth.
    destruct i as [|[|i]]; simpl; auto.
    destruct c; try discriminate Hend; reflexivity.
Qed.

Lemma sole_step_unique (p p1 p2 : @Pool W) (a b : actor) :
  sole_inv p -> step a p = Some p1 -> step b p = Some p2 -> p1 = p2.
Proof.
  intros (c & Hth & Hj & Hget & Hend) Ha Hb.
  assert (Hw : forall i q, step (Worker i) p = Some q ->
                 i = 0%nat /\ terminated c = false).
  { intros i q Hs. simpl in Hs.
    apply (step_worker_cases env self user_function check_stop_func) in Hs.
    destruct Hs as (c0 & Hc0 & Hs).
    destruct (sole_thread p c c0 i Hth Hc0) as [-> ->]. split; [reflexivity|].
    destruct Hs as [(-> & _) | [(-> & _) | [(-> & _)
                                          | [(-> & _) | (-> & _)]]]];
      reflexivity. }
  assert (Hm : forall q, step Main p = Some q -> terminated c = true).
  { intros q Hs. simpl in Hs. apply step_main_sound in Hs.
    destruct Hs as (c0 & Hc0 & Ht & _).
    destruct (sole_thread p c c0 _ Hth Hc0) as [_ ->]. exact Ht. }
  destruct a as [|i], b as [|j].
  - congruence.
  - destruct (Hw _ _ Hb) as [_ H]. rewrite (Hm _ Ha) in H. discriminate H.
  - destruct (Hw _ _ Ha) as [_ H]. rewrite (Hm _ Hb) in H. discriminate H.
  - destruct (Hw _ _ Ha) as [-> _]. destruct (Hw _ _ Hb) as [-> _].
    congruence.
Qed.

Lemma sole_result_unique (s1 : list actor) :
  forall (s2 : list actor) (p p1 p2 : @Pool W),
    sole_inv p ->
    exec s1 p = Some p1 -> returned p1 = true ->
    exec s2 p = Some p2 -> returned p2 = true ->
    p1 = p2.
Proof.
  induction s1 as [|a s1 IH]; intros s2 p p1 p2 Hinv H1 R1 H2 R2.
  - simpl in H1. injection H1 as <-.
    destruct s2 as [|b s2]; simpl in H2; [congruence|].
    rewrite (sole_returned_stuck p b Hinv R1) in H2. discriminate H2.
  - simpl in H1. destruct (step a p) as [q1|] eqn:Ha; [|discriminate].
    destruct s2 as [|b s2]; simpl in H2.
    + injection H2 as <-.
      rewrite (sole_returned_stuck p a Hinv R2) in Ha. discriminate Ha.
    + destruct (step b p) as [q2|] eqn:Hb; [|discriminate].
      assert (q1 = q2) by (eapply sole_step_unique; eauto). subst q2.
      eapply (IH s2 q1); eauto. eapply sole_inv_step; eauto.
Qed.

(** X14.  With exactly one worker, [run] is the composition of [clean_up],
    the seeding of the queue and one call of [thread_manager]: whatever the
    schedule, once [run] has returned, the world, the events and the queue
    are those that [thread_manager] produces on the seeded queue in the
    world left by [clean_up], and the worker has ended the way
    [thread_manager] ends. *)
Theorem single_worker_run_is_thread_manager
    (num_actions : Z) (w : W) (sched : list actor) (p : @Pool W) :
  Z.to_nat (Z.min num_actions (max_threads self)) = 1%nat ->
  exec sched (run env self num_actions w) = Some p ->
  returned p = true ->
  let p0 := run env self num_actions w in
  let R := thread_manager env self user_function check_stop_func
                          (queue p0) (world p0) in
  world p = fst (fst (fst R))
  /\ trace p = snd (fst (clean_up env self w)) ++ snd (fst (fst R))
  /\ queue p = snd (fst R)
  /\ threads p = [pc_of_exit (snd R)].
Proof.
  intros H1 Hex Hret p0 R.
  assert (Hr : run_raised p0 = None).
  { unfold p0.
    rewrite <- (exec_run_raised env self user_function check_stop_func
                  sched _ _ Hex).
    unfold returned in Hret. now destruct (run_raised p). }
  assert (Hinv0 : sole_inv p0) by now apply sole_inv_start.
  assert (Hth0 : threads p0 = [AtCheck]).
  { unfold p0. rewrite run_start by exact Hr. simpl. now rewrite H1. }
  assert (Htr0 : trace p0 = snd (fst (clean_up env self w))).
  { unfold p0. now rewrite run_start by exact Hr. }
  destruct (solo_thread_loop env self user_function check_stop_func 0
              (items (queue p0)) (unfinished_tasks (queue p0)) p0)
    as [n Hn].
  { now rewrite Hth0. }
  { now destruct (queue p0). }
  fold (thread_manager env self user_function check_stop_func
                       (queue p0) (world p0)) in Hn.
  fold R in Hn. destruct R as [[[w1 t1] q1] x] eqn:HR. cbn [fst snd].
  set (pe := ended p0 0 w1 (t1, q1, x)) in *.
  set (pf := {| world := world pe; trace := trace pe; queue := queue pe;
                threads := threads pe; joined := 1;
                run_raised := None |}).
  assert (Hsm : step_main pe = Some pf).
  { assert (Hj : joined pe = 0%nat).
    { unfold pe, ended. simpl. unfold p0. now rewrite run_start by exact Hr. }
    assert (Hpc : nth_error (threads pe) 0 = Some (pc_of_exit x)).
    { unfold pe, ended. simpl. now rewrite Hth0. }
    assert (Hre : run_raised pe = None).
    { unfold pe, ended. simpl. exact Hr. }
    unfold step_main. rewrite Hre, Hj, Hpc.
    replace (terminated (pc_of_exit x)) with true by (now destruct x).
    unfold pf. reflexivity. }
  assert (Hfin : exec (repeat (Worker 0) n ++ [Main]) p0 = Some pf).
  { rewrite exec_app, Hn.
    change (exec [Main] pe)
      with (match step_main pe with
            | Some p' => Some p'
            | None => None
            end).
    now rewrite Hsm. }
  assert (Hpf : returned pf = true).
  { unfold returned, pf, pe, ended. simpl. rewrite Hth0. reflexivity. }
  assert (p = pf).
  { eapply (sole_result_unique sched (repeat (Worker 0) n ++ [Main]) p0);
      eauto. }
  subst p. unfold pf, pe, ended. simpl. rewrite Hth0, Htr0. auto.
Qed.

End PoolBounded.

(** ** Concrete instances of the further properties *)

Lemma clean_up_probes_each_instance_witness :
  let env := sim_env [9050] (Ok tt) in
  let self := torsel_with 2 5 9050 9151 in
  snd (clean_up env self 0%nat) = Ok tt
  /\ probes (snd (fst (clean_up env self 0%nat))) = [9050; 9151; 9060; 9161].
Proof.
  intros env self.
  destruct (clean_up_probes_each_instance env self 0%nat)
    as (w1 & t1 & r & Hc & _ & Hfull & _ & _ & Hret & _).
  assert (Hr : r = Ok tt).
  { apply Hret; [reflexivity | intros w'; reflexivity |].
    repeat constructor. }
  rewrite Hc. cbn [fst snd]. split; [exact Hr|].
  destruct (Hfull Hr) as [-> _]. reflexivity.
Defined.

Lemma execute_function_session_accounting_witness :
  let tr := snd (fst (execute_function (sim_env [] (Ok tt)) default_torsel
                                       3 3 always_succeeds 0%nat)) in
  count is_usercall tr = 1%nat /\ count is_quit tr = 1%nat.
Proof.
  apply (execute_function_session_accounting (sim_env [] (Ok tt))
           default_torsel always_succeeds 3 3 0%nat).
  reflexivity.
Defined.

Lemma thread_manager_return_marks_all_done_witness :
  let R := thread_manager (sim_env [] (Ok tt)) (torsel_with 2 1 9050 9151)
             always_raises None
             {| items := [0; 1; 2]; unfinished_tasks := 3 |} 0%nat in
  items (snd (fst R)) = []
  /\ count is_task_done (snd (fst (fst R))) = 3%nat
  /\ length (dequeued (snd (fst (fst R)))) = 3%nat
  /\ (unfinished_tasks (snd (fst R)) + 3)%nat = 3%nat.
Proof.
  apply (thread_manager_return_marks_all_done (sim_env [] (Ok tt))
           (torsel_with 2 1 9050 9151) always_raises None
           {| items := [0; 1; 2]; unfinished_tasks := 3 |} 0%nat).
  vm_compute. reflexivity.
Defined.

Lemma instance_created_before_use_witness :
  created_before_use []
    (snd (fst (fst (thread_manager (sim_env [] (Ok tt))
                      (torsel_with 2 1 9050 9151) always_succeeds None
                      (queue (run (sim_env [] (Ok tt))
                                  (torsel_with 2 1 9050 9151) 5 0%nat))
                      (world (run (sim_env [] (Ok tt))
                                  (torsel_with 2 1 9050 9151) 5 0%nat))))))
  = true.
Proof.
  apply (instance_created_before_use (sim_env [] (Ok tt))
           (torsel_with 2 1 9050 9151) always_succeeds None 5 0%nat).
  simpl. lia.
Defined.

Lemma pool_dequeues_each_action_once_witness :
  let env := sim_env [] (Ok tt) in
  let self := torsel_with 2 2 9050 9151 in
  exists p,
    exec env self always_succeeds (Some stop_now)
         [Worker 0; Worker 1; Worker 1; Worker 0; Worker 1]
         (run env self 3 0%nat) = Some p
    /\ dequeued (trace p) ++ items (queue p) = range 3
    /\ NoDup (dequeued (trace p)).
Proof.
  intros env self. eexists. split; [vm_compute; reflexivity|].
  destruct (pool_dequeues_each_action_once env self always_succeeds
              (Some stop_now) 3 0%nat
              [Worker 0; Worker 1; Worker 1; Worker 0; Worker 1]%nat
              _ ltac:(vm_compute; reflexivity)) as (H1 & H2 & _).
  split; [exact H1 | exact H2].
Defined.

Lemma pool_task_done_accounting_witness :
  let env := sim_env [] (Ok tt) in
  let self := torsel_with 2 2 9050 9151 in
  exists p,
    exec env self always_succeeds None
         [Worker 0; Worker 1; Worker 1] (run env self 3 0%nat) = Some p
    /\ (count is_task_done (trace p) + unfinished_tasks (queue p))%nat = 3%nat
    /\ exists u, task_done (unfinished_tasks (queue p)) = Ok u.
Proof.
  intros env self. eexists. split; [vm_compute; reflexivity|].
  destruct (pool_task_done_accounting env self always_succeeds None 3 0%nat
              [Worker 0; Worker 1; Worker 1]%nat
              _ ltac:(vm_compute; reflexivity)) as (H1 & _ & _ & H4).
  split; [exact H1|]. apply H4. simpl. discriminate.
Defined.

Lemma pool_steps_bounded_witness :
  (length [Worker 0; Worker 1; Worker 0; Worker 0; Worker 0; Worker 0; Main]
   <= 2 * 2 + 4 * 2)%nat.
Proof.
  apply (pool_steps_bounded (sim_env [] (Ok tt)) (torsel_with 1 2 9050 9151)
           always_succeeds None 2 0%nat
           [Worker 0; Worker 1; Worker 0; Worker 0; Worker 0; Worker 0; Main]
           _ ltac:(vm_compute; reflexivity)).
Defined.

Lemma single_worker_get_never_waits_witness :
  let env := sim_env [] (Ok tt) in
  let self := torsel_with 2 1 9050 9151 in
  exists p,
    exec env self always_succeeds None [Worker 0; Worker 0; Worker 0]
         (run env self 2 0%nat) = Some p
    /\ nth_error (threads p) 0 = Some AtGet
    /\ items (queue p) <> [].
Proof.
  intros env self. eexists. split; [vm_compute; reflexivity|].
  split; [vm_compute; reflexivity|].
  destruct (single_worker_get_never_waits env self always_succeeds None
              2 0%nat [Worker 0; Worker 0; Worker 0]%nat
              _ eq_refl ltac:(vm_compute; reflexivity)) as (_ & H).
  destruct (H 0%nat AtGet ltac:(vm_compute; reflexivity)) as (Hq & _).
  apply Hq. now left.
Defined.

Lemma single_worker_run_is_thread_manager_witness :
  let env := sim_env [] (Ok tt) in
  let self := torsel_with 2 1 9050 9151 in
  exists p,
    exec env self always_succeeds None
         [Worker 0; Worker 0; Worker 0; Worker 0; Worker 0; Main]
         (run env self 2 0%nat) = Some p
    /\ queue p
       = snd (fst (thread_manager env self always_succeeds None
                                  (queue (run env self 2 0%nat))
                                  (world (run env self 2 0%nat))))
    /\ threads p = [Finished].
Proof.
  intros env self. eexists. split; [vm_compute; reflexivity|].
  destruct (single_worker_run_is_thread_manager env self always_succeeds
              None 2 0%nat
              [Worker 0; Worker 0; Worker 0; Worker 0; Worker 0; Main]%nat
              _ eq_refl ltac:(vm_compute; reflexivity) eq_refl)
    as (_ & _ & Hq & Hth).
  split; [exact Hq | exact Hth].
Defined.

(** ** More on retries, the stop check and runs without workers *)

Lemma Forall_update {A} (P : A -> Prop) (i : nat) (x : A) (l : list A) :
  Forall P l -> P x -> Forall P (update i x l).
Proof.
  intros HF Hx. revert i. induction HF as [|y l Hy HF IH]; intros [|i];
    simpl; try constructor; auto.
Qed.

Lemma is_execute_of_le (a : Z) (t : list event) :
  (count (is_execute_of a) t <= count is_execute t)%nat.
Proof.
  induction t as [|e t IH]; [reflexivity|].
  rewrite !count_cons. destruct e; simpl; try lia.
  destruct (action_num =? a); lia.
Qed.

Lemma action_events_execute_of (self : Torsel) (x i a : Z) (l : list event) :
  a <> x ->
  Forall (fun e => action_event self x i e = true) l ->
  count (is_execute_of a) l = 0%nat.
Proof.
  intros Hne HF. apply count_zero_not_in. intros e He.
  rewrite Forall_forall in HF. specialize (HF e He).
  destruct e; simpl in *; auto.
  apply andb_prop in HF. destruct HF as [HF _]. apply Z.eqb_eq in HF.
  subst. now apply Z.eqb_neq.
Qed.

Section RetryMore.

Context {W Driver : Type}.
Variable env : Env W Driver.
Variable self : Torsel.
Variable user_function : UserFn W Driver.

Lemma execute_function_no_newnym (a i : Z) (w : W) (p : Z) :
  ~ In (ENewnym p) (snd (fst (execute_function env self a i user_function w))).
Proof.
  unfold execute_function, configure_selenium_with_tor, bind, emit, call.
  destruct (webdriver_Chrome env (headless self) (socks_port self i) w)
    as [w1 [d|e]]; simpl.
  - destruct (user_function d a i w1) as [w2 [[]|e]]; simpl.
    + destruct (driver_quit env d w2) as [w3 r]. simpl.
      intuition discriminate.
    + intuition discriminate.
  - intuition discriminate.
Qed.

Lemma execute_function_no_probe (a i : Z) (w : W) :
  probes (snd (fst (execute_function env self a i user_function w))) = [].
Proof.
  unfold execute_function, configure_selenium_with_tor, bind, emit, call.
  destruct (webdriver_Chrome env (headless self) (socks_port self i) w)
    as [w1 [d|e]]; simpl.
  - destruct (user_function d a i w1) as [w2 [[]|e]]; simpl.
    + now destruct (driver_quit env d w2) as [w3 r].
    + reflexivity.
  - reflexivity.
Qed.

(** X15.  When the control port of the instance is a port number (0..65535)
    that never accepts connections (the Tor process did not come up), the
    user function raises an [Exception] at every invocation, and the session
    factory raises nothing outside [Exception], the retry loop makes all its
    attempts (5 in [thread_manager]), calls [rotate_tor_ip] after each of
    them, which probes the control port and returns without ever opening
    the control channel, and ends normally: whatever the control channel
    would answer plays no role. *)
Theorem retry_loop_control_port_closed (n : nat) (a i : Z) (w : W) :
  raises_always user_function ->
  chrome_no_base_exception env ->
  valid_port (control_port self i) = true ->
  (forall w', port_open env w' (control_port self i) = false) ->
  exists w1 t1,
    retry_loop env self n a i user_function w = (w1, t1, Ok tt)
    /\ count is_execute t1 = n
    /\ count is_rotate t1 = n
    /\ probes t1 = repeat (control_port self i) n
    /\ (forall p, ~ In (ENewnym p) t1).
Proof.
  intros Huf Hch Hvalid Hclosed. revert w. induction n as [|n IH]; intros w.
  - exists w, []. repeat split. intros p [].
  - cbn [retry_loop].
    pose proof (fun p => execute_function_no_newnym a i w p) as Hno.
    destruct (execute_function_user_raises env self user_function a i w
                Huf Hch) as (w1 & t1 & e & Hx & He & Hc1 & Hr1 & _).
    rewrite Hx in *. rewrite He. cbn [fst snd] in Hno.
    unfold bind at 1.
    rewrite (rotate_tor_ip_closed_port env self i w1 Hvalid (Hclosed w1)).
    destruct (IH w1) as (w3 & t3 & -> & Hc3 & Hr3 & Hp3 & Hn3).
    eexists. eexists. split; [reflexivity|].
    rewrite !count_app, Hc1, Hr1, Hc3, Hr3.
    split; [|split; [|split]].
    + unfold count. simpl. lia.
    + unfold count. simpl. lia.
    + pose proof (execute_function_no_probe a i w) as Hp1.
      rewrite Hx in Hp1. cbn [fst snd] in Hp1.
      rewrite !probes_app, Hp3, Hp1. reflexivity.
    + intros p Hin. apply in_app_or in Hin. destruct Hin as [Hin|Hin].
      * now apply (Hno p).
      * simpl in Hin. destruct Hin as [Hin|[Hin|Hin]];
          try discriminate Hin. now apply (Hn3 p).
Qed.

Lemma action_body_attempts (a : Z) (w : W) :
  (count is_execute (snd (fst (action_body env self user_function a w)))
   <= 5)%nat.
Proof.
  unfold action_body, bind at 1, py_mod.
  destruct (Z.eqb_spec (total_instances self) 0) as [H0|H0].
  { unfold count. simpl. lia. }
  unfold bind at 1.
  destruct (Z.ltb_spec a (total_instances self)) as [Hlt|Hge].
  - unfold create_tor_instance, bind, emit, call, sys.
    destruct (tor_launch env (a mod total_instances self)
                (socks_port self (a mod total_instances self))
                (control_port self (a mod total_instances self)) w)
      as [w1 [[]|e]]; cbn -[retry_loop Z.modulo].
    + match goal with
      | |- context [retry_loop env self ?n a ?i user_function ?w0] =>
          destruct (retry_loop env self n a i user_function w0)
            as [[w3 t3] r3] eqn:Hrun
      end. cbn [fst snd].
      destruct (retry_loop_counts env self user_function _ _ _ _ _ _ _ Hrun)
        as (Hle & _).
      rewrite !count_cons. simpl. lia.
    + unfold count. simpl. lia.
  - unfold ret. cbn -[retry_loop Z.modulo].
    match goal with
    | |- context [retry_loop env self ?n a ?i user_function ?w0] =>
        destruct (retry_loop env self n a i user_function w0)
          as [[w3 t3] r3] eqn:Hrun
    end. cbn [fst snd].
    destruct (retry_loop_counts env self user_function _ _ _ _ _ _ _ Hrun)
      as (Hle & _).
    exact Hle.
Qed.

End RetryMore.

Section StopMore.

Context {W Driver : Type}.
Variable env : Env W Driver.
Variable self : Torsel.
Variable user_function : UserFn W Driver.

Lemma after_get_attempts (stop : option (StopFn W)) (a : Z) (u : nat) (w : W) :
  (count is_execute
     (snd (fst (fst (after_get env self user_function stop a u w))))
   <= 5)%nat.
Proof.
  unfold after_get, bind at 1, emit.
  pose proof (action_body_attempts env self user_function a w) as Hb.
  destruct (action_body env self user_function a w) as [[w2 t2] [[]|e]];
    cbn [fst snd] in *.
  - destruct (task_done u) as [u'|e]; cbn [fst snd].
    + unfold stop_requested. destruct stop as [f|].
      * unfold call. destruct (f w2) as [w3 r3]. cbn [fst snd].
        count_simpl. lia.
      * unfold ret. cbn [fst snd]. count_simpl. lia.
    + count_simpl. lia.
  - count_simpl. lia.
Qed.

Lemma after_get_no_stop (a : Z) (u u1 : nat) (w w1 : W) t1 (r : res bool) :
  after_get env self user_function None a u w = (w1, t1, u1, r) ->
  r <> Ok true /\ count is_any_get_nowait t1 = 0%nat.
Proof.
  intros Hget. split.
  - revert Hget. unfold after_get.
    destruct (bind (emit (EGet a))
                (fun _ => action_body env self user_function a) w)
      as [[w2 t2] [[]|e]].
    + destruct (task_done u); simpl; intros H; injection H as _ _ _ <-;
        discriminate.
    + intros H; injection H as _ _ _ <-. discriminate.
  - destruct (after_get_shape _ _ _ _ _ _ _ _ _ _ _ Hget)
      as (tb & HF & Hshape).
    assert (Htb : count is_any_get_nowait tb = 0%nat).
    { eapply count_Forall_zero; [|exact HF].
      intros [] H; simpl in *; auto; discriminate. }
    destruct Hshape as [(_ & -> & _) | [(_ & _ & -> & _)
                                       | (_ & ts & -> & [-> | ->])]];
      rewrite ?count_cons, ?count_app, ?count_cons, Htb; reflexivity.
Qed.

Lemma no_drain_step (a : actor) (p p' : @Pool W) :
  no_drain p -> step env self user_function None a p = Some p' -> no_drain p'.
Proof.
  intros (Hc & HF) Hs. destruct a as [|i]; simpl in Hs.
  { apply step_main_sound in Hs.
    destruct Hs as (c & _ & _ & Hth & _ & _ & Ht & _).
    unfold no_drain. now rewrite Hth, Ht. }
  apply step_worker_cases in Hs. destruct Hs as (c & Hi & Hs).
  assert (Hcd : draining c = false).
  { rewrite Forall_forall in HF. apply HF. eapply nth_error_In; eauto. }
  destruct Hs as [(-> & ->) | [(-> & _) | [(-> & Hs)
                                         | [(-> & _) | (-> & _)]]]];
    try discriminate Hcd.
  - split; [exact Hc|]. unfold set_pc. simpl.
    apply Forall_update; [exact HF|]. now destruct (empty (queue p)).
  - destruct Hs as (x & rest & w1 & t1 & u1 & r & Hq & Hget & ->).
    destruct (after_get_no_stop _ _ _ _ _ _ _ Hget) as (Hr & Ht1).
    split; simpl.
    + rewrite count_app, Hc, Ht1. reflexivity.
    + apply Forall_update; [exact HF|].
      destruct r as [[|]|e]; auto. congruence.
Qed.

(** X16.  When [run] is given no stop check, no worker ever enters the
    drain loop and no action is ever discarded: in every interleaving, every
    action that has left the queue was taken by [queue.get()] of line 175
    and handed to the body of the loop. *)
Theorem no_stop_check_no_drain
    (num_actions : Z) (w : W) (sched : list actor) (p : @Pool W) :
  exec env self user_function None sched (run env self num_actions w)
  = Some p ->
  count is_any_get_nowait (trace p) = 0%nat
  /\ Forall (fun c => draining c = false) (threads p)
  /\ (forall a, In a (dequeued (trace p)) -> In (EGet a) (trace p)).
Proof.
  intros Hex.
  assert (Hreset : forall l,
             Forall (fun e => reset_event e = true) l ->
             count is_any_get_nowait l = 0%nat).
  { intros l HF. eapply count_Forall_zero; [|exact HF].
    intros [] H; simpl in *; auto; discriminate. }
  assert (Hinv : no_drain p).
  { destruct (run_raised (run env self num_actions w)) as [e|] eqn:Hr.
    - (* the reset raised: no thread, and the events of the reset only *)
      destruct (run_raised_exec env self user_function None _ _ _ _ _ Hr Hex)
        as (_ & _ & _ & Hth & _ & HF).
      split; [now apply Hreset | rewrite Hth; constructor].
    - revert Hex. apply (exec_invariant env self user_function None).
      + intros a q q'. apply no_drain_step.
      + rewrite run_start by exact Hr. split; simpl.
        * apply Hreset. apply (clean_up_events env self w).
        * generalize (Z.to_nat (Z.min num_actions (max_threads self))).
          intros k. induction k; simpl; auto. }
  destruct Hinv as (Hc & HF). split; [exact Hc|]. split; [exact HF|].
  intros a Ha. unfold dequeued in Ha. apply in_flat_map in Ha.
  destruct Ha as (e & He & Hae).
  rewrite count_zero_not_in in Hc. specialize (Hc e He).
  destruct e; simpl in *; try contradiction; try discriminate.
  destruct Hae as [<-|[]]. exact He.
Qed.

Lemma attempts_inv_step (stop : option (StopFn W)) (num_actions : Z)
    (a : actor) (p p' : @Pool W) :
  queue_inv num_actions p ->
  attempts_inv p ->
  step env self user_function stop a p = Some p' ->
  attempts_inv p'.
Proof.
  intros (Hfifo & _) Hinv Hs.
  assert (Hnd : NoDup (items (queue p))).
  { pose proof (range_NoDup num_actions) as H. rewrite <- Hfifo in H.
    now apply NoDup_app_remove_l in H. }
  destruct a as [|i]; simpl in Hs.
  { apply step_main_sound in Hs.
    destruct Hs as (c & _ & _ & _ & _ & _ & Ht & Hq).
    unfold attempts_inv. now rewrite Ht, Hq. }
  apply step_worker_cases in Hs. destruct Hs as (c & Hi & Hs).
  destruct Hs as [(_ & ->) | [(_ & ->) | [(_ & Hs)
                                         | [(_ & _ & ->) | (_ & Hs)]]]];
    try exact Hinv.
  - destruct Hs as (x & rest & w1 & t1 & u1 & r & Hq & Hget & ->).
    rewrite Hq in Hnd. inversion Hnd as [|? ? Hx Hrest]; subst.
    pose proof (after_get_attempts stop x (unfinished_tasks (queue p))
                  (world p)) as H5.
    rewrite Hget in H5. cbn [fst snd] in H5.
    destruct (after_get_shape _ _ _ _ _ _ _ _ _ _ _ Hget)
      as (tb & HF & Hshape).
    intros a. simpl. rewrite count_app.
    destruct (Hinv a) as (Hle & Hzero). rewrite Hq in Hzero.
    destruct (Z.eq_dec a x) as [->|Hne].
    + rewrite (Hzero (or_introl eq_refl)).
      pose proof (is_execute_of_le x t1). split; [simpl; lia|].
      intros Hin. contradiction.
    + assert (Ht1 : count (is_execute_of a) t1 = 0%nat).
      { pose proof (action_events_execute_of self x _ a tb Hne HF) as Htb.
        destruct Hshape as [(_ & -> & _) | [(_ & _ & -> & _)
                                           | (_ & ts & -> & [-> | ->])]];
          rewrite ?count_cons, ?count_app, ?count_cons, Htb; reflexivity. }
      rewrite Ht1. split; [lia|].
      intros Hin. rewrite Hzero; [reflexivity | now right].
  - destruct Hs as (x & rest & u1 & c' & Hq & _ & ->).
    intros a. simpl. rewrite count_app.
    destruct (Hinv a) as (Hle & Hzero). rewrite Hq in Hzero.
    unfold count at 2. simpl. split; [lia|].
    intros Hin. rewrite Hzero; [reflexivity | now right].
Qed.

(** X17.  Over a whole run and in every interleaving, no action is
    attempted more than 5 times in total: [execute_function] is called at
    most 5 times for each action number, and not at all for an action that
    is still in the queue. *)
Theorem pool_attempts_per_action
    (stop : option (StopFn W)) (num_actions : Z) (w : W)
    (sched : list actor) (p : @Pool W) :
  exec env self user_function stop sched (run env self num_actions w)
  = Some p ->
  forall a,
    (count (is_execute_of a) (trace p) <= 5)%nat
    /\ (In a (items (queue p)) -> count (is_execute_of a) (trace p) = 0%nat).
Proof.
  intros Hex.
  assert (Hreset : forall a l,
             Forall (fun e => reset_event e = true) l ->
             count (is_execute_of a) l = 0%nat).
  { intros a l HF. eapply count_Forall_zero; [|exact HF].
    intros [] H; simpl in *; auto; discriminate. }
  destruct (run_raised (run env self num_actions w)) as [e|] eqn:Hr.
  { (* the reset raised: the events of the reset only *)
    destruct (run_raised_exec env self user_function stop _ _ _ _ _ Hr Hex)
      as (_ & _ & _ & _ & _ & HF).
    intros a. rewrite (Hreset a _ HF). split; [lia | reflexivity]. }
  assert (Hinv : queue_inv num_actions p /\ attempts_inv p).
  { revert Hex.
    apply (exec_invariant env self user_function stop
             (fun q => queue_inv num_actions q /\ attempts_inv q)).
    - intros a q q' [Hq Ha] Hs. split.
      + eapply queue_inv_step; eauto.
      + eapply attempts_inv_step; eauto.
    - split; [now apply queue_inv_start|].
      intros a. rewrite run_start by exact Hr. simpl.
      rewrite (Hreset a _ (clean_up_events env self w)).
      split; [lia | reflexivity]. }
  exact (proj2 Hinv).
Qed.

(** X18.  When [min(num_actions, max_threads) <= 0] (no action, or no worker
    thread allowed), [run] performs the reset and starts no worker.  When
    the reset raises, [run] raises that exception and no queue is seeded;
    otherwise [run] seeds the queue and returns at once.  In both cases
    nothing can happen afterwards: every action given to [run] stays in the
    queue, never executed. *)
Theorem run_without_workers
    (stop : option (StopFn W)) (num_actions : Z) (w : W) :
  Z.min num_actions (max_threads self) <= 0 ->
  threads (run env self num_actions w) = []
  /\ (returned (run env self num_actions w) = true
      <-> snd (clean_up env self w) = Ok tt)
  /\ (snd (clean_up env self w) = Ok tt ->
      items (queue (run env self num_actions w)) = range num_actions)
  /\ (forall e, snd (clean_up env self w) = Raise e ->
                run_raised (run env self num_actions w) = Some e
                /\ items (queue (run env self num_actions w)) = [])
  /\ trace (run env self num_actions w) = snd (fst (clean_up env self w))
  /\ (forall a, step env self user_function stop a
                     (run env self num_actions w) = None)
  /\ (forall sched p,
        exec env self user_function stop sched (run env self num_actions w)
        = Some p ->
        p = run env self num_actions w).
Proof.
  intros Hmin.
  destruct (run_world_trace env self num_actions w) as (_ & Htr & Hok & Hex).
  assert (Hstuck : forall a,
            step env self user_function stop a (run env self num_actions w)
            = None).
  { destruct (run_raised (run env self num_actions w)) as [e|] eqn:Hr.
    - destruct (run_raised_pool env self num_actions w e Hr) as (_ & ->).
      intros [|[|i]]; reflexivity.
    - rewrite run_start by exact Hr.
      replace (Z.to_nat (Z.min num_actions (max_threads self))) with 0%nat
        by lia.
      intros [|[|i]]; reflexivity. }
  assert (Hrun : forall sched p,
            exec env self user_function stop sched
                 (run env self num_actions w) = Some p ->
            p = run env self num_actions w).
  { intros [|a sched] p H; simpl in H.
    - now injection H as <-.
    - rewrite Hstuck in H. discriminate H. }
  destruct (run_raised (run env self num_actions w)) as [e|] eqn:Hr.
  - destruct (run_raised_pool env self num_actions w e Hr) as (He & Hp).
    rewrite Hp in *. cbn [threads queue items trace run_raised].
    split; [reflexivity|]. split; [|split; [|split; [|split; [|split]]]];
      auto.
    + unfold returned. cbn [run_raised]. rewrite He.
      split; intros H; discriminate H.
    + rewrite He. discriminate.
    + rewrite He. intros e' H. injection H as <-. auto.
  - assert (Hc : snd (clean_up env self w) = Ok tt) by now apply Hok.
    rewrite (run_start env self num_actions w Hr) in *.
    replace (Z.to_nat (Z.min num_actions (max_threads self))) with 0%nat in *
      by lia.
    cbn [threads queue items trace run_raised repeat].
    split; [reflexivity|]. split; [|split; [|split; [|split; [|split]]]];
      auto.
    + split; [intros _; exact Hc | intros _; reflexivity].
    + rewrite Hc. discriminate.
Qed.

End StopMore.

Lemma retry_loop_control_port_closed_witness :
  exists w1 t1,
    retry_loop (sim_env [] (Raise (OtherException "AuthenticationFailure")))
               default_torsel 5 0 0 always_raises 0%nat
    = (w1, t1, Ok tt)
    /\ count is_execute t1 = 5%nat
    /\ count is_rotate t1 = 5%nat
    /\ probes t1 = repeat 9151 5
    /\ (forall p, ~ In (ENewnym p) t1).
Proof.
  apply (retry_loop_control_port_closed
           (sim_env [] (Raise (OtherException "AuthenticationFailure")))
           default_torsel always_raises 5 0 0 0%nat).
  - intros d a i w. eexists. split; reflexivity.
  - intros h p w e H. discriminate H.
  - reflexivity.
  - intros w'. reflexivity.
Defined.

Lemma no_stop_check_no_drain_witness :
  let env := sim_env [] (Ok tt) in
  let self := torsel_with 2 2 9050 9151 in
  exists p,
    exec env self always_raises None
         [Worker 0; Worker 0; Worker 1; Worker 1; Worker 0; Worker 0]
         (run env self 3 0%nat) = Some p
    /\ count is_any_get_nowait (trace p) = 0%nat
    /\ dequeued (trace p) = [0; 1; 2].
Proof.
  intros env self. eexists. split; [vm_compute; reflexivity|].
  destruct (no_stop_check_no_drain env self always_raises 3 0%nat
              [Worker 0; Worker 0; Worker 1; Worker 1; Worker 0; Worker 0]%nat
              _ ltac:(vm_compute; reflexivity)) as (H1 & _).
  split; [exact H1 | reflexivity].
Defined.

Lemma pool_attempts_per_action_witness :
  let env := sim_env [] (Ok tt) in
  let self := torsel_with 2 2 9050 9151 in
  exists p,
    exec env self always_raises None
         [Worker 0; Worker 0; Worker 1; Worker 1]
         (run env self 3 0%nat) = Some p
    /\ count (is_execute_of 1) (trace p) = 5%nat
    /\ (count (is_execute_of 1) (trace p) <= 5)%nat
    /\ count (is_execute_of 2) (trace p) = 0%nat.
Proof.
  intros env self. eexists. split; [vm_compute; reflexivity|].
  pose proof (pool_attempts_per_action env self always_raises None 3 0%nat
                [Worker 0; Worker 0; Worker 1; Worker 1]%nat
                _ ltac:(vm_compute; reflexivity)) as H.
  split; [reflexivity|]. split; [exact (proj1 (H 1))|].
  apply (proj2 (H 2)). simpl. now left.
Defined.

Lemma run_without_workers_witness :
  let env := sim_env [] (Ok tt) in
  let self := torsel_with 2 0 9050 9151 in
  returned (run env self 3 0%nat) = true
  /\ items (queue (run env self 3 0%nat)) = [0; 1; 2].
Proof.
  intros env self.
  destruct (run_without_workers env self always_succeeds None 3 0%nat)
    as (_ & Hr & Hq & _).
  - simpl. lia.
  - split; [apply Hr; reflexivity | apply Hq; reflexivity].
Defined.
